(** * Text normalisation pipeline of the Russian TTS engine

    A shallow embedding of [multilingual_tts.py] (class [MultilingualTTS])
    and [yoficator_module.py] (class [Yoficator]), and the properties of
    the normalisation pipeline proved about it.

    A Python [str] is a sequence of Unicode code points: it is modelled as
    a list of code points, [list N]. *)

From Stdlib Require Import NArith QArith Ascii String DecimalN.
From stdpp Require Import base list gmap.

Local Open Scope N_scope.

Abbreviation char := N (only parsing).
Abbreviation str := (list N) (only parsing).

(** ** String literals

    The source file is UTF-8; [u] decodes a literal into code points. *)

Fixpoint utf8_decode (bs : list N) : str :=
  match bs with
  | [] => []
  | b :: r =>
    if b <? 0x80 then b :: utf8_decode r
    else if b <? 0xE0 then
      match r with
      | b1 :: r1 => ((b - 0xC0) * 64 + (b1 - 0x80)) :: utf8_decode r1
      | _ => []
      end
    else if b <? 0xF0 then
      match r with
      | b1 :: b2 :: r2 =>
        ((b - 0xE0) * 4096 + (b1 - 0x80) * 64 + (b2 - 0x80)) :: utf8_decode r2
      | _ => []
      end
    else
      match r with
      | b1 :: b2 :: b3 :: r3 =>
        ((b - 0xF0) * 262144 + (b1 - 0x80) * 4096 + (b2 - 0x80) * 64 + (b3 - 0x80))
          :: utf8_decode r3
      | _ => []
      end
  end.

Definition u (s : string) : str :=
  utf8_decode (map N_of_ascii (list_ascii_of_string s)).

(** ** The Unicode character database

    [str.isspace], [str.isalpha], [str.isalnum], [str.lower] and the
    classes [\s], [\w], [\d] of [re] read CPython's Unicode tables.  The
    tables are fixed here on the code points the program's own literals
    live in -- ASCII, the Cyrillic block U+0400..U+045F, the white-space
    code points, and the few letters that case-fold into ASCII or Cyrillic
    -- and left to a [unicode_db] everywhere else, so that every result
    below holds whatever the tables say about other scripts. *)

Inductive digit := D0 | D1 | D2 | D3 | D4 | D5 | D6 | D7 | D8 | D9.

Definition digit_to_N (d : digit) : N :=
  match d with
  | D0 => 0 | D1 => 1 | D2 => 2 | D3 => 3 | D4 => 4
  | D5 => 5 | D6 => 6 | D7 => 7 | D8 => 8 | D9 => 9
  end.

Definition digit_of_N (n : N) : digit :=
  match n with
  | 0 => D0 | 1 => D1 | 2 => D2 | 3 => D3 | 4 => D4
  | 5 => D5 | 6 => D6 | 7 => D7 | 8 => D8 | _ => D9
  end.

Record unicode_db := {
  other_isalpha : char -> bool;          (* Py_UNICODE_ISALPHA *)
  other_decimal : char -> option digit;  (* Py_UNICODE_TODECIMAL *)
  other_isnumeric : char -> bool;        (* Py_UNICODE_ISDIGIT or ISNUMERIC *)
  other_tolower : char -> char;          (* Py_UNICODE_TOLOWER *)
  other_iscased : char -> bool;          (* c != lower(c) or c != upper(c) *)
  other_final_sigma : str -> str -> bool (* the Final_Sigma context of str.lower *)
}.

Definition in_range (lo hi c : N) : bool := (lo <=? c) && (c <=? hi).

(** Py_UNICODE_ISSPACE: the complete list of CPython's white space. *)
Definition isspace (c : char) : bool :=
  in_range 0x09 0x0D c || in_range 0x1C 0x20 c || (c =? 0x85) || (c =? 0xA0)
  || (c =? 0x1680) || in_range 0x2000 0x200A c || (c =? 0x2028) || (c =? 0x2029)
  || (c =? 0x202F) || (c =? 0x205F) || (c =? 0x3000).

Definition is_ascii (c : char) : bool := c <? 0x80.
Definition is_cyrillic_block (c : char) : bool := in_range 0x400 0x45F c.

(** Letters outside the two blocks that case-fold into them: U+0130 and
    U+212A lower-case to [i] and [k]; U+0131, U+017F and U+1C80..U+1C88
    are lower-case letters sharing an upper case with a letter of the
    blocks. *)
Definition is_fold_letter (c : char) : bool :=
  (c =? 0x130) || (c =? 0x131) || (c =? 0x17F) || (c =? 0x212A)
  || in_range 0x1C80 0x1C88 c.

Definition ascii_upper (c : char) : bool := in_range 0x41 0x5A c.
Definition ascii_lower (c : char) : bool := in_range 0x61 0x7A c.
Definition ascii_digit (c : char) : bool := in_range 0x30 0x39 c.

Section Unicode.
Variable db : unicode_db.

Definition isalpha (c : char) : bool :=
  if is_ascii c then ascii_upper c || ascii_lower c
  else if is_cyrillic_block c || is_fold_letter c then true
  else if isspace c then false
  else other_isalpha db c.

Definition decimal_value (c : char) : option digit :=
  if is_ascii c then
    if ascii_digit c then Some (digit_of_N (c - 0x30)) else None
  else if is_cyrillic_block c || is_fold_letter c || isspace c then None
  else other_decimal db c.

Definition isdecimal (c : char) : bool :=
  match decimal_value c with Some _ => true | None => false end.

Definition isnumeric (c : char) : bool :=
  if is_ascii c then ascii_digit c
  else if is_cyrillic_block c || is_fold_letter c || isspace c then false
  else other_isnumeric db c.

(** [str.isalnum] on one character. *)
Definition isalnum (c : char) : bool :=
  isalpha c || isdecimal c || isnumeric c.

(** The class [\w] of [re] on [str] patterns. *)
Definition is_word (c : char) : bool := isalnum c || (c =? 0x5F).

Definition in_blocks (c : char) : bool := is_ascii c || is_cyrillic_block c.

(** Simple lower-case mapping.  No code point outside the two blocks
    lower-cases into them, apart from U+0130 and U+212A. *)
Definition tolower (c : char) : char :=
  if is_ascii c then (if ascii_upper c then c + 0x20 else c)
  else if in_range 0x400 0x40F c then c + 0x50
  else if in_range 0x410 0x42F c then c + 0x20
  else if is_cyrillic_block c then c
  else if c =? 0x130 then 0x69
  else if c =? 0x212A then 0x6B
  else if is_fold_letter c || isspace c then c
  else let l := other_tolower db c in
       if in_blocks l || is_fold_letter l || isspace l then c else l.

Definition iscased (c : char) : bool :=
  if is_ascii c then ascii_upper c || ascii_lower c
  else if is_cyrillic_block c || is_fold_letter c then true
  else if isspace c then false
  else other_iscased db c.

(** [str.lower]: character by character, except that U+0130 gives two
    code points and capital sigma depends on its context. *)
Fixpoint lower_from (before : str) (s : str) : str :=
  match s with
  | [] => []
  | c :: r =>
    (if c =? 0x130 then [0x69; 0x307]
     else if c =? 0x3A3 then
       [if other_final_sigma db before r then 0x3C2 else 0x3C3]
     else [tolower c]) ++ lower_from (c :: before) r
  end.

Definition lower (s : str) : str := lower_from [] s.

Definition str_isalpha (s : str) : bool :=
  match s with [] => false | _ => forallb isalpha s end.
End Unicode.

(** ** Built-in string operations *)

Definition str_eqb (a b : str) : bool := bool_decide (a = b).

Fixpoint lstrip (s : str) : str :=
  match s with
  | c :: r => if isspace c then lstrip r else s
  | [] => []
  end.

Definition rstrip (s : str) : str := rev (lstrip (rev s)).
Definition strip (s : str) : str := rstrip (lstrip s).

Fixpoint starts_with (p s : str) : bool :=
  match p, s with
  | [], _ => true
  | a :: p', b :: s' => (a =? b) && starts_with p' s'
  | _ :: _, [] => false
  end.

Definition ends_with (p s : str) : bool := starts_with (rev p) (rev s).

(** [p in s] *)
Fixpoint contains (p s : str) : bool :=
  starts_with p s || match s with [] => false | _ :: r => contains p r end.

(** [s.split()]: the maximal runs of non-space characters. *)
Fixpoint split_ws_aux (cur : str) (s : str) : list str :=
  match s with
  | [] => match cur with [] => [] | _ => [rev cur] end
  | c :: r =>
    if isspace c then
      match cur with [] => split_ws_aux [] r | _ => rev cur :: split_ws_aux [] r end
    else split_ws_aux (c :: cur) r
  end.

Definition split_ws (s : str) : list str := split_ws_aux [] s.

(** [sep.join(parts)] *)
Fixpoint join (sep : str) (parts : list str) : str :=
  match parts with
  | [] => []
  | [p] => p
  | p :: ps => p ++ sep ++ join sep ps
  end.

(** [s.replace(c, empty)]: drop every occurrence of one character. *)
Definition remove_char (c : char) (s : str) : str :=
  filter (fun x => x ≠ c) s.

(** ** Scanning with a pattern: [re.sub], [re.findall], [str.replace]

    A pattern is given by its matcher: from the text before the current
    position (nearest character first) and the text from the position on,
    the length of the match that starts here, if there is one.  Every
    pattern of the program consumes at least one character, so a match of
    length [0] does not occur.  The scan is the one of [re]: leftmost
    match first, resumed right after each match. *)

Definition matcher := str -> str -> option nat.

Section Scan.
Context {A : Type} (ch : A -> char).

Fixpoint re_scan (m : matcher) (before : str) (skip : nat) (s : list A)
  : list (A + list A) :=
  match s with
  | [] => []
  | c :: r =>
    match skip with
    | S k => re_scan m (ch c :: before) k r
    | O =>
      match m before (map ch s) with
      | Some (S n) => inr (take (S n) s) :: re_scan m (ch c :: before) n r
      | _ => inl c :: re_scan m (ch c :: before) 0 r
      end
    end
  end.

Definition piece_out (repl : list A -> list A) (p : A + list A) : list A :=
  match p with
  | inl c => [c]
  | inr mt => repl mt
  end.

(** [re.sub(pattern, repl, s)] *)
Definition re_sub (m : matcher) (repl : list A -> list A) (s : list A) : list A :=
  concat (map (piece_out repl) (re_scan m [] 0 s)).

(** [pattern.findall(s)] for a pattern whose only group is the whole match *)
Definition re_findall (m : matcher) (s : list A) : list (list A) :=
  omap (fun p => match p with inr mt => Some mt | inl _ => None end)
       (re_scan m [] 0 s).
End Scan.

(** Length of the longest prefix whose characters satisfy [p]. *)
Fixpoint run_length (p : char -> bool) (s : str) : nat :=
  match s with
  | c :: r => if p c then S (run_length p r) else 0%nat
  | [] => 0%nat
  end.

(** A literal, compared character for character: [str.replace(old, new)]. *)
Definition lit_matcher (old : str) : matcher :=
  fun _ s => if starts_with old s then Some (length old) else None.

Definition str_replace (old new s : str) : str :=
  re_sub id (lit_matcher old) (fun _ => new) s.

(** The pattern [(.)\1{3,}]: a character other than a line feed, followed
    by three or more copies of itself, as many as there are. *)
Definition repeat_matcher : matcher :=
  fun _ s =>
    match s with
    | c :: r =>
      if c =? 0x0A then None
      else let n := run_length (N.eqb c) r in
           if (3 <=? n)%nat then Some (S n) else None
    | [] => None
    end.

(** Case-insensitive equivalents, [_equivalences] of [sre_compile]: the
    other lower-case letters with the same upper case. *)
Definition sre_fixes (lo : char) : list char :=
  match lo with
  | 0x69 => [0x131] | 0x131 => [0x69]
  | 0x73 => [0x17F] | 0x17F => [0x73]
  | 0x432 => [0x1C80] | 0x1C80 => [0x432]
  | 0x434 => [0x1C81] | 0x1C81 => [0x434]
  | 0x43E => [0x1C82] | 0x1C82 => [0x43E]
  | 0x441 => [0x1C83] | 0x1C83 => [0x441]
  | 0x442 => [0x1C84; 0x1C85] | 0x1C84 => [0x442; 0x1C85] | 0x1C85 => [0x442; 0x1C84]
  | 0x44A => [0x1C86] | 0x1C86 => [0x44A]
  | _ => []
  end.

Definition mem (c : char) (l : list char) : bool := existsb (N.eqb c) l.

Section Patterns.
Variable db : unicode_db.

(** A literal character of a pattern compiled with [re.IGNORECASE]: an
    uncased one matches itself, a cased one every character whose lower
    case is its lower case or an equivalent of it. *)
Definition ci_char (p c : char) : bool :=
  if iscased db p then
    let lo := tolower db p in
    let l := tolower db c in
    (l =? lo) || mem l (sre_fixes lo)
  else c =? p.

Fixpoint ci_starts_with (p s : str) : bool :=
  match p, s with
  | [], _ => true
  | a :: p', b :: s' => ci_char a b && ci_starts_with p' s'
  | _ :: _, [] => false
  end.

(** A character class [[lo-hi extra]] under [re.IGNORECASE]: the class
    holds the lower case of its members and their equivalents, and a
    character is in it when its lower case is. *)
Definition ci_class (lo hi : char) (extra : list char) (c : char) : bool :=
  let l := tolower db c in
  in_range lo hi l || mem l extra
  || existsb (fun k => in_range lo hi k || mem k extra) (sre_fixes l).

Definition class_matcher (cl : char -> bool) : matcher :=
  fun _ s => match s with c :: _ => if cl c then Some 1%nat else None | [] => None end.

Definition word_before (before : str) : bool :=
  match before with c :: _ => is_word db c | [] => false end.
Definition word_after (s : str) : bool :=
  match s with c :: _ => is_word db c | [] => false end.

(** [\b] between the text [before] and the text [s]. *)
Definition boundary (before s : str) : bool :=
  xorb (word_before before) (word_after s).

(** [(?<!\w)] + re.escape(abbr) + [(?!\w)], case-insensitive *)
Definition dotted_matcher (abbr : str) : matcher :=
  fun before s =>
    if negb (word_before before) && ci_starts_with abbr s
       && negb (word_after (drop (length abbr) s))
    then Some (length abbr) else None.

(** [\b] + re.escape(abbr) + [\b], case-insensitive *)
Definition bounded_matcher (abbr : str) : matcher :=
  fun before s =>
    if boundary before s && ci_starts_with abbr s
       && boundary (rev (take (length abbr) s) ++ before) (drop (length abbr) s)
    then Some (length abbr) else None.

(** [\b\d+\b]: the digits are taken greedily and given back one at a
    time until a boundary follows. *)
Fixpoint backtrack_boundary (before s : str) (k : nat) : option nat :=
  match k with
  | O => None
  | S k' =>
    if boundary (rev (take k s) ++ before) (drop k s) then Some k
    else backtrack_boundary before s k'
  end.

Definition number_matcher : matcher :=
  fun before s =>
    if boundary before s
    then backtrack_boundary before s (run_length (isdecimal db) s)
    else None.

(** [^В\s+] *)
Definition leading_v_matcher : matcher :=
  fun before s =>
    match before, s with
    | [], 0x412 :: r =>
      match run_length isspace r with
      | O => None
      | S n => Some (S (S n))
      end
    | _, _ => None
    end.

(** The splitter [(\s+|\w+|\W+|\S+)] of the yoficator: the first
    alternative that matches wins; the fourth is never reached, since
    every character is in [\w] or in [\W]. *)
Definition splitter_matcher : matcher :=
  fun _ s =>
    match s with
    | c :: _ =>
      if isspace c then Some (run_length isspace s)
      else if is_word db c then Some (run_length (is_word db) s)
      else Some (run_length (fun x => negb (is_word db x)) s)
    | [] => None
    end.

(** The pattern of rule 7, a letter ye, then a group of any number of
    characters other than yo, then the end of the string: it matches at
    the first ye after which no yo follows, up to the end. *)
Definition last_ye_matcher : matcher :=
  fun _ s =>
    match s with
    | 0x435 :: r =>
      if forallb (fun x => negb (x =? 0x451)) r then Some (length s) else None
    | _ => None
    end.
End Patterns.

(** ** Integers and their decimal text *)

Fixpoint uint_chars (d : Decimal.uint) : str :=
  match d with
  | Decimal.Nil => []
  | Decimal.D0 r => 0x30 :: uint_chars r
  | Decimal.D1 r => 0x31 :: uint_chars r
  | Decimal.D2 r => 0x32 :: uint_chars r
  | Decimal.D3 r => 0x33 :: uint_chars r
  | Decimal.D4 r => 0x34 :: uint_chars r
  | Decimal.D5 r => 0x35 :: uint_chars r
  | Decimal.D6 r => 0x36 :: uint_chars r
  | Decimal.D7 r => 0x37 :: uint_chars r
  | Decimal.D8 r => 0x38 :: uint_chars r
  | Decimal.D9 r => 0x39 :: uint_chars r
  end.

(** [str(n)] of a non-negative [int] *)
Definition str_of_int (n : N) : str := uint_chars (N.to_uint n).

(** [sys.int_max_str_digits] as the interpreter sets it. *)
Definition int_max_str_digits : nat := 4300.

Section Int.
Variable db : unicode_db.

(** The value of a run of decimal digits of any script, read from the
    left; [None] when a character is not a decimal digit. *)
Fixpoint int_digits (acc : N) (s : str) : option N :=
  match s with
  | [] => Some acc
  | c :: r =>
    match decimal_value db c with
    | Some d => int_digits (acc * 10 + digit_to_N d) r
    | None => None
    end
  end.

(** [int(s)] on a run of decimal digits, the only strings the program
    converts.  [None] is the [ValueError] of the empty string, of a
    string that is not such a run, and of a string of more digits than
    the interpreter converts, leading zeros counted: the limit
    [sys.int_max_str_digits], 4300 unless it is changed.  Below the
    limit Python's integers are unbounded. *)
Definition py_int (s : str) : option N :=
  match s with
  | [] => None
  | _ => if (int_max_str_digits <? length s)%nat then None else int_digits 0 s
  end.
End Int.

(** ** [class MultilingualTTS]: language detection *)

Inductive language := russian | english.

Definition language_name (l : language) : str :=
  match l with russian => u "russian" | english => u "english" end.

Section Detect.
Variable db : unicode_db.

(** [re.compile(r'[а-яё]', re.IGNORECASE)] *)
Definition cyrillic_pattern : matcher :=
  class_matcher (ci_class db 0x430 0x44F [0x451]).

(** [re.compile(r'[a-z]', re.IGNORECASE)] *)
Definition latin_pattern : matcher :=
  class_matcher (ci_class db 0x61 0x7A []).

Definition detect_language (text : str) : language :=
  let cyrillic_count := length (re_findall id cyrillic_pattern text) in
  let latin_count := length (re_findall id latin_pattern text) in
  if (latin_count <? cyrillic_count)%nat then russian
  else if (cyrillic_count <? latin_count)%nat then english
  else if (0 <? cyrillic_count)%nat then russian
  else russian.
End Detect.

(** ** Numerals and abbreviations: [_simple_number_conversion] *)

Definition _russian_units : gmap N str := list_to_map [
    (1, u "один");
    (2, u "два");
    (3, u "три");
    (4, u "четыре");
    (5, u "пять");
    (6, u "шесть");
    (7, u "семь");
    (8, u "восемь");
    (9, u "девять");
    (10, u "десять");
    (11, u "одиннадцать");
    (12, u "двенадцать");
    (13, u "тринадцать");
    (14, u "четырнадцать");
    (15, u "пятнадцать");
    (16, u "шестнадцать");
    (17, u "семнадцать");
    (18, u "восемнадцать");
    (19, u "девятнадцать")
  ].

Definition _russian_tens : gmap N str := list_to_map [
    (2, u "двадцать");
    (3, u "тридцать");
    (4, u "сорок");
    (5, u "пятьдесят");
    (6, u "шестьдесят");
    (7, u "семьдесят");
    (8, u "восемьдесят");
    (9, u "девяносто")
  ].

Definition _russian_hundreds : gmap N str := list_to_map [
    (1, u "сто");
    (2, u "двести");
    (3, u "триста");
    (4, u "четыреста");
    (5, u "пятьсот");
    (6, u "шестьсот");
    (7, u "семьсот");
    (8, u "восемьсот");
    (9, u "девятьсот")
  ].

Definition sp : str := [0x20].

(** The interpreter's recursion limit: a [RecursionError] is an exception
    like any other for the bare [except] of [convert_russian_number]. *)
Definition recursion_limit : nat := 1000.

(** The body of [convert_russian_number] once [num] is known.  A failed
    dictionary lookup is a [KeyError], caught by the bare [except], which
    returns [num_str]; the recursive calls receive an [int], which is its
    own [num_str]. *)
Fixpoint convert_number (depth : nat) (num : N) (num_str : str) : str :=
  match depth with
  | O => num_str
  | S depth' =>
    let convert_russian_number (n : N) : str :=
      convert_number depth' n (str_of_int n) in
    default num_str (
      if num =? 0 then Some (u "ноль")
      else if num <? 20 then _russian_units !! num
      else if num <? 100 then
        let tens := num / 10 in
        let units := num mod 10 in
        if units =? 0 then _russian_tens !! tens
        else t ← _russian_tens !! tens; w ← _russian_units !! units;
             Some (t ++ sp ++ w)
      else if num <? 1000 then
        let hundreds := num / 100 in
        let remainder := num mod 100 in
        if remainder =? 0 then _russian_hundreds !! hundreds
        else h ← _russian_hundreds !! hundreds;
             Some (h ++ sp ++ convert_russian_number remainder)
      else if num <? 1000000 then
        let thousands := num / 1000 in
        let remainder := num mod 1000 in
        if remainder =? 0 then
          if thousands =? 1 then Some (u "тысяча")
          else if thousands <? 5 then
            Some (convert_russian_number thousands ++ u " тысячи")
          else Some (convert_russian_number thousands ++ u " тысяч")
        else
          if thousands =? 1 then
            Some (u "тысяча " ++ convert_russian_number remainder)
          else if thousands <? 5 then
            Some (convert_russian_number thousands ++ u " тысячи "
                    ++ convert_russian_number remainder)
          else
            Some (convert_russian_number thousands ++ u " тысяч "
                    ++ convert_russian_number remainder)
      else Some num_str)
  end.

(** A [dict] display keeps the position of the first occurrence of a key
    and the value of the last one. *)
Fixpoint dict_set (k v : str) (d : list (str * str)) : list (str * str) :=
  match d with
  | [] => [(k, v)]
  | (k', v') :: r => if str_eqb k k' then (k, v) :: r else (k', v') :: dict_set k v r
  end.

Definition dict_items (display : list (str * str)) : list (str * str) :=
  fold_left (fun d kv => dict_set kv.1 kv.2 d) display [].

(** [sorted(items, key=lambda x: len(x[0]), reverse=True)]: longest keys
    first, and the sort is stable. *)
Fixpoint insert_by_length (x : str * str) (l : list (str * str)) : list (str * str) :=
  match l with
  | [] => [x]
  | y :: r =>
    if (length x.1 <? length y.1)%nat then y :: insert_by_length x r
    else x :: l
  end.

Definition sorted_by_length (l : list (str * str)) : list (str * str) :=
  foldr insert_by_length [] l.

Definition abbreviations_display : list (str * str) := [
    (u "к.м.н.", u "кандидат медицинских наук");
    (u "д.м.н.", u "доктор медицинских наук");
    (u "к.т.н.", u "кандидат технических наук");
    (u "д.т.н.", u "доктор технических наук");
    (u "т.е.", u "то есть");
    (u "т.к.", u "так как");
    (u "т.д.", u "так далее");
    (u "т.п.", u "тому подобное");
    (u "и т.д.", u "и так далее");
    (u "и т.п.", u "и тому подобное");
    (u "др.", u "доктор");
    (u "проф.", u "профессор");
    (u "акад.", u "академик");
    (u "гг.", u "годы");
    (u "вв.", u "века");
    (u "г.", u "год");
    (u "мин.", u "минута");
    (u "сек.", u "секунда");
    (u "ч.", u "час");
    (u "сут.", u "сутки");
    (u "тт.", u "тома");
    (u "стр.", u "страница");
    (u "с.", u "страница");
    (u "гл.", u "глава");
    (u "пп.", u "пункты");
    (u "чч.", u "части");
    (u "т.", u "том");
    (u "п.", u "пункт");
    (u "ч.", u "часть");
    (u "GPT", u "джи пи ти");
    (u "AI", u "эй ай");
    (u "CPU", u "си пи ю");
    (u "GPU", u "джи пи ю");
    (u "RAM", u "рэм");
    (u "ROM", u "ром");
    (u "USB", u "ю эс би");
    (u "HDD", u "хэ дэ дэ");
    (u "SSD", u "эс эс дэ");
    (u "API", u "эй пи ай");
    (u "URL", u "ю ар эл");
    (u "HTTP", u "хэ тэ тэ пи");
    (u "HTTPS", u "хэ тэ тэ пи эс");
    (u "HTML", u "хэ тэ эм эл");
    (u "CSS", u "си эс эс");
    (u "JS", u "джей эс");
    (u "JSON", u "джейсон");
    (u "XML", u "икс эм эл");
    (u "PDF", u "пи дэ эф");
    (u "MP3", u "эм пи три");
    (u "MP4", u "эм пи фо");
    (u "AVI", u "эй ви ай");
    (u "MKV", u "эм кей ви");
    (u "JPG", u "джей пи джи");
    (u "PNG", u "пи эн джи");
    (u "GIF", u "джи ай эф");
    (u "ZIP", u "зип");
    (u "RAR", u "рар");
    (u "7Z", u "семь зет");
    (u "UN", u "ю эн");
    (u "UNESCO", u "юнеско");
    (u "NASA", u "наса");
    (u "FBI", u "эф би ай");
    (u "CIA", u "си ай эй");
    (u "KGB", u "ка гэ бэ");
    (u "USSR", u "у эс эс эр");
    (u "EU", u "и ю");
    (u "NATO", u "нато");
    (u "WHO", u "дабл ю эйч о");
    (u "кг", u "килограмм");
    (u "км", u "километр");
    (u "см", u "сантиметр");
    (u "мм", u "миллиметр");
    (u "л", u "литр");
    (u "мл", u "миллилитр");
    (u "Вт", u "ватт");
    (u "кВт", u "киловатт");
    (u "А", u "ампер");
    (u "Гц", u "герц");
    (u "кГц", u "килогерц");
    (u "МГц", u "мегагерц");
    (u "ГГц", u "гигагерц");
    (u "м", u "метр");
    (u "см.", u "смотри");
    (u "напр.", u "например");
    (u "ок.", u "около");
    (u "прим.", u "примерно");
    (u "макс.", u "максимум");
    (u "мин.", u "минимум");
    (u "ср.", u "средний")
  ].

Definition abbreviations : list (str * str) :=
  Eval vm_compute in dict_items abbreviations_display.

Definition number_map_display : list (str * str) := [
    (u "0", u "zero");
    (u "1", u "one");
    (u "2", u "two");
    (u "3", u "three");
    (u "4", u "four");
    (u "5", u "five");
    (u "6", u "six");
    (u "7", u "seven");
    (u "8", u "eight");
    (u "9", u "nine");
    (u "10", u "ten");
    (u "11", u "eleven");
    (u "12", u "twelve");
    (u "13", u "thirteen");
    (u "14", u "fourteen");
    (u "15", u "fifteen");
    (u "16", u "sixteen");
    (u "17", u "seventeen");
    (u "18", u "eighteen");
    (u "19", u "nineteen");
    (u "20", u "twenty");
    (u "30", u "thirty");
    (u "40", u "forty");
    (u "50", u "fifty");
    (u "60", u "sixty");
    (u "70", u "seventy");
    (u "80", u "eighty");
    (u "90", u "ninety");
    (u "100", u "one hundred");
    (u "1000", u "one thousand")
  ].

Definition number_map : list (str * str) :=
  Eval vm_compute in dict_items number_map_display.

Section Conversion.
Variable db : unicode_db.

Definition convert_russian_number (num_str : str) : str :=
  match py_int db num_str with
  | Some num => convert_number recursion_limit num num_str
  | None => num_str
  end.

(** The pattern built for one abbreviation. *)
Definition abbr_matcher (abbr : str) : matcher :=
  if mem 0x2E abbr then dotted_matcher db abbr else bounded_matcher db abbr.

Definition expand_abbreviation (result : str) (entry : str * str) : str :=
  re_sub id (abbr_matcher entry.1) (fun _ => entry.2) result.

(** [re.sub(r'\b\d+\b', replace_numbers, result)] *)
Definition replace_all_numbers (result : str) : str :=
  re_sub id (number_matcher db) convert_russian_number result.

Definition _simple_number_conversion (text : str) (lang : language) : str :=
  match lang with
  | russian =>
    let result := text in
    let result := re_sub id leading_v_matcher (fun _ => u "В ") result in
    let result :=
      fold_left expand_abbreviation (sorted_by_length abbreviations) result in
    replace_all_numbers result
  | english =>
    fold_left (fun result kv => str_replace kv.1 kv.2 result)
              (sorted_by_length number_map) text
  end.
End Conversion.

(** ** [yoficator_module.py]: [class Yoficator] *)

(** [re.sub(r'ё', 'е', value)] *)
Definition yo_fold (value : str) : str :=
  map (fun c => if c =? 0x451 then 0x435 else c) value.

(** [s.split(sep)] for a separator of one character *)
Fixpoint split_on_aux (sep : char) (cur : str) (s : str) : list str :=
  match s with
  | [] => [rev cur]
  | c :: r =>
    if c =? sep then rev cur :: split_on_aux sep [] r
    else split_on_aux sep (c :: cur) r
  end.

Definition split_on (sep : char) (s : str) : list str := split_on_aux sep [] s.

(** [line.rstrip('\n')] *)
Fixpoint lstrip_char (c : char) (s : str) : str :=
  match s with
  | x :: r => if x =? c then lstrip_char c r else s
  | [] => []
  end.

Definition rstrip_char (c : char) (s : str) : str := rev (lstrip_char c (rev s)).

Definition add_entry (value : str) (d : gmap str str) : gmap str str :=
  <[yo_fold value := value]> d.

(** One line of [yo.dat] in [_load_dictionary].  [None]: the unpacking
    [bline, sline = cline.split(...)] raised [ValueError], which the
    loader does not catch. *)
Definition load_line (d : gmap str str) (line : str) : option (gmap str str) :=
  if mem 0x2A line then Some d
  else
    let cline := rstrip_char 0x0A line in
    parts ←
      (if mem 0x28 cline then
         match split_on 0x28 cline with
         | [bline; sline] => Some (bline, remove_char 0x29 sline)
         | _ => None
         end
       else Some (cline, []));
    let '(bline, sline) := parts in
    if mem 0x7C sline then
      Some (fold_left (fun d ss => add_entry (bline ++ ss) d) (split_on 0x7C sline) d)
    else Some (add_entry bline d).

(** [_load_dictionary] on the lines of the file; a missing file is the
    empty list of lines as far as the dictionary goes. *)
Fixpoint load_lines (d : gmap str str) (lines : list str) : option (gmap str str) :=
  match lines with
  | [] => Some d
  | line :: rest => d' ← load_line d line; load_lines d' rest
  end.

Definition _load_dictionary (lines : list str) : option (gmap str str) :=
  load_lines ∅ lines.

Definition exceptions_el : list str :=
  [u "медведь"; u "привет"; u "как"; u "дела"; u "удел"; u "предел";
   u "умел"; u "смел"; u "дела"].

Definition exceptions_a : list str :=
  [u "телка"; u "щелка"; u "мелка"; u "желтка"; u "дела"].

Definition str_in (s : str) (l : list str) : bool := existsb (str_eqb s) l.

Section Yoficator.
Variable db : unicode_db.

Definition _apply_additional_rules (word : str) : str :=
  if negb (str_isalpha db word) then word
  else
    let lw := lower db word in
    if str_eqb lw (u "телка") then str_replace (u "е") (u "ё") word
    else if str_eqb lw (u "осел") then str_replace (u "е") (u "ё") word
    else if str_eqb lw (u "еще") then u "ещё"
    else if str_eqb lw (u "ее") then u "её"
    else if str_eqb lw (u "произнес") then str_replace (u "е") (u "ё") word
    else if ends_with (u "ел") lw && (3 <? length word)%nat
              && negb (str_in lw exceptions_el)
    then str_replace (u "ел") (u "ёл") word
    else if ends_with (u "а") lw && contains (u "е") (removelast lw)
              && negb (str_in lw exceptions_a)
    then re_sub id last_ye_matcher (fun mt => 0x451 :: tail mt) word
    else word.

Definition yoficate_token (dictionary : gmap str str) (token : str) : str :=
  match dictionary !! token with
  | Some value => value
  | None => _apply_additional_rules token
  end.

Definition yoficate (dictionary : gmap str str) (text : str) : str :=
  if bool_decide (dictionary = ∅) then text
  else
    let tokens := re_findall id (splitter_matcher db) text in
    concat (map (yoficate_token dictionary) tokens).
End Yoficator.

(** ** [class MultilingualTTS]: the pipeline *)

(** What [hasattr] finds on the accentizer; a method returns [None] here
    when it raises. *)
Inductive accent_api :=
| ProcessAll (process_all : str -> option str)
| Process (process : str -> option str)
| NoMethod.

Record infer_params := {
  ref_file : str;
  ref_text : str;
  gen_text : str;
  cross_fade_duration : Q;
  speed : Q;
  target_rms : Q;
  sway_sampling_coef : Q;
  cfg_strength : Q;
  nfe_step : Z;
  remove_silence : bool;
  fix_duration : option Q;
  seed : option Z
}.

(** The external engine with the audio envelope and the file write that
    follow it in the same [try]: [false] when any of them raises. *)
Definition F5TTS := infer_params -> bool.

Record MultilingualTTS := {
  enable_accent : bool;
  accentizer : option accent_api;
  russian_tts : option F5TTS;
  yo_dictionary : gmap str str   (* the module-level [yoficator] *)
}.

Inductive event :=
| Infer (p : infer_params).

Section Pipeline.
Variable db : unicode_db.
Variable self : MultilingualTTS.

Definition _is_only_symbols (text : str) : bool :=
  let text_no_spaces := remove_char 0x20 text in
  match text_no_spaces with
  | [] => true
  | _ => negb (existsb (isalnum db) text_no_spaces)
  end.

Definition _remove_long_symbol_sequences (text : str) : str :=
  re_sub id repeat_matcher (take 3) text.

Definition is_blank (s : str) : bool :=
  match strip s with [] => true | _ => false end.

Definition add_accents (text : str) : str :=
  match accentizer self with
  | None => text
  | Some api =>
    if is_blank text then text
    else match api with
         | ProcessAll f | Process f => default text (f text)
         | NoMethod => text
         end
  end.

Definition _preprocess_gpt_issues (text : str) : str := text.

Definition normalize_text (text : str) (lang : language) : str :=
  if is_blank text then text
  else
    let preprocessed_text := _preprocess_gpt_issues text in
    let normalized_text := _simple_number_conversion db preprocessed_text lang in
    match lang with
    | russian => yoficate db (yo_dictionary self) normalized_text
    | english => normalized_text
    end.

Definition ends_with_any (ps : list str) (s : str) : bool :=
  existsb (fun p => ends_with p s) ps.

Definition preprocess_text_for_tts (text : str) : str :=
  let processed_text := strip text in
  match processed_text with
  | [] => []
  | _ =>
    if _is_only_symbols processed_text then []
    else
      let processed_text := _remove_long_symbol_sequences processed_text in
      if is_blank processed_text then []
      else
        let lang := detect_language db processed_text in
        let processed_text := join sp (split_ws processed_text) in
        let processed_text := normalize_text processed_text lang in
        let processed_text :=
          match lang with
          | russian =>
            if enable_accent self then add_accents processed_text
            else processed_text
          | english => processed_text
          end in
        match processed_text with
        | [] => processed_text
        | _ =>
          let processed_text := rstrip processed_text in
          if negb (ends_with_any [u "."; u "!"; u "?"] processed_text)
          then processed_text ++ u "."
          else processed_text
        end
  end.
End Pipeline.

(** ** [synthesize_speech] *)

Definition DEFAULT_VOICE_TRANSCRIPTION : str :=
  u "Секреты всегда рядом, Скуф. Нужно лишь тихо прислушаться и услышать их.".

(** The arguments of a call; [None] is Python's [None] default. *)
Record synth_args := {
  arg_text : str;
  arg_ref_audio_path : str;
  arg_ref_text : str;
  arg_cross_fade_duration : Q;
  arg_speed : option Q;
  arg_silence_duration_ms : Z;
  arg_target_rms : Q;
  arg_sway_sampling_coef : Q;
  arg_cfg_strength : Q;
  arg_nfe_step : option Z;
  arg_fix_duration : option Q;
  arg_remove_silence : bool;
  arg_seed : option Z
}.

(** What the call reads from its environment: the clock, in milliseconds,
    and whether the output directory can be made. *)
Record world := {
  time_ms : N;
  mkdir_ok : bool
}.

Section Synthesis.
Variable db : unicode_db.
Variable self : MultilingualTTS.
Variable w : world.

(** Returns the path of the audio file, or [None], and the calls made
    to the engine. *)
Definition synthesize_speech (a : synth_args) : option str * list event :=
  let processed_text := preprocess_text_for_tts db self (arg_text a) in
  match processed_text with
  | [] => (None, [])
  | _ =>
    let lang := detect_language db processed_text in
    let speed :=
      match arg_speed a with
      | Some speed => speed
      | None =>
        let length_without_spaces := length (remove_char 0x20 processed_text) in
        if (length_without_spaces <=? 3)%nat then 0.1%Q
        else if (length_without_spaces <=? 8)%nat then 0.3%Q
        else if (length_without_spaces <=? 18)%nat then 0.6%Q
        else if (length_without_spaces <=? 35)%nat then 0.8%Q
        else if (length_without_spaces <=? 45)%nat then 0.9%Q
        else 1.0%Q
      end in
    let nfe_step :=
      match arg_nfe_step a with
      | Some nfe_step => nfe_step
      | None =>
        let length_without_spaces := length (remove_char 0x20 processed_text) in
        if (120 <? length_without_spaces)%nat then 18%Z else 26%Z
      end in
    match russian_tts self with
    | None => (None, [])
    | Some tts_model =>
      let ref_text_to_use :=
        match arg_ref_text a with
        | [] => DEFAULT_VOICE_TRANSCRIPTION
        | t => t
        end in
      if negb (mkdir_ok w) then (None, [])
      else
        let output_path :=
          u "audio_output/russian_" ++ language_name lang ++ u "_"
            ++ str_of_int (time_ms w) ++ u ".wav" in
        let infer_params := {|
          ref_file := arg_ref_audio_path a;
          ref_text := ref_text_to_use;
          gen_text := processed_text;
          cross_fade_duration := arg_cross_fade_duration a;
          speed := speed;
          target_rms := arg_target_rms a;
          sway_sampling_coef := arg_sway_sampling_coef a;
          cfg_strength := arg_cfg_strength a;
          nfe_step := nfe_step;
          remove_silence := arg_remove_silence a;
          fix_duration := arg_fix_duration a;
          seed := arg_seed a
        |} in
        if tts_model infer_params
        then (Some output_path, [Infer infer_params])
        else (None, [Infer infer_params])
    end
  end.
End Synthesis.

(** * Properties *)

(** ** Language detection *)

(** The decision rule in the words of the specification. *)
Definition decision_rule (cyrillic_count latin_count : nat) : language :=
  if decide (latin_count < cyrillic_count)%nat then russian
  else if decide (cyrillic_count < latin_count)%nat then english
  else if decide (1 ≤ cyrillic_count)%nat then russian
  else russian.

Section DetectProps.
Variable db : unicode_db.

Definition is_cyrillic_letter : char -> bool := ci_class db 0x430 0x44F [0x451].
Definition is_latin_letter : char -> bool := ci_class db 0x61 0x7A [].

Definition count (p : char -> bool) (s : str) : nat := length (filter p s).

Lemma findall_class (cl : char -> bool) (s : str) :
  forall before, omap (fun p : char + str => match p with inr mt => Some mt | inl _ => None end)
                   (re_scan id (class_matcher cl) before 0 s)
                 = map (fun c => [c]) (filter cl s).
Proof.
  induction s as [|c r IH]; intros before; [reflexivity|].
  cbn [re_scan]. unfold class_matcher at 1. cbn [map]. change (id c) with c.
  rewrite filter_cons.
  destruct (cl c) eqn:E.
  - rewrite decide_True by exact I. cbn. f_equal. apply IH.
  - rewrite decide_False by exact id. cbn. apply IH.
Qed.

Lemma findall_class_count (cl : char -> bool) (s : str) :
  length (re_findall id (class_matcher cl) s) = count cl s.
Proof.
  unfold re_findall, count. rewrite findall_class. apply length_map.
Qed.

Lemma detect_language_counts (text : str) :
  detect_language db text
  = decision_rule (count is_cyrillic_letter text) (count is_latin_letter text).
Proof.
  unfold detect_language, cyrillic_pattern, latin_pattern, decision_rule.
  rewrite !findall_class_count.
  fold is_cyrillic_letter is_latin_letter.
  set (c := count is_cyrillic_letter text). set (l := count is_latin_letter text).
  repeat case_decide;
    repeat match goal with
           | |- context [(?a <? ?b)%nat] => destruct (Nat.ltb_spec a b)
           end; try reflexivity; lia.
Qed.
End DetectProps.

(** All code points from [lo], [n] of them. *)
Fixpoint code_points (lo : N) (n : nat) : list N :=
  match n with
  | O => []
  | S n' => lo :: code_points (N.succ lo) n'
  end.

Lemma code_points_spec (p : N -> bool) (n : nat) :
  forall lo, forallb p (code_points lo n) = true ->
  forall c, lo <= c -> c < lo + N.of_nat n -> p c = true.
Proof.
  induction n as [|n IH]; intros lo H c Hlo Hhi; [lia|].
  cbn [code_points forallb] in H. apply andb_prop in H as [H0 H1].
  destruct (N.eq_dec c lo) as [->|Hne]; [exact H0|].
  apply (IH (N.succ lo)); [exact H1|lia|lia].
Qed.

(** Inside ASCII and the Cyrillic block the two classes hold the letters
    one expects and nothing else. *)
Lemma cyrillic_letter_in_blocks (db : unicode_db) (c : char) :
  in_blocks c = true ->
  is_cyrillic_letter db c
  = in_range 0x410 0x44F c || (c =? 0x401) || (c =? 0x451).
Proof.
  intros H.
  set (p := fun c => bool_decide (is_cyrillic_letter db c
                 = in_range 0x410 0x44F c || (c =? 0x401) || (c =? 0x451))).
  enough (p c = true) as Hp by (apply bool_decide_eq_true in Hp; exact Hp).
  unfold in_blocks, is_ascii, is_cyrillic_block, in_range in H.
  destruct (N.ltb_spec c 0x80).
  - apply (code_points_spec p 128 0); [vm_compute; reflexivity|lia|lia].
  - cbn in H. apply andb_prop in H as [H1 H2].
    apply N.leb_le in H1, H2.
    apply (code_points_spec p 96 0x400); [vm_compute; reflexivity|lia|lia].
Qed.

Lemma latin_letter_in_blocks (db : unicode_db) (c : char) :
  in_blocks c = true ->
  is_latin_letter db c = ascii_upper c || ascii_lower c.
Proof.
  intros H.
  set (p := fun c => bool_decide (is_latin_letter db c = ascii_upper c || ascii_lower c)).
  enough (p c = true) as Hp by (apply bool_decide_eq_true in Hp; exact Hp).
  unfold in_blocks, is_ascii, is_cyrillic_block, in_range in H.
  destruct (N.ltb_spec c 0x80).
  - apply (code_points_spec p 128 0); [vm_compute; reflexivity|lia|lia].
  - cbn in H. apply andb_prop in H as [H1 H2].
    apply N.leb_le in H1, H2.
    apply (code_points_spec p 96 0x400); [vm_compute; reflexivity|lia|lia].
Qed.

(** C2. [detect_language] answers [russian] or [english] from the number
    of Cyrillic letters and the number of Latin letters of the text, both
    counted without regard to case: more Cyrillic than Latin gives
    russian, more Latin than Cyrillic gives english, a tie with a Cyrillic
    letter gives russian, and no letter at all gives russian.  The four
    sample texts of the specification are classified as it says. *)
Theorem detect_language_rule (db : unicode_db) :
  (forall text : str,
     detect_language db text
     = decision_rule (count (is_cyrillic_letter db) text)
                     (count (is_latin_letter db) text))
  /\ detect_language db (u "Привет!") = russian
  /\ detect_language db (u "Hello!") = english
  /\ detect_language db (u "123") = russian
  /\ detect_language db (u "") = russian.
Proof.
  split; [apply detect_language_counts|].
  repeat split; vm_compute; reflexivity.
Qed.



(** ** Sample objects, used where a property is run on a concrete input *)

(** A database that knows no letter, digit or case outside the tables. *)
Definition basic_db : unicode_db := {|
  other_isalpha := fun _ => false;
  other_decimal := fun _ => None;
  other_isnumeric := fun _ => false;
  other_tolower := fun c => c;
  other_iscased := fun _ => false;
  other_final_sigma := fun _ _ => false
|}.

(** An instance whose accentizer failed to load, with an engine that
    always succeeds and an empty yo dictionary. *)
Definition sample_tts : MultilingualTTS := {|
  enable_accent := true;
  accentizer := None;
  russian_tts := Some (fun _ => true);
  yo_dictionary := ∅
|}.

Definition sample_world : world := {| time_ms := 1700000000000; mkdir_ok := true |}.

Definition sample_args (text : str) : synth_args := {|
  arg_text := text;
  arg_ref_audio_path := u "test_ref.wav";
  arg_ref_text := [];
  arg_cross_fade_duration := 0.15%Q;
  arg_speed := None;
  arg_silence_duration_ms := 100%Z;
  arg_target_rms := 0.1%Q;
  arg_sway_sampling_coef := (-1)%Q;
  arg_cfg_strength := 2%Q;
  arg_nfe_step := None;
  arg_fix_duration := None;
  arg_remove_silence := false;
  arg_seed := None
|}.

(** ** Terminal punctuation *)

Lemma starts_with_cons_rev (c : char) (l : str) :
  starts_with [c] l = true -> exists r, l = c :: r.
Proof.
  destruct l as [|x r]; cbn; [discriminate|].
  rewrite andb_true_r. intros H%N.eqb_eq. subst. eauto.
Qed.

Lemma ends_with_single (c : char) (s : str) :
  ends_with [c] s = true -> last s = Some c.
Proof.
  unfold ends_with. cbn [rev app]. intros H.
  apply starts_with_cons_rev in H as [r Hr].
  rewrite <- (rev_involutive s), Hr. cbn [rev].
  apply last_snoc.
Qed.

Definition terminal_marks : list char := [0x2E; 0x21; 0x3F].

(** C1. The canonical text returned by [preprocess_text_for_tts] is empty
    or ends in a full stop, an exclamation mark or a question mark,
    whatever the input, the accentizer and the yo dictionary are. *)
Theorem canonical_text_terminated (db : unicode_db) (self : MultilingualTTS) (text : str) :
  preprocess_text_for_tts db self text = []
  \/ exists c, last (preprocess_text_for_tts db self text) = Some c /\ c ∈ terminal_marks.
Proof.
  unfold preprocess_text_for_tts.
  destruct (strip text) as [|c0 t0] eqn:Hs; [left; reflexivity|].
  destruct (_is_only_symbols db (c0 :: t0)); [left; reflexivity|].
  destruct (is_blank _); [left; reflexivity|].
  match goal with
  | |- context [match ?x with [] => _ | _ :: _ => _ end] => destruct x as [|c1 t1] eqn:Hx
  end; [left; reflexivity|].
  right. set (t := rstrip (c1 :: t1)).
  destruct (ends_with_any _ t) eqn:He; cbn [negb].
  - unfold ends_with_any in He. cbn [existsb] in He.
    rewrite orb_false_r in He.
    apply orb_prop in He as [He|He]; [|apply orb_prop in He as [He|He]];
      apply ends_with_single in He; eexists; (split; [exact He|]);
      unfold terminal_marks; set_solver.
  - exists 0x2E. split; [apply last_snoc|unfold terminal_marks; set_solver].
Qed.

(** ** Nothing to synthesize *)

Lemma lstrip_sublist (s : str) : forall c, c ∈ lstrip s -> c ∈ s.
Proof.
  induction s as [|x r IH]; intros c H; [exact H|].
  cbn in H. destruct (isspace x); [right; apply IH, H|exact H].
Qed.

Lemma elem_of_rev (s : str) (c : char) : c ∈ rev s <-> c ∈ s.
Proof. rewrite !list_elem_of_In. symmetry. apply in_rev. Qed.

Lemma rstrip_sublist (s : str) (c : char) : c ∈ rstrip s -> c ∈ s.
Proof.
  unfold rstrip. rewrite elem_of_rev. intros H%lstrip_sublist.
  apply elem_of_rev, H.
Qed.

Lemma strip_sublist (s : str) (c : char) : c ∈ strip s -> c ∈ s.
Proof.
  unfold strip. intros H%rstrip_sublist. apply lstrip_sublist, H.
Qed.

Lemma existsb_false_sub (p : char -> bool) (l l' : str) :
  (forall c, c ∈ l' -> c ∈ l) -> existsb p l = false -> existsb p l' = false.
Proof.
  intros Hsub H.
  destruct (existsb p l') eqn:E; [|reflexivity].
  apply existsb_exists in E as (c & Hc & Hp).
  assert (existsb p l = true) as Ht
    by (apply existsb_exists; exists c; split;
        [apply list_elem_of_In, Hsub, list_elem_of_In, Hc|exact Hp]).
  congruence.
Qed.

Lemma symbol_only_is_empty (db : unicode_db) (self : MultilingualTTS) (text : str) :
  existsb (isalnum db) (remove_char 0x20 text) = false ->
  preprocess_text_for_tts db self text = [].
Proof.
  intros H. unfold preprocess_text_for_tts.
  destruct (strip text) as [|c0 t0] eqn:Hs; [reflexivity|].
  assert (_is_only_symbols db (c0 :: t0) = true) as ->; [|reflexivity].
  unfold _is_only_symbols.
  destruct (remove_char 0x20 (c0 :: t0)) eqn:Hr; [reflexivity|].
  rewrite <- Hr. apply negb_true_iff.
  apply (existsb_false_sub _ (remove_char 0x20 text)); [|exact H].
  intros c. unfold remove_char. rewrite !list_elem_of_filter.
  intros [Hne Hin]. split; [exact Hne|].
  apply strip_sublist. rewrite Hs. exact Hin.
Qed.

(** C5. An input without any alphanumeric character once its spaces are
    removed, and more generally any input whose canonical text is empty,
    gives the empty canonical text, and [synthesize_speech] returns
    [None] for it without a single call to the engine.  The model of
    [synthesize_speech] is a total function: no exception leaves it. *)
Theorem nothing_to_synthesize
    (db : unicode_db) (self : MultilingualTTS) (w : world) (a : synth_args) :
  existsb (isalnum db) (remove_char 0x20 (arg_text a)) = false
  \/ preprocess_text_for_tts db self (arg_text a) = [] ->
  preprocess_text_for_tts db self (arg_text a) = []
  /\ synthesize_speech db self w a = (None, []).
Proof.
  intros H.
  assert (preprocess_text_for_tts db self (arg_text a) = []) as He
    by (destruct H as [H|H]; [apply symbol_only_is_empty, H|exact H]).
  split; [exact He|].
  unfold synthesize_speech. rewrite He. reflexivity.
Qed.

Lemma nothing_to_synthesize_witness :
  preprocess_text_for_tts basic_db sample_tts (u "...!!!!") = []
  /\ synthesize_speech basic_db sample_tts sample_world (sample_args (u "...!!!!"))
     = (None, []).
Proof.
  apply (nothing_to_synthesize basic_db sample_tts sample_world (sample_args (u "...!!!!"))).
  left. vm_compute. reflexivity.
Defined.

(** ** Prosody heuristic *)

(** The two step functions in the words of the specification. *)
Definition speaking_rate (L : nat) : Q :=
  if decide (L ≤ 3)%nat then 0.1%Q
  else if decide (L ≤ 8)%nat then 0.3%Q
  else if decide (L ≤ 18)%nat then 0.6%Q
  else if decide (L ≤ 35)%nat then 0.8%Q
  else if decide (L ≤ 45)%nat then 0.9%Q
  else 1.0%Q.

Definition integration_steps (L : nat) : Z :=
  if decide (120 < L)%nat then 18%Z else 26%Z.

(** C9. In every call that [synthesize_speech] makes to the engine, the
    text is the canonical text; the speed is the caller's when one was
    given and otherwise the step function of [L], the length of the
    canonical text without its spaces; the step count is the caller's when
    one was given and otherwise 18 for [L > 120] and 26 below. *)
Theorem prosody_heuristic
    (db : unicode_db) (self : MultilingualTTS) (w : world) (a : synth_args)
    (p : infer_params) :
  Infer p ∈ (synthesize_speech db self w a).2 ->
  let canonical_text := preprocess_text_for_tts db self (arg_text a) in
  let L := length (remove_char 0x20 canonical_text) in
  gen_text p = canonical_text
  /\ speed p = match arg_speed a with Some v => v | None => speaking_rate L end
  /\ nfe_step p = match arg_nfe_step a with Some n => n | None => integration_steps L end.
Proof.
  intros H canonical_text L. unfold synthesize_speech in H.
  fold canonical_text in H. fold L in H.
  destruct canonical_text as [|c0 t0] eqn:Hc; [cbn in H; set_solver|].
  destruct (russian_tts self) as [tts_model|]; [|cbn in H; set_solver].
  destruct (mkdir_ok w); cbn [negb] in H; [|cbn in H; set_solver].
  match type of H with
  | _ ∈ (if ?b then _ else _).2 => destruct b
  end; cbn [snd] in H; apply list_elem_of_singleton in H; injection H as ->;
    cbn [gen_text speed nfe_step]; (split; [reflexivity|]); split.
  all: try (destruct (arg_speed a); [reflexivity|]; unfold speaking_rate;
            repeat case_decide;
            repeat match goal with
                   | |- context [(?x <=? ?y)%nat] => destruct (Nat.leb_spec x y)
                   end; try reflexivity; lia).
  all: destruct (arg_nfe_step a); [reflexivity|]; unfold integration_steps;
       case_decide; destruct (Nat.ltb_spec 120 L); try reflexivity; lia.
Qed.

Definition sample_call : option str * list event :=
  synthesize_speech basic_db sample_tts sample_world (sample_args (u "Привет! Как дела?")).

Definition sample_params : infer_params :=
  Eval vm_compute in
    match sample_call.2 with
    | Infer p :: _ => p
    | [] => Build_infer_params [] [] [] 0 0 0 0 0 0 false None None
    end.

Lemma prosody_heuristic_witness :
  gen_text sample_params = u "Привет! Как дела?"
  /\ speed sample_params = 0.6%Q
  /\ nfe_step sample_params = 26%Z.
Proof.
  apply (prosody_heuristic basic_db sample_tts sample_world
           (sample_args (u "Привет! Как дела?")) sample_params).
  vm_compute. apply list_elem_of_here.
Defined.

(** ** The scan: general facts *)

Section ScanFacts.
Context {A : Type} (ch : A -> char).

(** While a match is being skipped, the scan emits nothing. *)
Lemma re_scan_skip (m : matcher) (s1 s2 : list A) :
  forall before,
    re_scan ch m before (length s1) (s1 ++ s2)
    = re_scan ch m (rev (map ch s1) ++ before) 0 s2.
Proof.
  induction s1 as [|c r IH]; intros before; [reflexivity|].
  cbn [length app re_scan map rev]. rewrite IH, <- app_assoc. reflexivity.
Qed.

(** A matcher that looks at most one character back. *)
Definition looks_one_back (m : matcher) : Prop :=
  forall b b' s, head b = head b' -> m b s = m b' s.

Lemma re_scan_before (m : matcher) (s : list A) :
  looks_one_back m ->
  forall k b b', head b = head b' -> re_scan ch m b k s = re_scan ch m b' k s.
Proof.
  intros Hm. induction s as [|c r IH]; intros k b b' Hb; [reflexivity|].
  cbn [re_scan]. rewrite (Hm b b' _ Hb).
  destruct k as [|k]; [|apply IH; reflexivity].
  destruct (m b' _) as [[|n]|]; f_equal; apply IH; reflexivity.
Qed.

(** The matches inside [pre] are the same whether or not [rest] follows. *)
Definition stable (m : matcher) (before : str) (pre rest : list A) : Prop :=
  forall i, (i < length pre)%nat ->
    let b := rev (map ch (take i pre)) ++ before in
    m b (map ch (drop i pre ++ rest)) = m b (map ch (drop i pre))
    /\ forall n, m b (map ch (drop i pre)) = Some n -> (n <= length pre - i)%nat.

Lemma stable_tail (m : matcher) (before : str) (c : A) (pre rest : list A) :
  stable m before (c :: pre) rest -> stable m (ch c :: before) pre rest.
Proof.
  intros H i Hi. specialize (H (S i)). cbn [length take drop map rev] in H.
  rewrite <- app_assoc in H. cbn [app] in H.
  apply H. lia.
Qed.

Lemma re_scan_app (m : matcher) (pre rest : list A) :
  forall before k,
    stable m before pre rest -> (k <= length pre)%nat ->
    re_scan ch m before k (pre ++ rest)
    = re_scan ch m before k pre ++ re_scan ch m (rev (map ch pre) ++ before) 0 rest.
Proof.
  induction pre as [|c r IH]; intros before k Hst Hk.
  - cbn in Hk. assert (k = 0%nat) as -> by lia. reflexivity.
  - pose proof (Hst 0%nat ltac:(cbn; lia)) as [H0 Hn]. cbn [take drop map rev app] in H0, Hn.
    pose proof (stable_tail _ _ _ _ _ Hst) as Hst'.
    cbn [app re_scan length map rev]. rewrite <- app_assoc. cbn [app].
    destruct k as [|k].
    + cbn [map]. rewrite H0.
      destruct (m before (ch c :: map ch r)) as [[|n]|] eqn:Em.
      * cbn [app]. f_equal. apply IH; [exact Hst'|lia].
      * specialize (Hn _ eq_refl). cbn [length] in Hn.
        cbn [app]. f_equal.
        -- f_equal. cbn [take]. f_equal. apply take_app_le. lia.
        -- apply IH; [exact Hst'|lia].
      * cbn [app]. f_equal. apply IH; [exact Hst'|lia].
    + apply IH; [exact Hst'|cbn in Hk; lia].
Qed.
End ScanFacts.

Lemma re_sub_pieces {A : Type} (ch : A -> char) (m : matcher)
    (repl : list A -> list A) (s : list A) :
  re_sub ch m repl s = concat (map (piece_out repl) (re_scan ch m [] 0 s)).
Proof. reflexivity. Qed.

(** ** Russian numerals *)

(** The recursion of [convert_russian_number] is three calls deep at
    most: more depth changes nothing. *)
Lemma convert_number_lt100 (depth : nat) (n : N) (s : str) :
  n < 100 -> convert_number (S depth) n s = convert_number 1 n s.
Proof.
  intros Hn. cbn [convert_number].
  destruct (n =? 0); [reflexivity|].
  destruct (n <? 20); [reflexivity|].
  destruct (N.ltb_spec n 100); [reflexivity|lia].
Qed.

Lemma convert_number_lt1000 (depth : nat) (n : N) (s : str) :
  n < 1000 -> convert_number (S (S depth)) n s = convert_number 2 n s.
Proof.
  intros Hn.
  remember (S depth) as d1 eqn:E1. change 2%nat with (S 1).
  remember 1%nat as d2 eqn:E2. cbn [convert_number].
  destruct (n =? 0); [reflexivity|].
  destruct (n <? 20); [reflexivity|].
  destruct (n <? 100); [reflexivity|].
  destruct (N.ltb_spec n 1000); [|lia].
  assert (n mod 100 < 100) as Hr by (apply N.mod_lt; lia).
  subst d1 d2. rewrite (convert_number_lt100 depth _ _ Hr). reflexivity.
Qed.

Lemma convert_number_depth (depth : nat) (n : N) (s : str) :
  convert_number (S (S (S depth))) n s = convert_number 3 n s.
Proof.
  remember (S (S depth)) as d1 eqn:E1. change 3%nat with (S 2).
  remember 2%nat as d2 eqn:E2. cbn [convert_number].
  destruct (n =? 0); [reflexivity|].
  destruct (n <? 20); [reflexivity|].
  destruct (n <? 100); [reflexivity|].
  assert (n mod 100 < 100) as Hr by (apply N.mod_lt; lia).
  assert (n mod 1000 < 1000) as Hr' by (apply N.mod_lt; lia).
  destruct (n <? 1000).
  { subst d1 d2. rewrite (convert_number_lt1000 depth), (convert_number_lt100 1) by lia.
    reflexivity. }
  destruct (N.ltb_spec n 1000000); [|reflexivity].
  assert (n / 1000 < 1000) as Hq by (apply N.Div0.div_lt_upper_bound; lia).
  subst d1 d2. rewrite !(convert_number_lt1000 depth) by lia. reflexivity.
Qed.

(** A text without any decimal digit. *)
Definition digit_free (db : unicode_db) (s : str) : bool :=
  negb (existsb (isdecimal db) s).

Lemma digit_free_app (db : unicode_db) (s t : str) :
  digit_free db (s ++ t) = digit_free db s && digit_free db t.
Proof. unfold digit_free. rewrite existsb_app, negb_orb. reflexivity. Qed.

Lemma convert_number_small (db : unicode_db) (s : str) (n : N) :
  n < 1000 -> digit_free db (convert_number 2 n s) = true.
Proof.
  intros Hn.
  apply (code_points_spec (fun n => digit_free db (convert_number 2 n s)) 1000 0);
    [vm_compute; reflexivity|lia|lia].
Qed.

Lemma convert_number_digit_free (db : unicode_db) (s : str) (n : N) :
  n < 1000000 -> digit_free db (convert_number recursion_limit n s) = true.
Proof.
  intros Hn. change recursion_limit with (S (S (S 997))).
  rewrite convert_number_depth.
  destruct (N.ltb_spec n 1000) as [Hlt|Hge].
  { rewrite (convert_number_lt1000 1) by exact Hlt. apply convert_number_small, Hlt. }
  assert (n mod 1000 < 1000) as Hr by (apply N.mod_lt; lia).
  assert (n / 1000 < 1000) as Hq by (apply N.Div0.div_lt_upper_bound; lia).
  pose proof (convert_number_small db (str_of_int (n / 1000)) _ Hq) as Ht.
  pose proof (convert_number_small db (str_of_int (n mod 1000)) _ Hr) as Hm.
  change 3%nat with (S 2). remember 2%nat as d2 eqn:E2. cbn [convert_number].
  destruct (N.eqb_spec n 0); [lia|].
  destruct (N.ltb_spec n 20); [lia|].
  destruct (N.ltb_spec n 100); [lia|].
  destruct (N.ltb_spec n 1000); [lia|].
  destruct (N.ltb_spec n 1000000); [|lia].
  subst d2.
  destruct (n mod 1000 =? 0), (n / 1000 =? 1), (n / 1000 <? 5);
    cbn [default from_option]; unfold id;
    rewrite ?digit_free_app, ?Ht, ?Hm; reflexivity.
Qed.

Lemma convert_number_large (depth : nat) (s : str) (n : N) :
  1000000 <= n -> convert_number (S depth) n s = s.
Proof.
  intros Hn. cbn [convert_number].
  destruct (N.eqb_spec n 0); [lia|].
  destruct (N.ltb_spec n 20); [lia|].
  destruct (N.ltb_spec n 100); [lia|].
  destruct (N.ltb_spec n 1000); [lia|].
  destruct (N.ltb_spec n 1000000); [lia|reflexivity].
Qed.

Section NumberMatcher.
Variable db : unicode_db.

Lemma isdecimal_is_word (c : char) : isdecimal db c = true -> is_word db c = true.
Proof.
  intros H. unfold is_word, isalnum. rewrite H, orb_true_r. reflexivity.
Qed.

Lemma word_before_app (x b b' : str) :
  head b = head b' -> word_before db (x ++ b) = word_before db (x ++ b').
Proof.
  intros H. destruct x as [|c x]; [|reflexivity].
  cbn [app]. destruct b, b'; cbn in H |- *; congruence.
Qed.

Lemma word_after_app (s rest : str) :
  s <> [] -> word_after db (s ++ rest) = word_after db s.
Proof. destruct s; [congruence|reflexivity]. Qed.

Lemma backtrack_before (b b' s : str) (k : nat) :
  head b = head b' -> backtrack_boundary db b s k = backtrack_boundary db b' s k.
Proof.
  intros H. induction k as [|k IH]; [reflexivity|].
  cbn [backtrack_boundary]. unfold boundary.
  rewrite (word_before_app _ b b' H), IH. reflexivity.
Qed.

Lemma number_matcher_one_back : looks_one_back (number_matcher db).
Proof.
  intros b b' s H. unfold number_matcher, boundary.
  pose proof (word_before_app [] b b' H) as Hw. cbn [app] in Hw.
  rewrite Hw, (backtrack_before b b' s _ H). reflexivity.
Qed.

Lemma backtrack_le (b s : str) (k n : nat) :
  backtrack_boundary db b s k = Some n -> (n <= k)%nat.
Proof.
  induction k as [|k IH]; [discriminate|].
  cbn [backtrack_boundary]. destruct (boundary _ _ _).
  - intros [= <-]. lia.
  - intros H%IH. lia.
Qed.

Lemma backtrack_stable (b s rest : str) (k : nat) :
  (k < length s)%nat ->
  backtrack_boundary db b (s ++ rest) k = backtrack_boundary db b s k.
Proof.
  induction k as [|k IH]; intros Hk; [reflexivity|].
  cbn [backtrack_boundary]. rewrite IH by lia.
  rewrite take_app_le, drop_app_le by lia.
  unfold boundary. rewrite (word_after_app (drop (S k) s) rest); [reflexivity|].
  intros E. apply (f_equal length) in E. rewrite length_drop in E. cbn in E. lia.
Qed.

Lemma run_length_le (p : char -> bool) (s : str) : (run_length p s <= length s)%nat.
Proof. induction s as [|c r IH]; cbn; [lia|]. destruct (p c); cbn; lia. Qed.

Lemma run_length_stop (p : char -> bool) (s rest : str) (c : char) :
  p c = false ->
  run_length p ((s ++ [c]) ++ rest) = run_length p (s ++ [c])
  /\ (run_length p (s ++ [c]) < length (s ++ [c]))%nat.
Proof.
  intros Hc. induction s as [|x r IH]; cbn [app run_length length].
  - rewrite Hc. split; [reflexivity|lia].
  - destruct (p x); [|split; [reflexivity|lia]].
    destruct IH as [-> IH]. split; [reflexivity|lia].
Qed.

Lemma run_length_all (p : char -> bool) (s rest : str) :
  forallb p s = true -> match rest with c :: _ => p c = false | [] => True end ->
  run_length p (s ++ rest) = length s.
Proof.
  intros Hs Hr. induction s as [|x r IH]; cbn [app run_length length].
  - destruct rest as [|c rest]; [reflexivity|]. cbn. rewrite Hr. reflexivity.
  - cbn in Hs. apply andb_prop in Hs as [-> Hs]. rewrite IH by exact Hs. reflexivity.
Qed.

(** A text that does not end in a word character is scanned on its own. *)
Lemma number_matcher_stable (before pre rest : str) :
  word_before db (rev pre) = false ->
  stable id (number_matcher db) before pre rest.
Proof.
  intros Hlast i Hi. cbn zeta. rewrite !map_id.
  destruct (drop i pre) as [|y t _] eqn:Ed using rev_ind.
  { apply (f_equal length) in Ed. rewrite length_drop in Ed. cbn in Ed. lia. }
  assert (is_word db y = false) as Hy.
  { rewrite <- (take_drop i pre), Ed, !rev_app_distr in Hlast. exact Hlast. }
  assert (isdecimal db y = false) as Hd.
  { destruct (isdecimal db y) eqn:E; [|reflexivity].
    apply isdecimal_is_word in E. congruence. }
  set (b := rev (take i pre) ++ before).
  destruct (run_length_stop (isdecimal db) t rest y Hd) as [Hrun Hlt].
  assert (t ++ [y] <> []) as Hne by (destruct t; discriminate).
  unfold number_matcher, boundary. rewrite (word_after_app _ rest Hne), Hrun.
  rewrite backtrack_stable by exact Hlt.
  split; [reflexivity|].
  intros n Hn. destruct (xorb _ _); [|discriminate].
  apply backtrack_le in Hn.
  assert (length (t ++ [y]) = length pre - i)%nat as <-
    by (rewrite <- Ed, length_drop; reflexivity).
  lia.
Qed.
End NumberMatcher.

Section NumeralExpansion.
Variable db : unicode_db.

Lemma int_digits_all (s : str) :
  forall acc n, int_digits db acc s = Some n -> forallb (isdecimal db) s = true.
Proof.
  induction s as [|c r IH]; intros acc n H; [reflexivity|].
  cbn in H |- *. unfold isdecimal at 1.
  destruct (decimal_value db c); [|discriminate].
  cbn. apply (IH _ _ H).
Qed.

Lemma py_int_value (d : str) (n : N) :
  py_int db d = Some n ->
  d <> [] /\ (length d <= int_max_str_digits)%nat /\ int_digits db 0 d = Some n.
Proof.
  unfold py_int. destruct d as [|c r]; [discriminate|].
  destruct (Nat.ltb_spec int_max_str_digits (length (c :: r))) as [Hlt|Hle];
    [discriminate|].
  intros H. split; [discriminate|]. split; [lia|exact H].
Qed.

Lemma py_int_digits (d : str) (n : N) :
  py_int db d = Some n -> d <> [] /\ forallb (isdecimal db) d = true.
Proof.
  intros (Hne & _ & H)%py_int_value. split; [exact Hne|].
  apply (int_digits_all _ _ _ H).
Qed.

Lemma py_int_short (d : str) :
  (0 < length d)%nat -> (length d <= int_max_str_digits)%nat ->
  py_int db d = int_digits db 0 d.
Proof.
  intros H0 Hl. unfold py_int. destruct d as [|c r]; [cbn in H0; lia|].
  destruct (Nat.ltb_spec int_max_str_digits (length (c :: r))); [lia|reflexivity].
Qed.

Lemma py_int_long (d : str) :
  (int_max_str_digits < length d)%nat -> py_int db d = None.
Proof.
  intros Hl. unfold py_int. destruct d as [|c r]; [reflexivity|].
  destruct (Nat.ltb_spec int_max_str_digits (length (c :: r))); [reflexivity|lia].
Qed.

Lemma not_word_not_decimal (s : str) :
  word_after db s = false ->
  match s with c :: _ => isdecimal db c = false | [] => True end.
Proof.
  destruct s as [|c r]; [trivial|]. cbn. intros H.
  destruct (isdecimal db c) eqn:E; [|reflexivity].
  apply isdecimal_is_word in E. congruence.
Qed.

Lemma number_matcher_at_run (b d post : str) :
  word_before db b = false -> d <> [] -> forallb (isdecimal db) d = true ->
  word_after db post = false ->
  number_matcher db b (d ++ post) = Some (length d).
Proof.
  intros Hb Hne Hall Hp.
  unfold number_matcher.
  rewrite (run_length_all _ _ _ Hall (not_word_not_decimal _ Hp)).
  assert (word_after db d = true) as Hfirst.
  { destruct d as [|c r]; [congruence|]. cbn in Hall |- *.
    apply andb_prop in Hall as [Hc _]. apply isdecimal_is_word, Hc. }
  assert (word_before db (rev d ++ b) = true) as Hlast.
  { destruct d as [|y t _] using rev_ind; [congruence|].
    rewrite rev_app_distr. cbn. rewrite forallb_app in Hall.
    apply andb_prop in Hall as [_ Hy]. cbn in Hy. rewrite andb_true_r in Hy.
    apply isdecimal_is_word, Hy. }
  unfold boundary at 1. rewrite Hb, (word_after_app db d post Hne), Hfirst. cbn [xorb].
  destruct (length d) as [|k] eqn:El; [destruct d; [congruence|discriminate]|].
  cbn [backtrack_boundary]. rewrite <- El.
  rewrite take_app_length, drop_app_length. unfold boundary.
  rewrite Hlast, Hp. reflexivity.
Qed.

Lemma number_matcher_not_word (b s : str) :
  word_after db s = false -> number_matcher db b s = None.
Proof.
  intros H. unfold number_matcher.
  assert (run_length (isdecimal db) s = 0%nat) as ->.
  { destruct s as [|c r]; [reflexivity|].
    cbn. pose proof (not_word_not_decimal _ H) as Hc. cbn in Hc. rewrite Hc. reflexivity. }
  destruct (boundary db b s); reflexivity.
Qed.

Lemma re_scan_number_context (post b b' : str) :
  word_after db post = false ->
  re_scan id (number_matcher db) b 0 post = re_scan id (number_matcher db) b' 0 post.
Proof.
  intros H. destruct post as [|c r]; [reflexivity|].
  cbn [re_scan]. rewrite !map_id, !(number_matcher_not_word _ _ H).
  f_equal. apply re_scan_before; [apply number_matcher_one_back|reflexivity].
Qed.

Lemma replace_all_numbers_split (pre d post : str) :
  d <> [] -> forallb (isdecimal db) d = true ->
  word_before db (rev pre) = false ->
  word_after db post = false ->
  replace_all_numbers db (pre ++ d ++ post)
  = replace_all_numbers db pre ++ convert_russian_number db d
      ++ replace_all_numbers db post.
Proof.
  intros Hne Hd Hpre Hpost. unfold replace_all_numbers, re_sub.
  rewrite (re_scan_app id _ pre (d ++ post) [] 0
             (number_matcher_stable db [] pre (d ++ post) Hpre)) by lia.
  rewrite map_app, concat_app. f_equal.
  rewrite map_id, app_nil_r.
  pose proof (number_matcher_at_run _ d post Hpre Hne Hd Hpost) as Hm.
  destruct d as [|c d']; [congruence|].
  cbn [app re_scan]. rewrite map_id. cbn [app] in Hm. rewrite Hm. cbn [length].
  cbn [map concat piece_out]. f_equal.
  - cbn [take]. rewrite take_app_length. reflexivity.
  - rewrite re_scan_skip. f_equal. f_equal.
    apply re_scan_number_context, Hpost.
Qed.

End NumeralExpansion.


(** The expansion on whole sample texts. *)
Example replace_all_numbers_sample :
  replace_all_numbers basic_db (u "всего 12345 рублей и 1000000 копеек, 007")
  = u "всего двенадцать тысяч триста сорок пять рублей и 1000000 копеек, семь".
Proof. vm_compute. reflexivity. Qed.

(** ** Agreement of the thousands *)

Section Thousands.
Variable db : unicode_db.

Lemma convert_thousands_many (d : str) (k : N) :
  py_int db d = Some (1000 * k) -> 5 <= k -> k < 1000 ->
  convert_russian_number db d
  = convert_number 2 k (str_of_int k) ++ u " тысяч".
Proof.
  intros Hd H5 Hk. unfold convert_russian_number. rewrite Hd.
  change recursion_limit with (S (S (S 997))). rewrite convert_number_depth.
  change 3%nat with (S 2). remember 2%nat as d2 eqn:E2. cbn [convert_number].
  destruct (N.eqb_spec (1000 * k) 0); [lia|].
  destruct (N.ltb_spec (1000 * k) 20); [lia|].
  destruct (N.ltb_spec (1000 * k) 100); [lia|].
  destruct (N.ltb_spec (1000 * k) 1000); [lia|].
  destruct (N.ltb_spec (1000 * k) 1000000); [|lia].
  assert (1000 * k / 1000 = k) as -> by (rewrite N.mul_comm; apply N.div_mul; lia).
  assert ((1000 * k) mod 1000 = 0) as -> by (rewrite N.mul_comm; apply N.Div0.mod_mul).
  cbn [N.eqb].
  destruct (N.eqb_spec k 1); [lia|].
  destruct (N.ltb_spec k 5); [lia|].
  reflexivity.
Qed.
End Thousands.

(** C4, as the code has it.  [1] is spoken with the word of the units,
    [1000] with the singular form, [2000], [3000] and [4000] with the
    first plural form, [5000] with the form for many; and every exact
    multiple of one thousand whose count of thousands lies between 5 and
    999, written with no more digits than the interpreter converts, is
    spoken as that count followed by the form for many.  From 1000000 on
    the text is left as digits. *)
Theorem thousands_agreement (db : unicode_db) :
  convert_russian_number db (u "1") = u "один"
  /\ convert_russian_number db (u "1000") = u "тысяча"
  /\ convert_russian_number db (u "2000") = u "два тысячи"
  /\ convert_russian_number db (u "3000") = u "три тысячи"
  /\ convert_russian_number db (u "4000") = u "четыре тысячи"
  /\ convert_russian_number db (u "5000") = u "пять тысяч"
  /\ forall (d : str) (k : N),
       int_digits db 0 d = Some (1000 * k) ->
       (0 < length d)%nat -> (length d <= int_max_str_digits)%nat ->
       5 <= k -> k < 1000 ->
       convert_russian_number db d
       = convert_number 2 k (str_of_int k) ++ u " тысяч"
       /\ digit_free db (convert_number 2 k (str_of_int k)) = true.
Proof.
  do 6 (split; [vm_compute; reflexivity|]).
  intros d k Hv H0 Hl H5 Hk. split.
  - apply convert_thousands_many; [|assumption|assumption].
    rewrite (py_int_short db d H0 Hl). exact Hv.
  - apply convert_number_small, Hk.
Qed.

Lemma thousands_agreement_witness :
  convert_russian_number basic_db (u "999000")
  = convert_number 2 999 (str_of_int 999) ++ u " тысяч"
  /\ digit_free basic_db (convert_number 2 999 (str_of_int 999)) = true.
Proof.
  apply (proj2 (proj2 (proj2 (proj2 (proj2 (proj2 (thousands_agreement basic_db)))))));
    vm_compute; first [reflexivity | lia | congruence].
Defined.

(** One million is an exact multiple of one thousand, its count of
    thousands is 1000, and it is not spoken at all. *)
Lemma million_left_as_digits :
  py_int basic_db (u "1000000") = Some (1000 * 1000)
  /\ 5 <= 1000
  /\ convert_russian_number basic_db (u "1000000") = u "1000000"
  /\ contains (u "тысяч") (convert_russian_number basic_db (u "1000000")) = false.
Proof. repeat split; vm_compute; congruence. Qed.

(** ** White space at the two ends: [str.strip] *)

Lemma lstrip_split (s : str) :
  exists w, s = w ++ lstrip s /\ forallb isspace w = true.
Proof.
  induction s as [|c r [w [Hw Hs]]]; [exists []; split; reflexivity|].
  cbn [lstrip]. destruct (isspace c) eqn:E.
  - exists (c :: w). cbn. rewrite E, Hs, <- Hw. split; reflexivity.
  - exists []. split; reflexivity.
Qed.

Lemma lstrip_head (s : str) :
  match lstrip s with c :: _ => isspace c = false | [] => True end.
Proof.
  induction s as [|c r IH]; [exact I|].
  cbn [lstrip]. destruct (isspace c) eqn:E; [exact IH|exact E].
Qed.

Lemma lstrip_fixed (s : str) :
  match s with c :: _ => isspace c = false | [] => True end -> lstrip s = s.
Proof. destruct s as [|c r]; [reflexivity|]. cbn. intros ->. reflexivity. Qed.

Lemma rstrip_split (s : str) :
  exists w, s = rstrip s ++ w /\ forallb isspace w = true.
Proof.
  unfold rstrip. destruct (lstrip_split (rev s)) as [w [Hw Hs]].
  exists (rev w). split.
  - rewrite <- rev_app_distr, <- Hw, rev_involutive. reflexivity.
  - rewrite forallb_forall in Hs |- *. intros x Hx. apply Hs, in_rev, Hx.
Qed.

Lemma rstrip_last (s : str) :
  match last (rstrip s) with Some c => isspace c = false | None => True end.
Proof.
  unfold rstrip. pose proof (lstrip_head (rev s)) as H.
  destruct (lstrip (rev s)) as [|c r]; [exact I|].
  cbn [rev]. rewrite last_snoc. exact H.
Qed.

Lemma rstrip_fixed (s : str) :
  match last s with Some c => isspace c = false | None => True end -> rstrip s = s.
Proof.
  intros H. unfold rstrip. rewrite lstrip_fixed; [apply rev_involutive|].
  destruct s as [|y t _] using rev_ind; [exact I|].
  rewrite rev_app_distr. cbn. rewrite last_snoc in H. exact H.
Qed.

(** A text is trimmed when neither end is white space. *)
Definition trimmed (s : str) : Prop :=
  match s with c :: _ => isspace c = false | [] => True end
  /\ match last s with Some c => isspace c = false | None => True end.

Lemma strip_trimmed (s : str) : trimmed (strip s).
Proof.
  unfold strip. split; [|apply rstrip_last].
  destruct (rstrip_split (lstrip s)) as [w [Hw _]].
  pose proof (lstrip_head s) as Hh. rewrite Hw in Hh.
  destruct (rstrip (lstrip s)); [exact I|exact Hh].
Qed.

Lemma strip_fixed (s : str) : trimmed s -> strip s = s.
Proof.
  intros [Hh Hl]. unfold strip. rewrite (lstrip_fixed s Hh). apply rstrip_fixed, Hl.
Qed.

(** ** The scan: what it keeps *)

Section ScanPieces.
Context {A : Type} (ch : A -> char).

(** The text a piece covers. *)
Definition piece_text (p : A + list A) : list A :=
  match p with inl c => [c] | inr mt => mt end.

(** The pieces of a scan, put end to end, are the text scanned. *)
Lemma re_scan_concat (m : matcher) (s : list A) :
  forall before k,
    concat (map piece_text (re_scan ch m before k s)) = drop k s.
Proof.
  induction s as [|c r IH]; intros before k; [destruct k; reflexivity|].
  cbn [re_scan]. destruct k as [|k]; [|apply IH].
  destruct (m before _) as [[|n]|]; cbn [map concat piece_text drop app];
    rewrite IH; cbn [drop take app]; try reflexivity.
  rewrite take_drop. reflexivity.
Qed.

(** Every match of a scan is a match the matcher announced. *)
Definition announced (m : matcher) (P : list A -> Prop) : Prop :=
  forall before s n, m before (map ch s) = Some (S n) -> P (take (S n) s).

Lemma re_scan_matches (m : matcher) (P : list A -> Prop) (s : list A) :
  announced m P ->
  forall before k,
    Forall (fun p => match p with inr mt => P mt | inl _ => True end)
           (re_scan ch m before k s).
Proof.
  intros HP. induction s as [|c r IH]; intros before k; [constructor|].
  cbn [re_scan]. destruct k as [|k]; [|apply IH].
  destruct (m before _) as [[|n]|] eqn:Em; constructor; try exact I; try apply IH.
  apply (HP _ _ _ Em).
Qed.

(** A replacement as long as the match keeps the length of the text. *)
Lemma re_sub_length (m : matcher) (repl : list A -> list A) (s : list A) :
  announced m (fun mt => length (repl mt) = length mt) ->
  length (re_sub ch m repl s) = length s.
Proof.
  intros HP. unfold re_sub.
  rewrite <- (re_scan_concat m s [] 0) at 2. cbn [drop].
  pose proof (re_scan_matches m _ s HP [] 0%nat) as HF.
  induction HF as [|p l Hp _ IH]; [reflexivity|].
  cbn [map concat]. rewrite !length_app, IH. f_equal.
  destruct p; [reflexivity|exact Hp].
Qed.

End ScanPieces.

(** ** Repeat collapse *)

(** What [_remove_long_symbol_sequences] computes, read from the right: a
    character is kept unless three copies of it already follow; a line
    feed, which the dot of the pattern does not match, is always kept. *)
Fixpoint squeeze (s : str) : str :=
  match s with
  | [] => []
  | c :: r =>
    let t := squeeze r in
    if negb (c =? 0x0A) && starts_with [c; c; c] t then t else c :: t
  end.

Lemma starts_with_run (c : char) (t : str) :
  starts_with [c; c; c] t = (3 <=? run_length (N.eqb c) t)%nat.
Proof.
  destruct t as [|x1 [|x2 [|x3 t]]]; cbn;
    repeat match goal with
           | |- context [c =? ?x] => destruct (c =? x); cbn
           end; reflexivity.
Qed.

Lemma squeeze_head (s : str) : head (squeeze s) = head s.
Proof.
  induction s as [|c r IH]; [reflexivity|].
  cbn [squeeze]. destruct (negb _ && _) eqn:E; [|reflexivity].
  apply andb_prop in E as [_ E].
  destruct (squeeze r) as [|x t]; [discriminate|].
  cbn in E. apply andb_prop in E as [E _]. apply N.eqb_eq in E. subst. reflexivity.
Qed.

Lemma run_length_head (c : char) (s t : str) :
  head s = head t -> run_length (N.eqb c) s = 0%nat -> run_length (N.eqb c) t = 0%nat.
Proof.
  destruct s as [|x s], t as [|y t]; cbn; try congruence.
  intros [= ->]. destruct (c =? y); [discriminate|reflexivity].
Qed.

Lemma run_length_squeeze (c : char) (s : str) :
  c <> 0x0A ->
  run_length (N.eqb c) (squeeze s) = Nat.min (run_length (N.eqb c) s) 3.
Proof.
  intros Hc. induction s as [|x r IH]; [reflexivity|].
  cbn [run_length]. destruct (N.eqb_spec c x) as [<-|Hne].
  - cbn [squeeze]. rewrite starts_with_run, IH.
    destruct (N.eqb_spec c 0x0A); [congruence|]. cbn [negb andb].
    destruct (Nat.leb_spec 3 (Nat.min (run_length (N.eqb c) r) 3)).
    + rewrite IH. lia.
    + cbn [run_length]. rewrite N.eqb_refl, IH. lia.
  - apply (run_length_head c (x :: r)); [symmetry; apply squeeze_head|].
    cbn. destruct (N.eqb_spec c x); [congruence|reflexivity].
Qed.

Lemma take_run (c : char) (r : str) (k : nat) :
  (k <= run_length (N.eqb c) r)%nat -> take k r = repeat c k.
Proof.
  revert k. induction r as [|x r IH]; intros k Hk.
  - cbn in Hk. assert (k = 0%nat) as -> by lia. reflexivity.
  - destruct k as [|k]; [reflexivity|]. cbn in Hk |- *.
    destruct (N.eqb_spec c x) as [<-|]; [|lia].
    rewrite IH by lia. reflexivity.
Qed.

Lemma run_length_drop (c : char) (r : str) :
  run_length (N.eqb c) (drop (run_length (N.eqb c) r) r) = 0%nat.
Proof.
  induction r as [|x r IH]; [reflexivity|].
  cbn [run_length]. destruct (N.eqb_spec c x) as [<-|Hne]; [exact IH|].
  cbn. destruct (N.eqb_spec c x); [congruence|reflexivity].
Qed.

(** A run of three or more becomes three. *)
Lemma squeeze_run (c : char) (r : str) :
  c <> 0x0A -> (3 <= run_length (N.eqb c) r)%nat ->
  squeeze r = [c; c; c] ++ squeeze (drop (run_length (N.eqb c) r) r).
Proof.
  intros Hc. induction r as [|x r IH]; cbn [run_length]; [lia|].
  destruct (N.eqb_spec c x) as [<-|]; [|lia]. intros Hn.
  cbn [drop squeeze]. rewrite starts_with_run, (run_length_squeeze c r Hc).
  destruct (N.eqb_spec c 0x0A); [congruence|]. cbn [negb andb].
  destruct (Nat.leb_spec 3 (Nat.min (run_length (N.eqb c) r) 3)) as [H3|H3].
  - apply IH. lia.
  - assert (run_length (N.eqb c) r = 2%nat) as E by lia. rewrite E.
    destruct r as [|x1 [|x2 r]]; cbn in E; try discriminate;
      destruct (N.eqb_spec c x1) as [<-|]; try discriminate.
    destruct (N.eqb_spec c x2) as [<-|]; try discriminate.
    assert (run_length (N.eqb c) r = 0%nat) as E0 by lia.
    pose proof (run_length_squeeze c r Hc) as Hs. rewrite E0 in Hs. cbn in Hs.
    cbn [drop squeeze]. rewrite !starts_with_run.
    destruct (N.eqb_spec c 0x0A); [congruence|]. cbn [negb andb].
    rewrite Hs. cbn [Nat.leb]. cbn [run_length]. rewrite !N.eqb_refl, Hs.
    cbn [Nat.leb]. reflexivity.
Qed.

Lemma squeeze_scan (n : nat) :
  forall (s before : str), (length s <= n)%nat ->
    concat (map (piece_out (take 3)) (re_scan id repeat_matcher before 0 s)) = squeeze s.
Proof.
  induction n as [|n IH]; intros s before Hl.
  { destruct s; [reflexivity|cbn in Hl; lia]. }
  destruct s as [|c r]; [reflexivity|]. cbn in Hl.
  cbn [re_scan]. rewrite map_id. unfold repeat_matcher at 1.
  cbn [squeeze]. rewrite starts_with_run.
  destruct (N.eqb_spec c 0x0A) as [E|Hc]; cbn [negb andb].
  { cbn [map concat piece_out app]. rewrite IH by lia. reflexivity. }
  set (k := run_length (N.eqb c) r).
  destruct (Nat.leb_spec 3 k) as [H3|H3].
  - rewrite (run_length_squeeze c r Hc). fold k.
    replace (3 <=? Nat.min k 3)%nat with true by (symmetry; apply Nat.leb_le; lia).
    cbn [map concat piece_out].
    rewrite (squeeze_run c r Hc H3). fold k. f_equal.
    + cbn [take]. rewrite (take_run c r k) by (unfold k; lia).
      destruct k as [|[|[|k]]]; try lia. reflexivity.
    + rewrite <- (take_drop k r) at 1.
      assert (length (take k r) = k) as Hk
        by (rewrite length_take; pose proof (run_length_le (N.eqb c) r); unfold k; lia).
      rewrite <- Hk at 1. rewrite re_scan_skip. apply IH.
      rewrite length_drop. lia.
  - rewrite (run_length_squeeze c r Hc). fold k.
    replace (3 <=? Nat.min k 3)%nat with false by (symmetry; apply Nat.leb_gt; lia).
    cbn [map concat piece_out app]. rewrite IH by lia. reflexivity.
Qed.

Lemma remove_long_squeeze (s : str) : _remove_long_symbol_sequences s = squeeze s.
Proof. apply (squeeze_scan (length s)). lia. Qed.

Lemma squeeze_idempotent (s : str) : squeeze (squeeze s) = squeeze s.
Proof.
  induction s as [|c r IH]; [reflexivity|].
  cbn [squeeze]. destruct (negb _ && _) eqn:E; [exact IH|].
  cbn [squeeze]. rewrite IH, E. reflexivity.
Qed.

Lemma squeeze_last (s : str) : last (squeeze s) = last s.
Proof.
  induction s as [|c r IH]; [reflexivity|].
  cbn [squeeze]. destruct (negb _ && _) eqn:E.
  - apply andb_prop in E as [_ E]. rewrite last_cons, <- IH.
    destruct (squeeze r) as [|x t] using rev_ind; [discriminate|].
    rewrite last_snoc. reflexivity.
  - rewrite !last_cons, IH. reflexivity.
Qed.

Lemma squeeze_keeps (s : str) (x : char) : x ∈ s -> x ∈ squeeze s.
Proof.
  induction s as [|c r IH]; intros H; [exact H|].
  cbn [squeeze]. apply elem_of_cons in H as [->|H].
  - destruct (negb _ && _) eqn:E; [|left].
    apply andb_prop in E as [_ E].
    destruct (squeeze r) as [|y t]; [discriminate|].
    cbn in E. apply andb_prop in E as [E _]. apply N.eqb_eq in E. subst. left.
  - destruct (negb _ && _); [apply IH, H|right; apply IH, H].
Qed.

Lemma squeeze_trimmed (s : str) : trimmed s -> trimmed (squeeze s).
Proof.
  unfold trimmed. rewrite squeeze_last.
  pose proof (squeeze_head s) as Hh.
  destruct (squeeze s) as [|x t], s as [|c r]; cbn in Hh |- *; try congruence; tauto.
Qed.

(** ** The input sanitizer

    The first steps of [preprocess_text_for_tts], up to the test that
    follows the repeat collapse. *)
Definition sanitize (db : unicode_db) (text : str) : str :=
  let processed_text := strip text in
  match processed_text with
  | [] => []
  | _ =>
    if _is_only_symbols db processed_text then []
    else
      let processed_text := _remove_long_symbol_sequences processed_text in
      if is_blank processed_text then [] else processed_text
  end.

Lemma only_symbols_squeeze (db : unicode_db) (s : str) :
  _is_only_symbols db s = false -> _is_only_symbols db (squeeze s) = false.
Proof.
  unfold _is_only_symbols. intros H.
  destruct (remove_char 0x20 s) as [|c0 t0] eqn:Es; [discriminate|].
  rewrite <- Es in H. apply negb_false_iff, existsb_exists in H as (x & Hx & Ha).
  apply list_elem_of_In in Hx. unfold remove_char in Hx.
  apply list_elem_of_filter in Hx as [Hne Hin].
  assert (x ∈ remove_char 0x20 (squeeze s)) as Hx'
    by (apply list_elem_of_filter; split; [exact Hne|apply squeeze_keeps, Hin]).
  destruct (remove_char 0x20 (squeeze s)) as [|c1 t1] eqn:Eq; [set_solver|].
  rewrite <- Eq in Hx' |- *. apply negb_false_iff, existsb_exists.
  exists x. split; [apply list_elem_of_In, Hx'|exact Ha].
Qed.

Lemma sanitize_fixed (db : unicode_db) (text : str) :
  sanitize db text = [] \/
  (trimmed (sanitize db text)
   /\ _is_only_symbols db (sanitize db text) = false
   /\ squeeze (sanitize db text) = sanitize db text
   /\ is_blank (sanitize db text) = false).
Proof.
  unfold sanitize.
  pose proof (strip_trimmed text) as Ht.
  destruct (strip text) as [|c0 t0] eqn:Es; [left; reflexivity|].
  destruct (_is_only_symbols db (c0 :: t0)) eqn:Eo; [left; reflexivity|].
  rewrite remove_long_squeeze.
  destruct (is_blank (squeeze (c0 :: t0))) eqn:Eb; [left; reflexivity|].
  right. repeat split.
  - apply (squeeze_trimmed _ Ht).
  - apply (squeeze_trimmed _ Ht).
  - apply only_symbols_squeeze, Eo.
  - apply squeeze_idempotent.
  - exact Eb.
Qed.

(** C6. The input sanitizer -- trim, reject a text without alphanumeric
    character, collapse the repeats, reject a blank result -- gives the
    same result when it is applied to its own result. *)
Theorem sanitize_idempotent (db : unicode_db) (x : str) :
  sanitize db (sanitize db x) = sanitize db x.
Proof.
  destruct (sanitize_fixed db x) as [->|(Ht & Ho & Hs & Hb)]; [reflexivity|].
  set (y := sanitize db x) in *.
  unfold sanitize at 1. rewrite (strip_fixed y Ht).
  destruct y as [|c0 t0] eqn:Ey; [reflexivity|].
  rewrite Ho, remove_long_squeeze, Hs, Hb. reflexivity.
Qed.

(** [preprocess_text_for_tts] goes on exactly when the sanitizer leaves
    something. *)
Lemma preprocess_sanitize_empty (db : unicode_db) (self : MultilingualTTS) (text : str) :
  sanitize db text = [] -> preprocess_text_for_tts db self text = [].
Proof.
  unfold sanitize, preprocess_text_for_tts.
  destruct (strip text) as [|c0 t0]; [reflexivity|].
  destruct (_is_only_symbols db (c0 :: t0)); [reflexivity|].
  destruct (is_blank _) eqn:E; [reflexivity|].
  intros H. rewrite H in E. discriminate.
Qed.

(** The rest of [preprocess_text_for_tts], from language detection on. *)
Definition after_sanitize (db : unicode_db) (self : MultilingualTTS)
    (processed_text : str) : str :=
  let lang := detect_language db processed_text in
  let processed_text := join sp (split_ws processed_text) in
  let processed_text := normalize_text db self processed_text lang in
  let processed_text :=
    match lang with
    | russian =>
      if enable_accent self then add_accents self processed_text
      else processed_text
    | english => processed_text
    end in
  match processed_text with
  | [] => processed_text
  | _ =>
    let processed_text := rstrip processed_text in
    if negb (ends_with_any [u "."; u "!"; u "?"] processed_text)
    then processed_text ++ u "."
    else processed_text
  end.

Lemma preprocess_factor (db : unicode_db) (self : MultilingualTTS) (text : str) :
  preprocess_text_for_tts db self text
  = match sanitize db text with
    | [] => []
    | t => after_sanitize db self t
    end.
Proof.
  unfold sanitize, preprocess_text_for_tts.
  destruct (strip text) as [|c0 t0]; [reflexivity|].
  destruct (_is_only_symbols db (c0 :: t0)); [reflexivity|].
  destruct (is_blank _) eqn:E; [reflexivity|].
  destruct (_remove_long_symbol_sequences (c0 :: t0)) as [|c1 t1]; [discriminate|].
  reflexivity.
Qed.

(** ** Yofication *)

(** Every key of the dictionary is its value with yo folded to ye. *)
Definition folded (d : gmap str str) : Prop :=
  forall k v, d !! k = Some v -> k = yo_fold v.

Lemma add_entry_folded (value : str) (d : gmap str str) :
  folded d -> folded (add_entry value d).
Proof.
  intros Hd k v. unfold add_entry. rewrite lookup_insert.
  case_decide as E; [|apply Hd].
  intros [= <-]. symmetry. exact E.
Qed.

Lemma add_entries_folded (bline : str) (l : list str) :
  forall d, folded d ->
    folded (fold_left (fun d ss => add_entry (bline ++ ss) d) l d).
Proof.
  induction l as [|ss l IH]; intros d Hd; [exact Hd|].
  cbn [fold_left]. apply IH, add_entry_folded, Hd.
Qed.

Lemma load_line_folded (d d' : gmap str str) (line : str) :
  folded d -> load_line d line = Some d' -> folded d'.
Proof.
  intros Hd. unfold load_line.
  destruct (mem 0x2A line); [intros [= <-]; exact Hd|].
  destruct (if mem 0x28 _ then _ else _) as [[bline sline]|]; [|discriminate].
  cbn. destruct (mem 0x7C sline); intros [= <-].
  - apply add_entries_folded, Hd.
  - apply add_entry_folded, Hd.
Qed.

Lemma load_lines_folded (lines : list str) :
  forall d d', folded d -> load_lines d lines = Some d' -> folded d'.
Proof.
  induction lines as [|line rest IH]; intros d d' Hd; cbn [load_lines].
  - intros [= <-]. exact Hd.
  - destruct (load_line d line) as [d1|] eqn:E; [|discriminate].
    cbn. apply IH. apply (load_line_folded d d1 line Hd E).
Qed.

Lemma load_dictionary_folded (lines : list str) (d : gmap str str) :
  _load_dictionary lines = Some d -> folded d.
Proof.
  apply load_lines_folded. intros k v. rewrite lookup_empty. discriminate.
Qed.

Section YoficateProps.
Variable db : unicode_db.

(** A character is kept, or it was alphabetic. *)
Definition kept (c c' : char) : Prop := c = c' \/ isalpha db c = true.

Lemma kept_refl (s : str) : Forall2 kept s s.
Proof. induction s; constructor; [left; reflexivity|assumption]. Qed.

Lemma kept_fold (v : str) : Forall2 kept (yo_fold v) v.
Proof.
  induction v as [|c v IH]; [constructor|].
  cbn [yo_fold map]. constructor; [|exact IH].
  destruct (N.eqb_spec c 0x451); [right; reflexivity|left; reflexivity].
Qed.

Lemma kept_alpha (s s' : str) :
  forallb (isalpha db) s = true -> length s = length s' -> Forall2 kept s s'.
Proof.
  revert s'. induction s as [|c s IH]; intros [|c' s'] Ha Hl; try discriminate;
    constructor.
  - right. cbn in Ha. apply andb_prop in Ha as [Ha _]. exact Ha.
  - cbn in Ha. apply andb_prop in Ha as [_ Ha]. apply IH; [exact Ha|].
    cbn in Hl. congruence.
Qed.

Lemma lower_from_length (s : str) :
  forall before, 0x307 ∉ lower_from db before s ->
    length (lower_from db before s) = length s.
Proof.
  induction s as [|c r IH]; intros before H; [reflexivity|].
  cbn [lower_from] in H |- *.
  destruct (c =? 0x130).
  - exfalso. apply H. set_solver.
  - rewrite length_app. rewrite IH by set_solver.
    destruct (c =? 0x3A3); reflexivity.
Qed.

Lemma lower_length (s l : str) :
  lower db s = l -> 0x307 ∉ l -> length s = length l.
Proof.
  intros <- H. symmetry. apply lower_from_length, H.
Qed.

Lemma starts_with_length (p s : str) :
  starts_with p s = true -> (length p <= length s)%nat.
Proof.
  revert s. induction p as [|a p IH]; intros [|b s] H; cbn in H |- *;
    try lia; try discriminate.
  apply andb_prop in H as [_ H]. apply IH in H. lia.
Qed.

Lemma str_replace_length (old new s : str) :
  old <> [] -> length new = length old ->
  length (str_replace old new s) = length s.
Proof.
  intros Hne Hl. apply re_sub_length.
  intros before t n. rewrite map_id. unfold lit_matcher.
  destruct (starts_with old t) eqn:E; [|discriminate].
  intros [= Hn]. apply starts_with_length in E.
  rewrite length_take, Hl, <- Hn. lia.
Qed.

Lemma last_ye_length (s : str) :
  length (re_sub id last_ye_matcher (fun mt => 0x451 :: tail mt) s) = length s.
Proof.
  apply re_sub_length. intros before t n H.
  destruct t; [discriminate|reflexivity].
Qed.

(** The rules for words outside the dictionary keep the length of the
    word. *)
Lemma additional_rules_length (word : str) :
  length (_apply_additional_rules db word) = length word.
Proof.
  unfold _apply_additional_rules.
  destruct (str_isalpha db word); cbn [negb]; [|reflexivity].
  destruct (str_eqb _ (u "телка"));
    [apply str_replace_length; [discriminate|reflexivity]|].
  destruct (str_eqb _ (u "осел"));
    [apply str_replace_length; [discriminate|reflexivity]|].
  destruct (str_eqb _ (u "еще")) eqn:E3.
  { apply bool_decide_eq_true in E3.
    symmetry. apply (lower_length _ _ E3). apply (bool_decide_unpack _). vm_compute. exact I. }
  destruct (str_eqb _ (u "ее")) eqn:E4.
  { apply bool_decide_eq_true in E4.
    symmetry. apply (lower_length _ _ E4). apply (bool_decide_unpack _). vm_compute. exact I. }
  destruct (str_eqb _ (u "произнес"));
    [apply str_replace_length; [discriminate|reflexivity]|].
  destruct (_ && _ && _);
    [apply str_replace_length; [discriminate|reflexivity]|].
  destruct (_ && _ && _); [apply last_ye_length|reflexivity].
Qed.

Lemma additional_rules_kept (word : str) :
  Forall2 kept word (_apply_additional_rules db word).
Proof.
  destruct (str_isalpha db word) eqn:Ha.
  - apply kept_alpha; [|symmetry; apply additional_rules_length].
    destruct word; [discriminate|exact Ha].
  - unfold _apply_additional_rules. rewrite Ha. apply kept_refl.
Qed.

Lemma yoficate_token_kept (d : gmap str str) (token : str) :
  folded d -> Forall2 kept token (yoficate_token db d token).
Proof.
  intros Hd. unfold yoficate_token.
  destruct (d !! token) as [v|] eqn:E.
  - rewrite (Hd _ _ E). apply kept_fold.
  - apply additional_rules_kept.
Qed.
End YoficateProps.

Section Tokens.
Variable db : unicode_db.

Lemma splitter_matches (before : str) (c : char) (r : str) :
  exists n, splitter_matcher db before (c :: r) = Some (S n).
Proof.
  unfold splitter_matcher. destruct (isspace c) eqn:Es.
  - cbn [run_length]. rewrite Es. eauto.
  - destruct (is_word db c) eqn:Ew; cbn [run_length]; rewrite Ew; cbn [negb]; eauto.
Qed.

(** The splitter leaves no character outside a token. *)
Lemma splitter_scan (s : str) :
  forall before k,
    omap (fun p : char + str => match p with inr mt => Some mt | inl _ => None end)
         (re_scan id (splitter_matcher db) before k s)
    = map piece_text (re_scan id (splitter_matcher db) before k s).
Proof.
  induction s as [|c r IH]; intros before k; [reflexivity|].
  cbn [re_scan]. destruct k as [|k]; [|apply IH].
  rewrite map_id. destruct (splitter_matches before c r) as [n ->].
  cbn [omap list_omap map piece_text]. cbn. f_equal. apply IH.
Qed.

Lemma tokens_concat (text : str) :
  concat (re_findall id (splitter_matcher db) text) = text.
Proof.
  unfold re_findall. rewrite splitter_scan. apply (re_scan_concat id _ text [] 0).
Qed.

Lemma yoficate_kept (d : gmap str str) (text : str) :
  folded d -> Forall2 (kept db) text (yoficate db d text).
Proof.
  intros Hd. unfold yoficate.
  case_bool_decide; [apply kept_refl|].
  rewrite <- (tokens_concat text) at 1.
  induction (re_findall id (splitter_matcher db) text) as [|t l IH]; [constructor|].
  cbn [map concat]. apply Forall2_app; [apply yoficate_token_kept, Hd|exact IH].
Qed.
End Tokens.


Definition sample_lines : list str := [u "# *"; u "ёлк(а|и)"; u "всё"].

Definition sample_dictionary : gmap str str :=
  Eval vm_compute in default ∅ (_load_dictionary sample_lines).

Definition sample_text : str := u "елка,  медведь и осел: все еще ее!".


Example yoficate_sample :
  yoficate basic_db sample_dictionary sample_text
  = u "ёлка,  медведь и осёл: всё ещё её!".
Proof. vm_compute. reflexivity. Qed.

(** ** White space inside a text *)

(** [wsok prev s]: no white space follows white space in [s], none stands
    first when [prev] says that white space came just before, and [s]
    does not end in white space -- nor is it empty after white space. *)
Fixpoint wsok (prev : bool) (s : str) : bool :=
  match s with
  | [] => negb prev
  | c :: r => if isspace c then negb prev && wsok true r else wsok false r
  end.

(** The same without the condition on the end. *)
Fixpoint wsok_open (prev : bool) (s : str) : bool :=
  match s with
  | [] => true
  | c :: r => if isspace c then negb prev && wsok_open true r else wsok_open false r
  end.

Definition end_ws (prev : bool) (s : str) : bool :=
  match last s with Some c => isspace c | None => prev end.

(** Not empty, trimmed, and without two white-space characters in a row. *)
Definition ws_normal (s : str) : bool := wsok true s.

Lemma end_ws_cons (prev : bool) (c : char) (r : str) :
  end_ws prev (c :: r) = end_ws (isspace c) r.
Proof. unfold end_ws. rewrite last_cons. destruct (last r); reflexivity. Qed.

Lemma wsok_app (a b : str) :
  forall prev, wsok prev (a ++ b) = wsok_open prev a && wsok (end_ws prev a) b.
Proof.
  induction a as [|c r IH]; intros prev; [reflexivity|].
  cbn [app wsok wsok_open]. rewrite end_ws_cons, !IH.
  destruct (isspace c); [|reflexivity].
  rewrite andb_assoc. reflexivity.
Qed.

Lemma wsok_open_app (a b : str) :
  forall prev, wsok_open prev (a ++ b) = wsok_open prev a && wsok_open (end_ws prev a) b.
Proof.
  induction a as [|c r IH]; intros prev; [reflexivity|].
  cbn [app wsok_open]. rewrite end_ws_cons, !IH.
  destruct (isspace c); [|reflexivity].
  rewrite andb_assoc. reflexivity.
Qed.

Lemma wsok_alt (prev : bool) (s : str) :
  wsok prev s = wsok_open prev s && negb (end_ws prev s).
Proof. rewrite <- (app_nil_r s) at 1. apply wsok_app. Qed.

Lemma wsok_open_weaken (s : str) (prev : bool) :
  wsok_open true s = true -> wsok_open prev s = true.
Proof.
  destruct s as [|c r]; [trivial|]. cbn. destruct (isspace c); [discriminate|trivial].
Qed.

Lemma wsok_no_double (s : str) :
  forall prev, wsok prev s = true ->
  forall (i : nat) (c c' : char),
    s !! i = Some c -> s !! S i = Some c' ->
    isspace c = true -> isspace c' = true -> False.
Proof.
  induction s as [|x r IH]; intros prev H i c c' Hi Hi' Hc Hc'; [discriminate|].
  cbn [wsok] in H. destruct i as [|i].
  - injection Hi as ->. destruct r as [|y r]; [discriminate|]. injection Hi' as ->.
    rewrite Hc in H. apply andb_prop in H as [_ H]. cbn in H. rewrite Hc' in H. discriminate.
  - destruct (isspace x); [apply andb_prop in H as [_ H]|];
      apply (IH _ H i c c' Hi Hi' Hc Hc').
Qed.

(** What [ws_normal] says, in plain terms. *)
Lemma ws_normal_spec (s : str) :
  ws_normal s = true ->
  s <> [] /\ trimmed s
  /\ forall (i : nat) (c c' : char),
       s !! i = Some c -> s !! S i = Some c' ->
       isspace c = true -> isspace c' = true -> False.
Proof.
  unfold ws_normal. intros H. split; [destruct s; discriminate|].
  split; [|apply (wsok_no_double s true H)].
  split.
  - destruct s as [|c r]; [exact I|]. cbn in H. destruct (isspace c); [discriminate|reflexivity].
  - rewrite wsok_alt in H. apply andb_prop in H as [_ H]. unfold end_ws in H.
    destruct (last s); [|exact I]. apply negb_true_iff, H.
Qed.

(** Replacing [mt] by [v] in front of any text keeps the white space in
    order. *)
Definition ws_safe (mt v : str) : Prop :=
  forall prev rest, wsok prev (mt ++ rest) = true -> wsok prev (v ++ rest) = true.

Lemma ws_safe_refl (mt : str) : ws_safe mt mt.
Proof. intros prev rest H. exact H. Qed.

Lemma wsok_app_mono (x t o : str) :
  (forall prev, wsok prev t = true -> wsok prev o = true) ->
  forall prev, wsok prev (x ++ t) = true -> wsok prev (x ++ o) = true.
Proof.
  intros H prev. rewrite !wsok_app. intros [H1 H2]%andb_prop.
  rewrite H1, (H _ H2). reflexivity.
Qed.

Definition nonspace_ends (s : str) : Prop :=
  match s with c :: _ => isspace c = false | [] => False end
  /\ match last s with Some c => isspace c = false | None => False end.

(** A match whose two ends are not white space may be replaced by any
    normal text. *)
Lemma ws_safe_ends (mt v : str) :
  nonspace_ends mt -> ws_normal v = true -> ws_safe mt v.
Proof.
  intros [Hh Hl] Hv prev rest. rewrite !wsok_app.
  intros [_ H]%andb_prop.
  unfold ws_normal in Hv. rewrite wsok_alt in Hv. apply andb_prop in Hv as [Hv1 Hv2].
  rewrite (wsok_open_weaken v prev Hv1). cbn [andb].
  assert (end_ws prev mt = false) as E1
    by (unfold end_ws; destruct (last mt); [exact Hl|contradiction]).
  assert (end_ws prev v = false) as E2.
  { apply negb_true_iff in Hv2. unfold end_ws in Hv2 |- *.
    destruct (last v); [exact Hv2|discriminate]. }
  rewrite E2, <- E1. exact H.
Qed.

Lemma pieces_wsok (repl : str -> str) (pieces : list (char + str)) :
  Forall (fun p => match p with inr mt => ws_safe mt (repl mt) | inl _ => True end) pieces ->
  forall prev,
    wsok prev (concat (map piece_text pieces)) = true ->
    wsok prev (concat (map (piece_out repl) pieces)) = true.
Proof.
  induction 1 as [|p l Hp _ IH]; intros prev H; [exact H|].
  cbn [map concat] in H |- *.
  apply (wsok_app_mono _ _ _ IH).
  destruct p as [c|mt]; [exact H|]. apply Hp, H.
Qed.

(** A substitution whose every match is safe keeps the white space in
    order. *)
Lemma re_sub_wsok (m : matcher) (repl : str -> str) (s : str) :
  announced id m (fun mt => ws_safe mt (repl mt)) ->
  forall prev, wsok prev s = true -> wsok prev (re_sub id m repl s) = true.
Proof.
  intros Ha prev H. unfold re_sub. apply pieces_wsok.
  - apply re_scan_matches, Ha.
  - rewrite (re_scan_concat id m s [] 0). exact H.
Qed.

Lemma wsok_word (w : str) (prev : bool) :
  w <> [] -> forallb (fun c => negb (isspace c)) w = true -> wsok prev w = true.
Proof.
  revert prev. induction w as [|c r IH]; intros prev Hne Hw; [congruence|].
  cbn in Hw |- *. apply andb_prop in Hw as [Hc Hr].
  apply negb_true_iff in Hc. rewrite Hc.
  destruct r as [|c' r']; [reflexivity|]. apply IH; [discriminate|exact Hr].
Qed.

Definition is_word_list (l : list str) : Prop :=
  Forall (fun w => w <> [] /\ forallb (fun c => negb (isspace c)) w = true) l.

Lemma split_ws_aux_words (s : str) :
  forall cur, forallb (fun c => negb (isspace c)) cur = true ->
    is_word_list (split_ws_aux cur s).
Proof.
  induction s as [|c r IH]; intros cur Hcur; cbn [split_ws_aux].
  - destruct cur as [|x cur]; [constructor|].
    constructor; [|constructor]. split.
    + intros E. apply (f_equal length) in E. rewrite length_rev in E. discriminate.
    + rewrite forallb_forall in Hcur |- *. intros y Hy. apply Hcur, in_rev, Hy.
  - destruct (isspace c) eqn:Ec.
    + destruct cur as [|x cur]; [apply IH; reflexivity|].
      constructor; [|apply IH; reflexivity]. split.
      * intros E. apply (f_equal length) in E. rewrite length_rev in E. discriminate.
      * rewrite forallb_forall in Hcur |- *. intros y Hy. apply Hcur, in_rev, Hy.
    + apply IH. cbn. rewrite Ec. exact Hcur.
Qed.

Lemma join_words_wsok (l : list str) :
  is_word_list l -> l <> [] -> forall prev, wsok prev (join sp l) = true.
Proof.
  induction 1 as [|w l [Hne Hw] Hl IH]; intros Hnil prev; [congruence|].
  cbn [join]. destruct l as [|w' l'].
  - apply wsok_word; assumption.
  - pose proof (wsok_word w prev Hne Hw) as H. rewrite wsok_alt in H.
    apply andb_prop in H as [H1 H2]. apply negb_true_iff in H2.
    rewrite wsok_app, H1, H2. cbn [andb sp app wsok].
    change (isspace 32) with true. cbn [negb andb].
    apply IH. discriminate.
Qed.

Lemma join_words_normal (l : list str) :
  is_word_list l -> l <> [] -> ws_normal (join sp l) = true.
Proof. intros Hl Hne. apply join_words_wsok; assumption. Qed.

(** [' '.join(text.split())] is empty or normal. *)
Lemma join_split_normal (s : str) :
  join sp (split_ws s) = [] \/ ws_normal (join sp (split_ws s)) = true.
Proof.
  destruct (split_ws s) as [|w l] eqn:E; [left; reflexivity|].
  right. rewrite <- E. apply join_words_normal.
  - apply split_ws_aux_words. reflexivity.
  - rewrite E. discriminate.
Qed.

(** ** White space and the tables *)

Definition space_points : list char :=
  [0x09; 0x0A; 0x0B; 0x0C; 0x0D; 0x1C; 0x1D; 0x1E; 0x1F; 0x20; 0x85; 0xA0; 0x1680;
   0x2000; 0x2001; 0x2002; 0x2003; 0x2004; 0x2005; 0x2006; 0x2007; 0x2008;
   0x2009; 0x200A; 0x2028; 0x2029; 0x202F; 0x205F; 0x3000].

Lemma isspace_points (c : char) : isspace c = true -> In c space_points.
Proof.
  unfold isspace, in_range. intros H.
  repeat match type of H with
         | _ || _ = true => apply orb_prop in H as [H|H]
         end;
    repeat match type of H with
           | _ && _ = true => let H' := fresh in apply andb_prop in H as [H H']
           end;
    repeat match goal with
           | H : (_ <=? _) = true |- _ => apply N.leb_le in H
           | H : (_ =? _) = true |- _ => apply N.eqb_eq in H
           end.
  - assert (c = 9 \/ c = 10 \/ c = 11 \/ c = 12 \/ c = 13) by lia. cbn. intuition.
  - assert (c = 28 \/ c = 29 \/ c = 30 \/ c = 31 \/ c = 32) by lia. cbn. intuition.
  - subst. cbn. intuition.
  - subst. cbn. intuition.
  - subst. cbn. intuition.
  - assert (c = 0x2000 \/ c = 0x2001 \/ c = 0x2002 \/ c = 0x2003 \/ c = 0x2004
            \/ c = 0x2005 \/ c = 0x2006 \/ c = 0x2007 \/ c = 0x2008 \/ c = 0x2009
            \/ c = 0x200A) by lia.
    cbn. intuition.
  - subst. cbn. intuition.
  - subst. cbn. intuition.
  - subst. cbn. intuition.
  - subst. cbn. intuition.
  - subst. cbn. intuition.
Qed.

Lemma space_forall (P : char -> bool) :
  forallb P space_points = true -> forall c, isspace c = true -> P c = true.
Proof.
  intros H c Hc. rewrite forallb_forall in H. apply H, isspace_points, Hc.
Qed.

Section SpaceTables.
Variable db : unicode_db.

Lemma tolower_space (c : char) : isspace c = true -> tolower db c = c.
Proof.
  intros H. apply N.eqb_eq.
  apply (space_forall (fun c => tolower db c =? c)); [vm_compute; reflexivity|exact H].
Qed.

Lemma isalpha_nonspace (c : char) : isalpha db c = true -> isspace c = false.
Proof.
  intros Ha. destruct (isspace c) eqn:E; [|reflexivity].
  pose proof (space_forall (fun c => negb (isalpha db c)) ltac:(vm_compute; reflexivity) c E) as H.
  cbn beta in H. rewrite Ha in H. discriminate.
Qed.

Lemma isdecimal_nonspace (c : char) : isdecimal db c = true -> isspace c = false.
Proof.
  intros Ha. destruct (isspace c) eqn:E; [|reflexivity].
  pose proof (space_forall (fun c => negb (isdecimal db c)) ltac:(vm_compute; reflexivity) c E) as H.
  cbn beta in H. rewrite Ha in H. discriminate.
Qed.

(** A pattern character that no white space can match. *)
Definition nonspace_pattern (p : char) : bool :=
  if iscased db p then
    negb (isspace (tolower db p))
    && forallb (fun k => negb (isspace k)) (sre_fixes (tolower db p))
  else negb (isspace p).

Lemma ci_char_nonspace (p c : char) :
  nonspace_pattern p = true -> ci_char db p c = true -> isspace c = false.
Proof.
  unfold nonspace_pattern, ci_char. intros Hp Hc.
  destruct (isspace c) eqn:E; [|reflexivity]. exfalso.
  destruct (iscased db p).
  - rewrite (tolower_space c E) in Hc. apply andb_prop in Hp as [Hp1 Hp2].
    apply orb_prop in Hc as [Hc|Hc].
    + apply N.eqb_eq in Hc. subst c. rewrite E in Hp1. discriminate.
    + unfold mem in Hc. apply existsb_exists in Hc as (k & Hk & Hck).
      apply N.eqb_eq in Hck. subst k. rewrite forallb_forall in Hp2.
      apply Hp2 in Hk. rewrite E in Hk. discriminate.
  - apply N.eqb_eq in Hc. subst c. rewrite E in Hp. discriminate.
Qed.
End SpaceTables.

Section SpacingStages.
Variable db : unicode_db.

Lemma ci_starts_with_take (abbr t : str) :
  ci_starts_with db abbr t = true ->
  Forall2 (fun p c => ci_char db p c = true) abbr (take (length abbr) t).
Proof.
  revert t. induction abbr as [|p abbr IH]; intros [|c t] H; cbn in H |- *;
    try discriminate; try constructor.
  - apply andb_prop in H as [H _]. exact H.
  - apply andb_prop in H as [_ H]. apply IH, H.
Qed.

(** An abbreviation whose first and last characters no white space
    matches. *)
Definition abbr_ends_ok (abbr : str) : bool :=
  match abbr with
  | p :: _ => nonspace_pattern db p
  | [] => false
  end
  && match last abbr with
     | Some p => nonspace_pattern db p
     | None => false
     end.

Lemma ci_match_ends (abbr mt : str) :
  abbr_ends_ok abbr = true ->
  Forall2 (fun p c => ci_char db p c = true) abbr mt ->
  nonspace_ends mt.
Proof.
  unfold abbr_ends_ok, nonspace_ends. intros [H1 H2]%andb_prop HF. split.
  - destruct HF as [|p c abbr' mt' Hpc _]; [discriminate|].
    apply (ci_char_nonspace db p c H1 Hpc).
  - destruct (last abbr) as [p|] eqn:El; [|discriminate].
    apply last_Some in El as [abbr' ->].
    apply Forall2_app_inv_l in HF as (mt1 & mt2 & _ & HF2 & ->).
    inversion HF2 as [|? c ? ? Hpc Hnil]; subst. inversion Hnil; subst.
    rewrite last_snoc. apply (ci_char_nonspace db p c H2 Hpc).
Qed.

Lemma abbr_matcher_ci (abbr before t : str) (n : nat) :
  abbr_matcher db abbr before t = Some (S n) ->
  ci_starts_with db abbr t = true /\ S n = length abbr.
Proof.
  unfold abbr_matcher, dotted_matcher, bounded_matcher.
  destruct (mem 0x2E abbr).
  - destruct (negb _ && ci_starts_with db abbr t && _) eqn:E; [|discriminate].
    intros [= ->]. apply andb_prop in E as [E _]. apply andb_prop in E as [_ E].
    split; [exact E|reflexivity].
  - destruct (boundary db before t && ci_starts_with db abbr t && _) eqn:E; [|discriminate].
    intros [= ->]. apply andb_prop in E as [E _]. apply andb_prop in E as [_ E].
    split; [exact E|reflexivity].
Qed.

Lemma expand_abbreviation_wsok (entry : str * str) (s : str) (prev : bool) :
  abbr_ends_ok entry.1 = true -> ws_normal entry.2 = true ->
  wsok prev s = true -> wsok prev (expand_abbreviation db s entry) = true.
Proof.
  intros Ha Hv. unfold expand_abbreviation. apply re_sub_wsok.
  intros before t n Hm. rewrite map_id in Hm.
  apply abbr_matcher_ci in Hm as [Hci Hn]. rewrite Hn.
  apply ws_safe_ends; [|exact Hv].
  apply (ci_match_ends entry.1); [exact Ha|apply ci_starts_with_take, Hci].
Qed.

Definition entry_ok (entry : str * str) : bool :=
  abbr_ends_ok entry.1 && ws_normal entry.2.

Lemma abbreviations_ok :
  forallb entry_ok (sorted_by_length abbreviations) = true.
Proof. vm_compute. reflexivity. Qed.

Lemma expand_all_wsok (l : list (str * str)) :
  forallb entry_ok l = true ->
  forall s prev, wsok prev s = true ->
    wsok prev (fold_left (expand_abbreviation db) l s) = true.
Proof.
  induction l as [|e l IH]; intros Hl s prev H; [exact H|].
  cbn in Hl. apply andb_prop in Hl as [He Hl]. apply andb_prop in He as [He1 He2].
  cbn [fold_left]. apply IH; [exact Hl|].
  apply expand_abbreviation_wsok; assumption.
Qed.

Lemma leading_v_matcher_eq (before s : str) :
  leading_v_matcher before s
  = match before, s with
    | [], c :: r =>
      if c =? 0x412 then
        match run_length isspace r with
        | O => None
        | S n => Some (S (S n))
        end
      else None
    | _, _ => None
    end.
Proof.
  destruct before; [|reflexivity]. destruct s as [|c r]; [reflexivity|].
  destruct (N.eqb_spec c 0x412) as [->|Hne]; [reflexivity|].
  unfold leading_v_matcher. destruct c as [|p]; [reflexivity|].
  repeat (destruct p as [p|p|]; try reflexivity; try congruence).
Qed.

(** The leading В with its white space. *)
Lemma leading_v_safe :
  announced id leading_v_matcher (fun mt => ws_safe mt (u "В ")).
Proof.
  intros before t n Hm. rewrite map_id, leading_v_matcher_eq in Hm.
  destruct before; [|discriminate].
  destruct t as [|c r]; [discriminate|].
  destruct (N.eqb_spec c 0x412) as [->|Hne]; [|discriminate].
  destruct r as [|x r]; [discriminate|]. cbn [run_length] in Hm.
  destruct (isspace x) eqn:Ex; [|discriminate].
  injection Hm as <-.
  intros prev rest. cbn [take app wsok].
  replace (isspace 1042) with false by reflexivity. rewrite Ex. cbn [negb andb].
  change (u "В " ++ rest) with (0x412 :: 0x20 :: rest). cbn [wsok].
  replace (isspace 1042) with false by reflexivity.
  replace (isspace 32) with true by reflexivity. cbn [negb andb].
  destruct (run_length isspace r) as [|k] eqn:Ek; cbn [take app]; [trivial|].
  destruct r as [|y r]; [discriminate|]. cbn in Ek. cbn [take app wsok].
  destruct (isspace y); discriminate.
Qed.
End SpacingStages.

Lemma ws_normal_parts (x : str) :
  ws_normal x = true -> wsok_open true x = true /\ end_ws true x = false.
Proof.
  unfold ws_normal. rewrite wsok_alt. intros [H1 H2]%andb_prop.
  split; [exact H1|apply negb_true_iff, H2].
Qed.

Lemma convert_number_small_normal (s : str) (n : N) :
  n < 1000 -> ws_normal (convert_number 2 n s) = true.
Proof.
  intros Hn.
  apply (code_points_spec (fun n => ws_normal (convert_number 2 n s)) 1000 0);
    [vm_compute; reflexivity|lia|lia].
Qed.

Lemma convert_number_normal (s : str) (n : N) :
  n < 1000000 -> ws_normal (convert_number recursion_limit n s) = true.
Proof.
  intros Hn. change recursion_limit with (S (S (S 997))).
  rewrite convert_number_depth.
  destruct (N.ltb_spec n 1000) as [Hlt|Hge].
  { rewrite (convert_number_lt1000 1) by exact Hlt. apply convert_number_small_normal, Hlt. }
  assert (n mod 1000 < 1000) as Hr by (apply N.mod_lt; lia).
  assert (n / 1000 < 1000) as Hq by (apply N.Div0.div_lt_upper_bound; lia).
  destruct (ws_normal_parts _ (convert_number_small_normal (str_of_int (n / 1000)) _ Hq))
    as [Ht1 Ht2].
  pose proof (convert_number_small_normal (str_of_int (n mod 1000)) _ Hr) as Hm.
  unfold ws_normal in Hm |- *.
  change 3%nat with (S 2). remember 2%nat as d2 eqn:E2. cbn [convert_number].
  destruct (N.eqb_spec n 0); [lia|].
  destruct (N.ltb_spec n 20); [lia|].
  destruct (N.ltb_spec n 100); [lia|].
  destruct (N.ltb_spec n 1000); [lia|].
  destruct (N.ltb_spec n 1000000); [|lia].
  subst d2.
  destruct (n mod 1000 =? 0), (n / 1000 =? 1), (n / 1000 <? 5);
    cbn [default from_option]; unfold id;
    rewrite ?wsok_app, ?Ht1, ?Ht2; try exact Hm; try reflexivity.
Qed.

Section NumberSpacing.
Variable db : unicode_db.

Lemma take_run_all (p : char -> bool) (t : str) (k : nat) :
  (k <= run_length p t)%nat -> forallb p (take k t) = true.
Proof.
  revert k. induction t as [|c r IH]; intros k Hk.
  - destruct k; reflexivity.
  - destruct k as [|k]; [reflexivity|]. cbn in Hk |- *.
    destruct (p c); [|lia]. cbn. apply IH. lia.
Qed.

Lemma number_match_digits (before t : str) (n : nat) :
  number_matcher db before t = Some (S n) ->
  forallb (isdecimal db) (take (S n) t) = true /\ take (S n) t <> [].
Proof.
  unfold number_matcher. destruct (boundary db before t); [|discriminate].
  intros H%backtrack_le. split; [apply take_run_all, H|].
  destruct t; [cbn in H; lia|discriminate].
Qed.

Lemma int_digits_total (s : str) :
  forallb (isdecimal db) s = true -> forall acc, exists v, int_digits db acc s = Some v.
Proof.
  induction s as [|c r IH]; intros H acc; [exists acc; reflexivity|].
  cbn in H |- *. apply andb_prop in H as [Hc Hr]. unfold isdecimal in Hc.
  destruct (decimal_value db c); [|discriminate]. apply IH, Hr.
Qed.

Lemma digits_normal (d : str) (prev : bool) :
  forallb (isdecimal db) d = true -> d <> [] -> wsok prev d = true.
Proof.
  intros Hd Hne. apply wsok_word; [exact Hne|].
  rewrite forallb_forall in Hd |- *. intros c Hc.
  rewrite (isdecimal_nonspace db c (Hd c Hc)). reflexivity.
Qed.

Lemma digits_ends (d : str) :
  forallb (isdecimal db) d = true -> d <> [] -> nonspace_ends d.
Proof.
  intros Hd Hne. split.
  - destruct d as [|c r]; [congruence|]. cbn in Hd. apply andb_prop in Hd as [Hc _].
    apply isdecimal_nonspace in Hc. exact Hc.
  - destruct d as [|y t _] using rev_ind; [congruence|].
    rewrite last_snoc. rewrite forallb_app in Hd. apply andb_prop in Hd as [_ Hy].
    cbn in Hy. rewrite andb_true_r in Hy. apply isdecimal_nonspace in Hy. exact Hy.
Qed.

Lemma convert_normal (d : str) :
  forallb (isdecimal db) d = true -> d <> [] ->
  ws_normal (convert_russian_number db d) = true.
Proof.
  intros Hd Hne. unfold convert_russian_number.
  destruct (py_int db d) as [v|] eqn:E; [|apply digits_normal; assumption].
  destruct (N.ltb_spec v 1000000).
  - apply convert_number_normal. assumption.
  - change recursion_limit with (S 999). rewrite convert_number_large by assumption.
    apply digits_normal; assumption.
Qed.

Lemma replace_all_numbers_wsok (s : str) (prev : bool) :
  wsok prev s = true -> wsok prev (replace_all_numbers db s) = true.
Proof.
  unfold replace_all_numbers. apply re_sub_wsok.
  intros before t n Hm. rewrite map_id in Hm.
  apply number_match_digits in Hm as [Hd Hne].
  apply ws_safe_ends; [apply digits_ends|apply convert_normal]; assumption.
Qed.
End NumberSpacing.

(** ** The numeral expansion on one run of digits *)

(** A small Russian letter or a space. *)
Definition letter_or_space (c : char) : bool := in_range 0x430 0x44F c || (c =? 0x20).

(** A spoken form: words of small Russian letters, one space between
    two words and none at the ends, at least one word, and no digit. *)
Definition spoken_form (db : unicode_db) (s : str) : bool :=
  ws_normal s && forallb letter_or_space s && digit_free db s.

Lemma convert_number_small_letters (s : str) (n : N) :
  n < 1000 -> forallb letter_or_space (convert_number 2 n s) = true.
Proof.
  intros Hn.
  apply (code_points_spec (fun n => forallb letter_or_space (convert_number 2 n s)) 1000 0);
    [vm_compute; reflexivity|lia|lia].
Qed.

Lemma convert_number_letters (s : str) (n : N) :
  n < 1000000 -> forallb letter_or_space (convert_number recursion_limit n s) = true.
Proof.
  intros Hn. change recursion_limit with (S (S (S 997))).
  rewrite convert_number_depth.
  destruct (N.ltb_spec n 1000) as [Hlt|Hge].
  { rewrite (convert_number_lt1000 1) by exact Hlt. apply convert_number_small_letters, Hlt. }
  assert (n mod 1000 < 1000) as Hr by (apply N.mod_lt; lia).
  assert (n / 1000 < 1000) as Hq by (apply N.Div0.div_lt_upper_bound; lia).
  pose proof (convert_number_small_letters (str_of_int (n / 1000)) _ Hq) as Ht.
  pose proof (convert_number_small_letters (str_of_int (n mod 1000)) _ Hr) as Hm.
  change 3%nat with (S 2). remember 2%nat as d2 eqn:E2. cbn [convert_number].
  destruct (N.eqb_spec n 0); [lia|].
  destruct (N.ltb_spec n 20); [lia|].
  destruct (N.ltb_spec n 100); [lia|].
  destruct (N.ltb_spec n 1000); [lia|].
  destruct (N.ltb_spec n 1000000); [|lia].
  subst d2.
  destruct (n mod 1000 =? 0), (n / 1000 =? 1), (n / 1000 <? 5);
    cbn [default from_option]; unfold id;
    rewrite ?forallb_app, ?Ht, ?Hm; reflexivity.
Qed.

(** C3, as the code has it.  A run of decimal digits [d] that stands
    between word boundaries (the text before it does not end in a word
    character, the text after it does not begin with one) is replaced by
    [convert_russian_number d], the rest of the text being expanded on
    its own.  When the run has at most 4300 digits and its value is at
    most 999999, the replacement is a spoken form: Russian words joined
    by single spaces, at least one, without any digit.  When the value is
    1000000 or more, or the run is longer than the interpreter converts,
    the replacement is [d] itself.  The expansion is a total function:
    every failure inside it falls back to the digits, as the bare
    [except] does. *)
Theorem numeral_expansion (db : unicode_db) (pre d post : str) (n : N) :
  int_digits db 0 d = Some n ->
  (0 < length d)%nat ->
  word_before db (rev pre) = false ->
  word_after db post = false ->
  replace_all_numbers db (pre ++ d ++ post)
  = replace_all_numbers db pre ++ convert_russian_number db d
      ++ replace_all_numbers db post
  /\ (if (length d <=? int_max_str_digits)%nat && (n <? 1000000)
      then spoken_form db (convert_russian_number db d) = true
      else convert_russian_number db d = d).
Proof.
  intros Hv H0 Hpre Hpost.
  assert (d <> []) as Hne by (intros ->; cbn in H0; lia).
  pose proof (int_digits_all db d 0 n Hv) as Hall.
  split; [apply replace_all_numbers_split; assumption|].
  destruct (Nat.leb_spec (length d) int_max_str_digits) as [Hl|Hl]; cbn [andb].
  - destruct (N.ltb_spec n 1000000) as [Hn|Hn].
    + unfold spoken_form. rewrite (convert_normal db d Hall Hne).
      unfold convert_russian_number. rewrite (py_int_short db d H0 Hl), Hv.
      rewrite (convert_number_letters d n Hn), (convert_number_digit_free db d n Hn).
      reflexivity.
    + unfold convert_russian_number. rewrite (py_int_short db d H0 Hl), Hv.
      apply convert_number_large, Hn.
  - unfold convert_russian_number. rewrite (py_int_long db d Hl). reflexivity.
Qed.

Lemma numeral_expansion_witness :
  replace_all_numbers basic_db (u "всего " ++ u "12345" ++ u " рублей")
  = replace_all_numbers basic_db (u "всего ")
      ++ convert_russian_number basic_db (u "12345")
      ++ replace_all_numbers basic_db (u " рублей")
  /\ (if (length (u "12345") <=? int_max_str_digits)%nat && (12345 <? 1000000)
      then spoken_form basic_db (convert_russian_number basic_db (u "12345")) = true
      else convert_russian_number basic_db (u "12345") = u "12345").
Proof.
  apply (numeral_expansion basic_db (u "всего ") (u "12345") (u " рублей") 12345);
    [vm_compute; reflexivity|vm_compute; lia|vm_compute; reflexivity|vm_compute; reflexivity].
Defined.

(** A run of 4301 digits whose value is seven: it stands alone, between
    two boundaries, and it is left as it is, digits and all. *)
Lemma long_run_left_as_digits :
  let d := repeat 0x30 4300 ++ [0x37] in
  int_digits basic_db 0 d = Some 7
  /\ word_before basic_db (rev []) = false /\ word_after basic_db [] = false
  /\ replace_all_numbers basic_db ([] ++ d ++ []) = d
  /\ digit_free basic_db (replace_all_numbers basic_db ([] ++ d ++ [])) = false.
Proof. vm_compute. repeat split; reflexivity. Qed.

(** The English table. *)
Definition nonspace_endsb (s : str) : bool :=
  match s with c :: _ => negb (isspace c) | [] => false end
  && match last s with Some c => negb (isspace c) | None => false end.

Lemma nonspace_endsb_spec (s : str) : nonspace_endsb s = true -> nonspace_ends s.
Proof.
  unfold nonspace_endsb, nonspace_ends. intros [H1 H2]%andb_prop. split.
  - destruct s; [discriminate|apply negb_true_iff, H1].
  - destruct (last s); [apply negb_true_iff, H2|discriminate].
Qed.

Lemma starts_with_take (p t : str) :
  starts_with p t = true -> take (length p) t = p.
Proof.
  revert t. induction p as [|a p IH]; intros [|b t] H; cbn in H |- *;
    try reflexivity; try discriminate.
  apply andb_prop in H as [Hab H]. apply N.eqb_eq in Hab. subst. f_equal. apply IH, H.
Qed.

Lemma str_replace_wsok (old new s : str) (prev : bool) :
  nonspace_endsb old = true -> ws_normal new = true ->
  wsok prev s = true -> wsok prev (str_replace old new s) = true.
Proof.
  intros Ho Hn. unfold str_replace. apply re_sub_wsok.
  intros before t n Hm. rewrite map_id in Hm. unfold lit_matcher in Hm.
  destruct (starts_with old t) eqn:E; [|discriminate]. injection Hm as Hm.
  rewrite <- Hm, (starts_with_take _ _ E).
  apply ws_safe_ends; [apply nonspace_endsb_spec, Ho|exact Hn].
Qed.

Lemma replace_table_wsok (l : list (str * str)) :
  forallb (fun kv => nonspace_endsb kv.1 && ws_normal kv.2) l = true ->
  forall s prev, wsok prev s = true ->
    wsok prev (fold_left (fun result kv => str_replace kv.1 kv.2 result) l s) = true.
Proof.
  induction l as [|e l IH]; intros Hl s prev H; [exact H|].
  cbn in Hl. apply andb_prop in Hl as [He Hl]. apply andb_prop in He as [He1 He2].
  cbn [fold_left]. apply IH; [exact Hl|]. apply str_replace_wsok; assumption.
Qed.

Lemma simple_number_conversion_wsok (db : unicode_db) (lang : language)
    (s : str) (prev : bool) :
  wsok prev s = true -> wsok prev (_simple_number_conversion db s lang) = true.
Proof.
  intros H. unfold _simple_number_conversion. destruct lang.
  - apply replace_all_numbers_wsok, expand_all_wsok; [apply abbreviations_ok|].
    apply re_sub_wsok; [apply leading_v_safe|exact H].
  - apply replace_table_wsok; [vm_compute; reflexivity|exact H].
Qed.

(** A substitution that relates every match to its replacement relates
    the text to the result, position by position. *)
Lemma re_sub_Forall2 {A : Type} (ch : A -> char) (R : A -> A -> Prop)
    (m : matcher) (repl : list A -> list A) (s : list A) :
  (forall a, R a a) ->
  announced ch m (fun mt => Forall2 R mt (repl mt)) ->
  Forall2 R s (re_sub ch m repl s).
Proof.
  intros Hrefl Ha. unfold re_sub.
  rewrite <- (re_scan_concat ch m s [] 0) at 1. cbn [drop].
  pose proof (re_scan_matches ch m _ s Ha [] 0%nat) as HF.
  induction HF as [|p l Hp _ IH]; [constructor|].
  cbn [map concat]. apply Forall2_app; [|exact IH].
  destruct p as [c|mt]; [repeat constructor; apply Hrefl|exact Hp].
Qed.

(** The letters the yoficator writes. *)
Definition yo_letters : list char := [0x451; 0x435; 0x449; 0x43B].

(** A character is as it was, or it is one of those letters. *)
Definition renewed (c c' : char) : Prop := c' = c \/ c' ∈ yo_letters.

Lemma renewed_refl (s : str) : Forall2 renewed s s.
Proof. induction s; constructor; [left; reflexivity|assumption]. Qed.

Lemma renewed_fold (v : str) : Forall2 renewed (yo_fold v) v.
Proof.
  induction v as [|c v IH]; [constructor|].
  cbn [yo_fold map]. constructor; [|exact IH].
  destruct (N.eqb_spec c 0x451) as [->|]; [right; left|left; reflexivity].
Qed.

Lemma renewed_letters (s v : str) :
  length s = length v -> Forall (fun c => c ∈ yo_letters) v -> Forall2 renewed s v.
Proof.
  intros Hl Hv. revert s Hl. induction Hv as [|c v Hc _ IH]; intros [|x s] Hl;
    try discriminate; constructor; [right; exact Hc|].
  apply IH. cbn in Hl. congruence.
Qed.

Lemma str_replace_renewed (old new s : str) :
  old <> [] -> length new = length old -> Forall (fun c => c ∈ yo_letters) new ->
  Forall2 renewed s (str_replace old new s).
Proof.
  intros Hne Hl Hn. apply re_sub_Forall2; [left; reflexivity|].
  intros before t n. rewrite map_id. unfold lit_matcher.
  destruct (starts_with old t) eqn:E; [|discriminate].
  intros [= Hm]. apply renewed_letters; [|exact Hn].
  rewrite <- Hm, (starts_with_take _ _ E). symmetry. exact Hl.
Qed.

Lemma last_ye_renewed (s : str) :
  Forall2 renewed s (re_sub id last_ye_matcher (fun mt => 0x451 :: tail mt) s).
Proof.
  apply re_sub_Forall2; [left; reflexivity|].
  intros before t n H. destruct t as [|c t]; [discriminate|].
  cbn [take tail]. constructor; [right; left|apply renewed_refl].
Qed.

Ltac yo_letters_solve :=
  repeat constructor; apply (bool_decide_unpack _); vm_compute; exact I.

Section YoficateSpacing.
Variable db : unicode_db.

Lemma additional_rules_renewed (word : str) :
  Forall2 renewed word (_apply_additional_rules db word).
Proof.
  pose proof (additional_rules_length db word) as Hlen. revert Hlen.
  unfold _apply_additional_rules.
  destruct (str_isalpha db word); cbn [negb]; [|intros _; apply renewed_refl].
  destruct (str_eqb _ (u "телка"));
    [intros _; apply str_replace_renewed; [discriminate|reflexivity|yo_letters_solve]|].
  destruct (str_eqb _ (u "осел"));
    [intros _; apply str_replace_renewed; [discriminate|reflexivity|yo_letters_solve]|].
  destruct (str_eqb _ (u "еще")).
  { intros Hlen. apply renewed_letters; [symmetry; exact Hlen|yo_letters_solve]. }
  destruct (str_eqb _ (u "ее")).
  { intros Hlen. apply renewed_letters; [symmetry; exact Hlen|yo_letters_solve]. }
  destruct (str_eqb _ (u "произнес"));
    [intros _; apply str_replace_renewed; [discriminate|reflexivity|yo_letters_solve]|].
  destruct (_ && _ && _);
    [intros _; apply str_replace_renewed; [discriminate|reflexivity|yo_letters_solve]|].
  destruct (_ && _ && _); intros _; [apply last_ye_renewed|apply renewed_refl].
Qed.

Lemma yoficate_token_renewed (d : gmap str str) (token : str) :
  folded d -> Forall2 renewed token (yoficate_token db d token).
Proof.
  intros Hd. unfold yoficate_token.
  destruct (d !! token) as [v|] eqn:E.
  - rewrite (Hd _ _ E). apply renewed_fold.
  - apply additional_rules_renewed.
Qed.

Lemma yoficate_renewed (d : gmap str str) (text : str) :
  folded d -> Forall2 renewed text (yoficate db d text).
Proof.
  intros Hd. unfold yoficate.
  case_bool_decide; [apply renewed_refl|].
  rewrite <- (tokens_concat db text) at 1.
  induction (re_findall id (splitter_matcher db) text) as [|t l IH]; [constructor|].
  cbn [map concat]. apply Forall2_app; [apply yoficate_token_renewed, Hd|exact IH].
Qed.

Lemma wsok_same_space (s s' : str) :
  Forall2 (fun c c' => isspace c = isspace c') s s' ->
  forall prev, wsok prev s = wsok prev s'.
Proof.
  induction 1 as [|c c' s s' Hc _ IH]; intros prev; [reflexivity|].
  cbn [wsok]. rewrite Hc, !IH. reflexivity.
Qed.

(** [yoficate] leaves every white-space character where it is and
    writes none. *)
Lemma yoficate_same_space (d : gmap str str) (text : str) :
  folded d ->
  Forall2 (fun c c' => isspace c = isspace c') text (yoficate db d text).
Proof.
  intros Hd.
  pose proof (yoficate_kept db d text Hd) as Hk.
  pose proof (yoficate_renewed d text Hd) as Hr.
  induction Hk as [|c c' s s' Hc Hk IH]; [constructor|].
  inversion Hr as [|? ? ? ? Hc' Hr']; subst.
  constructor; [|apply IH, Hr'].
  destruct Hc as [->|Ha]; [reflexivity|].
  destruct Hc' as [->|Hy]; [reflexivity|].
  rewrite (isalpha_nonspace db c Ha). symmetry.
  unfold yo_letters in Hy.
  repeat (apply elem_of_cons in Hy as [->|Hy]; [reflexivity|]).
  inversion Hy.
Qed.

Lemma yoficate_wsok (d : gmap str str) (text : str) (prev : bool) :
  folded d -> wsok prev (yoficate db d text) = wsok prev text.
Proof.
  intros Hd. symmetry. apply wsok_same_space, yoficate_same_space, Hd.
Qed.
End YoficateSpacing.

Section Spacing.
Variable db : unicode_db.
Variable self : MultilingualTTS.

Lemma normalize_text_wsok (text : str) (lang : language) (prev : bool) :
  folded (yo_dictionary self) ->
  wsok prev text = true -> wsok prev (normalize_text db self text lang) = true.
Proof.
  intros Hd H. unfold normalize_text, _preprocess_gpt_issues.
  destruct (is_blank text); [exact H|].
  destruct lang.
  - rewrite yoficate_wsok by exact Hd. apply simple_number_conversion_wsok, H.
  - apply simple_number_conversion_wsok, H.
Qed.

Lemma terminate_normal (s : str) :
  ws_normal s = true ->
  ws_normal (if negb (ends_with_any [u "."; u "!"; u "?"] (rstrip s))
             then rstrip s ++ u "." else rstrip s) = true.
Proof.
  intros H. destruct (ws_normal_spec s H) as (_ & [_ Hl] & _).
  rewrite (rstrip_fixed s Hl).
  destruct (negb _); [|exact H].
  destruct (ws_normal_parts s H) as [H1 H2].
  unfold ws_normal. rewrite wsok_app, H1, H2. reflexivity.
Qed.

Lemma after_sanitize_normal (text : str) :
  folded (yo_dictionary self) ->
  enable_accent self = false \/ accentizer self = None ->
  after_sanitize db self text = [] \/ ws_normal (after_sanitize db self text) = true.
Proof.
  intros Hd Hacc. unfold after_sanitize.
  set (lang := detect_language db text).
  set (joined := join sp (split_ws text)).
  assert (forall t, match lang with
                    | russian => if enable_accent self then add_accents self t else t
                    | english => t
                    end = t) as Hskip.
  { intros t. destruct lang; [|reflexivity].
    destruct Hacc as [->| Hn]; [reflexivity|].
    unfold add_accents. rewrite Hn. destruct (enable_accent self); reflexivity. }
  rewrite Hskip.
  destruct (join_split_normal text) as [He|Hn]; [fold joined in He|fold joined in Hn].
  - left. rewrite He. unfold normalize_text. cbn. reflexivity.
  - pose proof (normalize_text_wsok joined lang true Hd Hn) as Hw.
    destruct (normalize_text db self joined lang) as [|c t] eqn:E; [left; reflexivity|].
    right. apply terminate_normal, Hw.
Qed.
End Spacing.

(** C10. When the accent stage is skipped -- accents are disabled or
    there is no accentizer -- and the yo dictionary is one the loader
    built, a canonical text that is not empty begins and ends with a
    character that is not white space, and nowhere in it does white
    space follow white space. *)
Theorem canonical_text_spacing
    (db : unicode_db) (self : MultilingualTTS) (lines : list str) (text : str) :
  _load_dictionary lines = Some (yo_dictionary self) ->
  enable_accent self = false \/ accentizer self = None ->
  preprocess_text_for_tts db self text <> [] ->
  let canonical_text := preprocess_text_for_tts db self text in
  trimmed canonical_text
  /\ forall (i : nat) (c c' : char),
       canonical_text !! i = Some c -> canonical_text !! S i = Some c' ->
       ~ (isspace c = true /\ isspace c' = true).
Proof.
  intros Hl Hacc Hne canonical_text. apply load_dictionary_folded in Hl.
  assert (ws_normal canonical_text = true) as Hn.
  { unfold canonical_text in *. rewrite preprocess_factor in Hne |- *.
    destruct (sanitize db text) as [|c0 t0]; [congruence|].
    destruct (after_sanitize_normal db self (c0 :: t0) Hl Hacc) as [E|E];
      [congruence|exact E]. }
  destruct (ws_normal_spec _ Hn) as (_ & Ht & Hd).
  split; [exact Ht|]. intros i c c' Hi Hi' [Hc Hc']. apply (Hd i c c' Hi Hi' Hc Hc').
Qed.

Lemma canonical_text_spacing_witness :
  let canonical_text :=
    preprocess_text_for_tts basic_db sample_tts (u "  Привет,   мир!!!!!  1000   км ") in
  trimmed canonical_text
  /\ forall (i : nat) (c c' : char),
       canonical_text !! i = Some c -> canonical_text !! S i = Some c' ->
       ~ (isspace c = true /\ isspace c' = true).
Proof.
  apply (canonical_text_spacing basic_db sample_tts []).
  - reflexivity.
  - right. reflexivity.
  - vm_compute. discriminate.
Defined.

Example preprocess_sample :
  preprocess_text_for_tts basic_db sample_tts (u "  Привет,   мир!!!!!  1000   км ")
  = u "Привет, мир!!! тысяча километр.".
Proof. vm_compute. reflexivity. Qed.

(** ** Case-insensitive matching and the tables *)

(** The code points whose class the tables fix. *)
Definition known (c : char) : bool := in_blocks c || is_fold_letter c.

Definition known_points : list char :=
  code_points 0 128 ++ code_points 0x400 96
    ++ [0x130; 0x131; 0x17F; 0x212A] ++ code_points 0x1C80 9.

Section Conflicts.
Variable db : unicode_db.

(** A pattern character that is itself a known word character: every
    character that matches it is one too ([word_pattern_sound]). *)
Definition word_pattern (p : char) : bool := known p && is_word db p.

(** [fits k w]: the key [k] can match from the first character of the
    known text [w] on, [w] being followed by a character that is not a
    word character or by the end of the text. *)
Fixpoint fits (k w : str) : bool :=
  match k, w with
  | [], c :: _ => negb (is_word db c)
  | [], [] => true
  | p :: k', c :: w' => ci_char db p c && fits k' w'
  | p :: _, [] => negb (word_pattern p)
  end.

Definition start_ok (v1 : str) : bool :=
  match last v1 with Some c => negb (is_word db c) | None => true end.

Definition last_not_word_pattern (k1 : str) : bool :=
  match last k1 with Some p => negb (word_pattern p) | None => false end.

(** Can a match of the key [k] share a character with the value [v],
    when [v] stands between two boundaries? *)
Definition conflict (k v : str) : bool :=
  existsb (fun i => start_ok (take i v) && fits k (drop i v)) (seq 0 (length v))
  || existsb (fun i => last_not_word_pattern (take i k) && fits (drop i k) v)
             (seq 1 (length k - 1)).

Definition key_ok (k : str) : bool :=
  match k with p :: _ => word_pattern p | [] => false end
  && (mem 0x2E k
      || match last k with Some p => word_pattern p | None => false end).

Definition value_ok (v : str) : bool :=
  match v with c :: _ => is_word db c | [] => false end.

Definition table_ok (l : list (str * str)) : bool :=
  forallb (fun e => key_ok e.1 && value_ok e.2) l
  && forallb (fun e => forallb (fun e' => negb (conflict e.1 e'.2)) l) l.
End Conflicts.

Lemma abbreviations_table_ok (db : unicode_db) :
  table_ok db (sorted_by_length abbreviations) = true.
Proof. vm_compute. reflexivity. Qed.

Lemma known_forall (P : char -> bool) :
  forallb P known_points = true -> forall c, known c = true -> P c = true.
Proof.
  unfold known_points. rewrite !forallb_app.
  intros [H1 [H2 [H3 H4]%andb_prop]%andb_prop]%andb_prop c Hc.
  unfold known, in_blocks, is_ascii, is_cyrillic_block, is_fold_letter, in_range in Hc.
  repeat match type of Hc with
         | _ || _ = true => apply orb_prop in Hc as [Hc|Hc]
         end;
    repeat match type of Hc with
           | _ && _ = true => let H' := fresh in apply andb_prop in Hc as [Hc H']
           end;
    repeat match goal with
           | H : (_ <=? _) = true |- _ => apply N.leb_le in H
           | H : (_ <? _) = true |- _ => apply N.ltb_lt in H
           | H : (_ =? _) = true |- _ => apply N.eqb_eq in H
           end.
  - apply (code_points_spec P 128 0 H1); lia.
  - apply (code_points_spec P 96 0x400 H2); lia.
  - subst. cbn in H3. apply andb_prop in H3 as [H3 _]. exact H3.
  - subst. cbn in H3. apply andb_prop in H3 as [_ [H3 _]%andb_prop]. exact H3.
  - subst. cbn in H3. apply andb_prop in H3 as [_ [_ [H3 _]%andb_prop]%andb_prop]. exact H3.
  - subst. cbn in H3.
    apply andb_prop in H3 as [_ [_ [_ [H3 _]%andb_prop]%andb_prop]%andb_prop]. exact H3.
  - apply (code_points_spec P 9 0x1C80 H4); lia.
Qed.

Section CaseFolding.
Variable db : unicode_db.

(** Only a known character lower-cases to a known one. *)
Lemma tolower_known (c l : char) :
  known l = true -> tolower db c = l -> known c = true.
Proof.
  intros Hl. unfold tolower.
  destruct (is_ascii c) eqn:Ea; [intros _; unfold known, in_blocks; rewrite Ea; reflexivity|].
  assert (forall lo hi, in_range lo hi c = true -> 0x400 <= lo -> hi <= 0x45F ->
            known c = true) as Hcyr.
  { intros lo hi H Hlo Hhi. unfold known, in_blocks, is_cyrillic_block, in_range in *.
    apply andb_prop in H as [H1 H2]. apply N.leb_le in H1, H2.
    replace (1024 <=? c) with true by (symmetry; apply N.leb_le; lia).
    replace (c <=? 1119) with true by (symmetry; apply N.leb_le; lia).
    rewrite orb_true_r. reflexivity. }
  destruct (in_range 0x400 0x40F c) eqn:E1; [intros _; apply (Hcyr _ _ E1); lia|].
  destruct (in_range 0x410 0x42F c) eqn:E2; [intros _; apply (Hcyr _ _ E2); lia|].
  destruct (is_cyrillic_block c) eqn:E3;
    [intros _; unfold known, in_blocks; rewrite E3, orb_true_r; reflexivity|].
  destruct (N.eqb_spec c 0x130) as [->|]; [reflexivity|].
  destruct (N.eqb_spec c 0x212A) as [->|]; [reflexivity|].
  destruct (is_fold_letter c || isspace c) eqn:E4; [intros ->; exact Hl|].
  cbn zeta. destruct (in_blocks _ || is_fold_letter _ || isspace _) eqn:E5;
    [intros ->; exact Hl|].
  intros E. subst l. unfold known in Hl. rewrite Hl in E5. discriminate.
Qed.

Definition pattern_closed (p : char) : bool :=
  if iscased db p then
    known (tolower db p) && forallb known (sre_fixes (tolower db p))
  else known p.

Lemma known_pattern_closed (p : char) : known p = true -> pattern_closed p = true.
Proof. apply known_forall. vm_compute. reflexivity. Qed.

Lemma ci_char_known (p c : char) :
  known p = true -> ci_char db p c = true -> known c = true.
Proof.
  intros Hp Hc. pose proof (known_pattern_closed p Hp) as Hcl.
  unfold pattern_closed in Hcl. unfold ci_char in Hc.
  destruct (iscased db p).
  - apply andb_prop in Hcl as [H1 H2]. cbn zeta in Hc.
    apply orb_prop in Hc as [Hc|Hc].
    + apply N.eqb_eq in Hc. apply (tolower_known c _ H1 Hc).
    + unfold mem in Hc. apply existsb_exists in Hc as (x & Hx & Hcx).
      apply N.eqb_eq in Hcx. rewrite forallb_forall in H2.
      apply (tolower_known c x (H2 x Hx) Hcx).
  - apply N.eqb_eq in Hc. subst. exact Hp.
Qed.

Lemma word_pattern_sound (p c : char) :
  word_pattern db p = true -> ci_char db p c = true -> is_word db c = true.
Proof.
  unfold word_pattern. intros [Hp Hw]%andb_prop Hc.
  pose proof (ci_char_known p c Hp Hc) as Hk.
  pose proof (known_forall
                (fun p => implb (is_word db p)
                            (forallb (fun c => implb (ci_char db p c) (is_word db c))
                                     known_points))
                ltac:(vm_compute; reflexivity) p Hp) as H.
  cbn beta in H. rewrite Hw in H. cbn [implb] in H.
  pose proof (known_forall _ H c Hk) as H'. cbn beta in H'.
  rewrite Hc in H'. exact H'.
Qed.
End CaseFolding.

Section MatchFacts.
Variable db : unicode_db.

Lemma ci_starts_with_app (k1 k2 t1 t2 : str) :
  length k1 = length t1 ->
  ci_starts_with db (k1 ++ k2) (t1 ++ t2)
  = ci_starts_with db k1 t1 && ci_starts_with db k2 t2.
Proof.
  revert t1. induction k1 as [|p k1 IH]; intros [|c t1] Hl; try discriminate.
  - cbn. reflexivity.
  - cbn [app ci_starts_with]. rewrite IH by (cbn in Hl; congruence).
    rewrite andb_assoc. reflexivity.
Qed.

Lemma ci_starts_with_length (k t : str) :
  ci_starts_with db k t = true -> (length k <= length t)%nat.
Proof.
  revert t. induction k as [|p k IH]; intros [|c t] H; cbn in H |- *;
    try lia; try discriminate.
  apply andb_prop in H as [_ H]. apply IH in H. lia.
Qed.

(** What a match of an abbreviation says about the text around it. *)
Lemma abbr_match_facts (k before t : str) (n : nat) :
  key_ok db k = true ->
  abbr_matcher db k before t = Some (S n) ->
  S n = length k /\ word_before db before = false
  /\ ci_starts_with db k t = true
  /\ word_after db (drop (length k) t) = false.
Proof.
  intros [Hfirst Hlast]%andb_prop.
  unfold abbr_matcher, dotted_matcher, bounded_matcher.
  destruct (mem 0x2E k).
  - destruct (_ && _ && _) eqn:E; [|discriminate].
    apply andb_prop in E as [[E1 E2]%andb_prop E3].
    intros [= Hn]. apply negb_true_iff in E1, E3. auto.
  - cbn [orb] in Hlast.
    destruct (_ && _ && _) eqn:E; [|discriminate].
    apply andb_prop in E as [[E1 E2]%andb_prop E3].
    intros [= Hn].
    pose proof (ci_starts_with_take db k t E2) as HF.
    split; [symmetry; exact Hn|].
    assert (word_after db t = true) as Hwa.
    { destruct k as [|p k]; [discriminate|]. destruct t as [|c t]; [discriminate|].
      cbn in E2. apply andb_prop in E2 as [E2 _].
      apply (word_pattern_sound db p c Hfirst E2). }
    assert (word_before db (rev (take (length k) t) ++ before) = true) as Hwb.
    { destruct (last k) as [p|] eqn:El; [|discriminate].
      apply last_Some in El as [k' ->].
      apply Forall2_app_inv_l in HF as (m1 & m2 & _ & HF2 & Em).
      inversion HF2 as [|? c ? ? Hpc Hnil]; subst. inversion Hnil; subst.
      rewrite Em, rev_app_distr. cbn.
      apply (word_pattern_sound db p c Hlast Hpc). }
    unfold boundary in E1, E3. rewrite Hwa in E1. rewrite Hwb in E3.
    destruct (word_before db before); [discriminate|].
    destruct (word_after db (drop (length k) t)); [discriminate|]. auto.
Qed.

Lemma fits_sound (k : str) :
  forall w post,
    ci_starts_with db k (w ++ post) = true ->
    word_after db (drop (length k) (w ++ post)) = false ->
    word_after db post = false ->
    fits db k w = true.
Proof.
  induction k as [|p k IH]; intros w post Hci Hwa Hpost.
  - destruct w as [|c w]; [reflexivity|]. cbn in Hwa |- *. rewrite Hwa. reflexivity.
  - destruct w as [|c w].
    + cbn [fits]. destruct (word_pattern db p) eqn:Ep; [|reflexivity]. exfalso.
      destruct post as [|c post]; [discriminate|]. cbn in Hci, Hpost.
      apply andb_prop in Hci as [Hc _].
      rewrite (word_pattern_sound db p c Ep Hc) in Hpost. discriminate.
    + cbn in Hci. apply andb_prop in Hci as [Hc Hci].
      cbn [fits]. rewrite Hc. cbn [andb]. apply (IH w post Hci); assumption.
Qed.

Lemma conflict_inside (k v1 v2 : str) :
  v2 <> [] -> start_ok db v1 = true -> fits db k v2 = true ->
  conflict db k (v1 ++ v2) = true.
Proof.
  intros Hne Hs Hf. unfold conflict. apply orb_true_intro. left.
  apply existsb_exists. exists (length v1). split.
  - apply in_seq. rewrite length_app. destruct v2; [congruence|cbn; lia].
  - rewrite take_app_length, drop_app_length, Hs, Hf. reflexivity.
Qed.

Lemma conflict_across (k1 k2 v : str) :
  k1 <> [] -> k2 <> [] -> last_not_word_pattern db k1 = true -> fits db k2 v = true ->
  conflict db (k1 ++ k2) v = true.
Proof.
  intros H1 H2 Hl Hf. unfold conflict. apply orb_true_intro. right.
  apply existsb_exists. exists (length k1). split.
  - apply in_seq. rewrite length_app. destruct k1, k2; try congruence. cbn. lia.
  - rewrite take_app_length, drop_app_length, Hl, Hf. reflexivity.
Qed.

(** No match begins inside a value that stands before a boundary. *)
Lemma no_match_in_value (k v1 v2 before post : str) (n : nat) :
  key_ok db k = true -> conflict db k (v1 ++ v2) = false ->
  v2 <> [] ->
  (v1 <> [] -> word_before db before = word_before db (rev v1)) ->
  word_after db post = false ->
  abbr_matcher db k before (v2 ++ post) = Some (S n) -> False.
Proof.
  intros Hk Hc Hne Hb Hpost Hm.
  apply abbr_match_facts in Hm as (_ & Hwb & Hci & Hwa); [|exact Hk].
  rewrite conflict_inside in Hc; [discriminate|exact Hne| |].
  - unfold start_ok. destruct (last v1) as [c|] eqn:El; [|reflexivity].
    apply last_Some in El as [v1' ->].
    rewrite Hb in Hwb by (destruct v1'; discriminate).
    rewrite rev_app_distr in Hwb. cbn in Hwb. rewrite Hwb. reflexivity.
  - apply (fits_sound k v2 post); assumption.
Qed.

(** No match that begins before a value reaches it. *)
Lemma no_match_into_value (k v q before post : str) (n : nat) :
  key_ok db k = true -> value_ok db v = true -> conflict db k v = false ->
  q <> [] -> word_before db (rev q) = false -> word_after db post = false ->
  abbr_matcher db k before (q ++ v ++ post) = Some (S n) ->
  (S n < length q)%nat.
Proof.
  intros Hk Hv Hc Hq Hlast Hpost Hm.
  apply abbr_match_facts in Hm as (Hn & _ & Hci & Hwa); [|exact Hk].
  rewrite Hn. destruct (Nat.lt_ge_cases (length k) (length q)) as [Hlt|Hge]; [exact Hlt|].
  exfalso.
  assert (word_after db (v ++ post) = true) as Hvw.
  { unfold value_ok in Hv. destruct v; [discriminate|exact Hv]. }
  rewrite <- (take_drop (length q) k) in Hci, Hwa, Hc.
  assert (length (take (length q) k) = length q) as Hl1 by (rewrite length_take; lia).
  remember (take (length q) k) as k1 eqn:Ek1. remember (drop (length q) k) as k2 eqn:Ek2.
  clear Ek1 Ek2.
  rewrite ci_starts_with_app in Hci by exact Hl1.
  apply andb_prop in Hci as [Hci1 Hci2].
  rewrite length_app, Hl1, <- drop_drop, drop_app_length in Hwa.
  destruct k2 as [|p2 k2'].
  { cbn [length] in Hwa. rewrite drop_0 in Hwa. congruence. }
  rewrite conflict_across in Hc; [discriminate| | discriminate | |].
  - intros E. apply Hq, length_zero_iff_nil. rewrite <- Hl1, E. reflexivity.
  - unfold last_not_word_pattern.
    pose proof (ci_starts_with_take db k1 q Hci1) as HF.
    rewrite Hl1, firstn_all in HF.
    destruct q as [|y q' _] using rev_ind; [congruence|].
    apply Forall2_app_inv_r in HF as (m1 & m2 & _ & HF2 & ->).
    inversion HF2 as [|p ? ? ? Hpc Hnil]; subst. inversion Hnil; subst.
    rewrite last_snoc. rewrite rev_app_distr in Hlast. cbn in Hlast.
    destruct (word_pattern db p) eqn:Ep; [|reflexivity].
    rewrite (word_pattern_sound db p y Ep Hpc) in Hlast. discriminate.
  - apply (fits_sound _ v post); assumption.
Qed.
End MatchFacts.

(** ** Substitutions that remember what they wrote

    Each character carries a mark: [true] when a substitution wrote it,
    [false] when it comes from the input.  The marked expansion runs the
    same patterns over the same characters and reports whether any match
    covered a character that an earlier substitution wrote. *)

Definition plain (s : str) : list (char * bool) := map (fun c => (c, false)) s.
Definition mark (v : str) : list (char * bool) := map (fun c => (c, true)) v.

Definition marked_out (v : str) (pieces : list (char * bool + list (char * bool)))
  : list (char * bool) :=
  concat (map (piece_out (fun _ => mark v)) pieces).

(** Some match of the scan covers written text. *)
Definition rewrites (pieces : list (char * bool + list (char * bool))) : bool :=
  existsb (fun p => match p with inr mt => existsb snd mt | inl _ => false end) pieces.

Fixpoint expand_all_marked (db : unicode_db) (l : list (str * str))
    (ms : list (char * bool)) : list (char * bool) * bool :=
  match l with
  | [] => (ms, false)
  | e :: l' =>
    let pieces := re_scan fst (abbr_matcher db e.1) [] 0 ms in
    let r := expand_all_marked db l' (marked_out e.2 pieces) in
    (r.1, rewrites pieces || r.2)
  end.

Lemma fst_plain (s : str) : map fst (plain s) = s.
Proof. unfold plain. rewrite map_map. apply map_id. Qed.

Lemma fst_mark (v : str) : map fst (mark v) = v.
Proof. unfold mark. rewrite map_map. apply map_id. Qed.

(** Without the marks, the marked scan is the scan of the program. *)
Lemma marked_scan_erase (m : matcher) (v : str) (ms : list (char * bool)) :
  forall before k,
    map fst (marked_out v (re_scan fst m before k ms))
    = concat (map (piece_out (fun _ => v)) (re_scan id m before k (map fst ms))).
Proof.
  unfold marked_out.
  induction ms as [|c r IH]; intros before k; [reflexivity|].
  cbn [map re_scan]. destruct k as [|k]; [|apply IH].
  rewrite map_id. cbn [id].
  destruct (m before (c.1 :: map fst r)) as [[|n]|];
    cbn [map concat piece_out]; rewrite map_app, IH; try reflexivity.
  rewrite fst_mark. reflexivity.
Qed.

Lemma expand_all_marked_erase (db : unicode_db) (l : list (str * str)) :
  forall ms,
    map fst (expand_all_marked db l ms).1
    = fold_left (expand_abbreviation db) l (map fst ms).
Proof.
  induction l as [|e l IH]; intros ms; [reflexivity|].
  cbn [expand_all_marked fold_left fst]. rewrite IH. f_equal.
  unfold expand_abbreviation, re_sub. apply marked_scan_erase.
Qed.

Section Blocked.
Variable db : unicode_db.
Variable V : list str.

(** After a written value: the end of the text, or an input character
    that is not a word character. *)
Definition closed (ms : list (char * bool)) : Prop :=
  match ms with
  | [] => True
  | (c, m) :: _ => m = false /\ is_word db c = false
  end.

(** The written values of a text are whole values of the table, each
    between two boundaries.  The flag says whether a value may begin
    here: whether the text before does not end in a word character. *)
Inductive blocked : bool -> list (char * bool) -> Prop :=
| blocked_nil b : blocked b []
| blocked_plain b c ms :
    blocked (negb (is_word db c)) ms -> blocked b ((c, false) :: ms)
| blocked_value v ms :
    In v V -> v <> [] -> closed ms -> blocked false ms ->
    blocked true (mark v ++ ms).

Lemma blocked_input (s : str) : forall b, blocked b (plain s).
Proof.
  induction s as [|c r IH]; intros b; [constructor|].
  cbn. constructor. apply IH.
Qed.

Lemma blocked_closed (b b' : bool) (ms : list (char * bool)) :
  closed ms -> blocked b ms -> blocked b' ms.
Proof.
  intros Hc Hb. destruct Hb as [b|b c ms Hb|v ms Hv Hne Hcl Hb].
  - constructor.
  - constructor. exact Hb.
  - destruct v as [|c v]; [congruence|]. cbn in Hc. destruct Hc. discriminate.
Qed.

(** The first [j] characters are input characters, or a written value
    begins among them. *)
Lemma blocked_split (j : nat) :
  forall ms b, blocked b ms -> (j <= length ms)%nat ->
    (exists q, take j ms = plain q
               /\ blocked (match last q with
                           | Some c => negb (is_word db c)
                           | None => b
                           end) (drop j ms))
    \/ (exists q v rest,
           ms = plain q ++ mark v ++ rest /\ (length q < j)%nat
           /\ In v V /\ v <> [] /\ closed rest /\ blocked false rest
           /\ (q = [] -> b = true)
           /\ (q <> [] -> word_before db (rev q) = false)).
Proof.
  induction j as [|j IH]; intros ms b Hb Hj.
  { left. exists []. split; [reflexivity|exact Hb]. }
  destruct Hb as [b|b c ms Hb|v ms Hv Hne Hcl Hb].
  - cbn in Hj. lia.
  - cbn in Hj. destruct (IH ms _ Hb ltac:(lia)) as
        [(q & Hq & Hd)|(q & v & rest & -> & Hl & Hv & Hne & Hcl & Hr & Hq0 & Hq1)].
    + left. exists (c :: q). split; [cbn; rewrite Hq; reflexivity|].
      cbn [drop]. rewrite last_cons. destruct (last q); exact Hd.
    + right. exists (c :: q), v, rest.
      split; [reflexivity|]. split; [cbn; lia|]. split; [exact Hv|].
      split; [exact Hne|]. split; [exact Hcl|]. split; [exact Hr|].
      split; [discriminate|]. intros _.
      destruct q as [|y q' _] using rev_ind.
      * cbn. specialize (Hq0 eq_refl). apply negb_true_iff, Hq0.
      * cbn [rev]. rewrite rev_app_distr. cbn.
        specialize (Hq1 ltac:(destruct q'; discriminate)).
        rewrite rev_app_distr in Hq1. exact Hq1.
  - right. exists [], v, ms.
    split; [reflexivity|]. split; [cbn; lia|]. split; [exact Hv|].
    split; [exact Hne|]. split; [exact Hcl|]. split; [exact Hb|].
    split; [reflexivity|]. congruence.
Qed.
End Blocked.

Section MarkedScan.
Variable db : unicode_db.
Variable V : list str.
Variable k v_new : str.
Hypothesis Hk : key_ok db k = true.
Hypothesis HV : forall v, In v V -> value_ok db v = true /\ conflict db k v = false.
Hypothesis Hnew : In v_new V.

Lemma value_nonempty (v : str) : In v V -> v <> [].
Proof. intros [H _]%HV. destruct v; [discriminate|discriminate]. Qed.

Lemma closed_word_after (ms : list (char * bool)) :
  closed db ms -> word_after db (map fst ms) = false.
Proof. destruct ms as [|[c m] ms]; [reflexivity|]. cbn. intros [_ H]. exact H. Qed.

Lemma blocked_word_after (b : bool) (ms : list (char * bool)) :
  blocked db V b ms -> word_after db (map fst ms) = false -> closed db ms.
Proof.
  intros Hb Hw. destruct Hb as [b|b c ms Hb|v ms Hv Hne Hcl Hb].
  - exact I.
  - cbn in Hw |- *. split; [reflexivity|exact Hw].
  - exfalso. destruct (HV v Hv) as [Hvo _]. destruct v as [|c v]; [congruence|].
    cbn in Hw, Hvo. congruence.
Qed.

(** The scan walks through a written value without a match. *)
Lemma scan_value (v2 : str) :
  forall v1 before ms,
    In (v1 ++ v2) V -> closed db ms ->
    re_scan fst (abbr_matcher db k) (rev v1 ++ before) 0 (mark v2 ++ ms)
    = map inl (mark v2)
        ++ re_scan fst (abbr_matcher db k) (rev (v1 ++ v2) ++ before) 0 ms.
Proof.
  induction v2 as [|c v2 IH]; intros v1 before ms Hv Hcl.
  { rewrite app_nil_r. reflexivity. }
  cbn [mark map app re_scan]. change (map (fun c => (c, true)) v2) with (mark v2).
  rewrite map_app, fst_mark. cbn [fst].
  assert (match abbr_matcher db k (rev v1 ++ before) (c :: v2 ++ map fst ms) with
          | Some (S n) => False
          | _ => True
          end) as Hno.
  { destruct (abbr_matcher db k _ _) as [[|n]|] eqn:Em; try exact I.
    destruct (HV _ Hv) as [_ Hc].
    apply (no_match_in_value db k v1 (c :: v2) (rev v1 ++ before) (map fst ms) n Hk Hc);
      [discriminate| |apply closed_word_after, Hcl|exact Em].
    intros Hne. destruct v1 as [|y t _] using rev_ind; [congruence|].
    rewrite rev_app_distr. reflexivity. }
  specialize (IH (v1 ++ [c]) before ms).
  rewrite rev_app_distr, <- !app_assoc in IH. cbn [rev app] in IH.
  destruct (abbr_matcher db k _ _) as [[|n]|]; [| contradiction |];
    cbn [app]; f_equal; apply IH; assumption.
Qed.

Lemma rewrites_app (p1 p2 : list (char * bool + list (char * bool))) :
  rewrites (p1 ++ p2) = rewrites p1 || rewrites p2.
Proof. apply existsb_app. Qed.

Lemma rewrites_inl (l : list (char * bool)) : rewrites (map inl l) = false.
Proof. induction l; [reflexivity|exact IHl]. Qed.

Lemma marked_out_app (p1 p2 : list (char * bool + list (char * bool))) :
  marked_out v_new (p1 ++ p2) = marked_out v_new p1 ++ marked_out v_new p2.
Proof. unfold marked_out. rewrite map_app, concat_app. reflexivity. Qed.

Lemma marked_out_inl (l : list (char * bool)) : marked_out v_new (map inl l) = l.
Proof. induction l as [|x l IH]; [reflexivity|]. cbn. f_equal. exact IH. Qed.

Lemma plain_unmarked (q : str) : existsb snd (plain q) = false.
Proof. induction q; [reflexivity|assumption]. Qed.

(** One substitution over a text whose written values are whole: no
    match covers written text, and the values of the result are whole. *)
Lemma scan_blocked (n : nat) :
  forall (ms : list (char * bool)) (b : bool) (before : str),
    (length ms <= n)%nat ->
    blocked db V b ms ->
    (b = true -> word_before db before = false) ->
    let pieces := re_scan fst (abbr_matcher db k) before 0 ms in
    rewrites pieces = false
    /\ blocked db V (negb (word_before db before)) (marked_out v_new pieces)
    /\ (closed db ms -> closed db (marked_out v_new pieces)).
Proof.
  induction n as [|n IH]; intros ms b before Hlen Hb Hctx pieces.
  { destruct ms; [|cbn in Hlen; lia]. cbn.
    split; [reflexivity|]. split; [constructor|trivial]. }
  subst pieces. destruct Hb as [b|b c ms Hb|v ms Hv Hne Hcl Hb].
  - cbn. split; [reflexivity|]. split; [constructor|trivial].
  - cbn [re_scan map fst]. cbn in Hlen.
    destruct (abbr_matcher db k before (c :: map fst ms)) as [[|j]|] eqn:Em.
    + destruct (IH ms _ (c :: before) ltac:(lia) Hb) as (H1 & H2 & H3).
      { cbn. intros H. apply negb_true_iff, H. }
      split; [exact H1|]. split.
      * cbn. constructor. exact H2.
      * intros Hc. cbn. exact Hc.
    + pose proof (abbr_match_facts db k before _ j Hk Em) as (Hj & Hwb & Hci & Hwa).
      pose proof (ci_starts_with_length db _ _ Hci) as Hkl.
      cbn [length] in Hkl. rewrite length_map in Hkl.
      destruct (blocked_split db V (S j) ((c, false) :: ms) b
                  (blocked_plain db V b c ms Hb) ltac:(cbn; lia))
        as [(q & Hq & Hd)|(q & v & rest & Ems & Hl & Hv & Hne & Hcl & Hr & Hq0 & Hq1)].
      2:{ exfalso.
          assert (q <> []) as Hqn.
          { intros ->. destruct v as [|y v]; [congruence|]. cbn in Ems. congruence. }
          assert (c :: map fst ms = q ++ v ++ map fst rest) as Echars.
          { change (c :: map fst ms) with (map fst ((c, false) :: ms)).
            rewrite Ems, !map_app, fst_plain, fst_mark. reflexivity. }
          rewrite Echars in Em. destruct (HV v Hv) as [Hvo Hc].
          pose proof (no_match_into_value db k v q before (map fst rest) j Hk Hvo Hc Hqn
                        (Hq1 Hqn) (closed_word_after _ Hcl) Em).
          lia. }
      assert (length q = S j) as Hlq.
      { apply (f_equal length) in Hq. unfold plain in Hq.
        rewrite length_take, length_map in Hq. cbn [length] in Hq. lia. }
      assert (map fst (take (S j) ((c, false) :: ms)) = q) as Hchars
        by (rewrite Hq; apply fst_plain).
      set (before' := rev (map fst (take j ms)) ++ c :: before).
      assert (before' = rev q ++ before) as Eb.
      { unfold before'. rewrite <- Hchars. cbn [take map rev fst].
        rewrite <- app_assoc. reflexivity. }
      assert (re_scan fst (abbr_matcher db k) (c :: before) j ms
              = re_scan fst (abbr_matcher db k) before' 0 (drop j ms)) as Escan.
      { rewrite <- (take_drop j ms) at 1.
        assert (length (take j ms) = j) as Ht by (rewrite length_take; lia).
        rewrite <- Ht at 1. apply re_scan_skip. }
      cbn [drop] in Hd.
      assert (word_before db before' = match last q with
                                       | Some c' => is_word db c'
                                       | None => false
                                       end) as Ewb.
      { rewrite Eb. destruct q as [|y t _] using rev_ind; [discriminate|].
        rewrite rev_app_distr, last_snoc. reflexivity. }
      assert (closed db (drop j ms)) as Hclosed.
      { apply (blocked_word_after _ _ Hd).
        rewrite <- Hj in Hwa. cbn [drop] in Hwa. rewrite <- skipn_map. exact Hwa. }
      destruct (IH (drop j ms) _ before' ltac:(rewrite length_drop; lia) Hd)
        as (H1 & H2 & H3).
      { rewrite Ewb. destruct (last q); [intros H; apply negb_true_iff, H|reflexivity]. }
      rewrite Escan. split; [|split].
      * cbn [rewrites existsb]. rewrite Hq, plain_unmarked. exact H1.
      * rewrite Hwb. cbn [negb]. unfold marked_out. cbn [map concat piece_out].
        apply blocked_value; [exact Hnew|apply value_nonempty, Hnew|apply H3, Hclosed|].
        apply (blocked_closed db V _ false _ (H3 Hclosed) H2).
      * intros [_ Hcw]. exfalso.
        destruct k as [|p k']; [discriminate|]. cbn in Hci.
        apply andb_prop in Hci as [Hpc _].
        apply andb_prop in Hk as [Hp _]. cbn in Hp.
        rewrite (word_pattern_sound db p c Hp Hpc) in Hcw. discriminate.
    + destruct (IH ms _ (c :: before) ltac:(lia) Hb) as (H1 & H2 & H3).
      { cbn. intros H. apply negb_true_iff, H. }
      split; [exact H1|]. split.
      * cbn. constructor. exact H2.
      * intros Hc. cbn. exact Hc.
  - pose proof (scan_value v [] before ms Hv Hcl) as Hs. cbn [rev app] in Hs.
    rewrite Hs. rewrite rewrites_app, rewrites_inl, marked_out_app, marked_out_inl.
    assert (length (mark v ++ ms) = length v + length ms)%nat as Hl
      by (unfold mark; rewrite length_app, length_map; reflexivity).
    assert (length v <> 0)%nat as Hv0 by (destruct v; [congruence|discriminate]).
    destruct (IH ms false (rev v ++ before) ltac:(lia) Hb ltac:(discriminate))
      as (H1 & H2 & H3).
    split; [exact H1|]. split.
    + rewrite (Hctx eq_refl). cbn [negb].
      apply blocked_value; [exact Hv|exact Hne|apply H3, Hcl|].
      apply (blocked_closed db V _ false _ (H3 Hcl) H2).
    + intros Hc. exfalso. destruct v as [|y v]; [congruence|].
      cbn in Hc. destruct Hc. discriminate.
Qed.
End MarkedScan.

Section NoDoubleSubstitution.
Variable db : unicode_db.

Lemma expand_all_marked_clean (V : list str) (l : list (str * str)) :
  (forall e, In e l -> key_ok db e.1 = true /\ In e.2 V
                       /\ forall v, In v V ->
                            value_ok db v = true /\ conflict db e.1 v = false) ->
  forall ms, blocked db V true ms -> (expand_all_marked db l ms).2 = false.
Proof.
  induction l as [|e l IH]; intros Hl ms Hb; [reflexivity|].
  cbn [expand_all_marked snd].
  destruct (Hl e (or_introl eq_refl)) as (Hk & Hnew & HV).
  destruct (scan_blocked db V e.1 e.2 Hk HV Hnew (length ms) ms true []
              (Nat.le_refl _) Hb (fun _ => eq_refl)) as (H1 & H2 & _).
  rewrite H1. cbn [orb]. apply IH; [|exact H2].
  intros e' He'. apply Hl. right. exact He'.
Qed.

Lemma table_ok_spec (l : list (str * str)) :
  table_ok db l = true ->
  forall e, In e l ->
    key_ok db e.1 = true /\ In e.2 (map snd l)
    /\ forall v, In v (map snd l) ->
         value_ok db v = true /\ conflict db e.1 v = false.
Proof.
  unfold table_ok. intros [H1 H2]%andb_prop e He.
  rewrite forallb_forall in H1, H2.
  pose proof (H1 e He) as [Hk _]%andb_prop.
  split; [exact Hk|]. split; [apply in_map, He|].
  intros v (e' & <- & He')%in_map_iff.
  pose proof (H1 e' He') as [_ Hv]%andb_prop. split; [exact Hv|].
  pose proof (H2 e He) as Hc. rewrite forallb_forall in Hc.
  apply negb_true_iff, (Hc e' He').
Qed.
End NoDoubleSubstitution.

(** Longest keys first. *)
Fixpoint descending (l : list nat) : bool :=
  match l with
  | a :: (b :: _) as r => (b <=? a)%nat && descending r
  | _ => true
  end.

(** * Further properties of the code *)

(** ** [_remove_long_symbol_sequences] *)

Lemma squeeze_run_bound (c : char) (s : str) :
  c <> 0x0A -> forall i, (run_length (N.eqb c) (drop i (squeeze s)) <= 3)%nat.
Proof.
  intros Hc. induction s as [|x r IH]; intros i.
  { destruct i; cbn; lia. }
  cbn [squeeze]. destruct (negb (x =? 10) && starts_with [x; x; x] (squeeze r)) eqn:E;
    [apply IH|].
  destruct i as [|i]; [|apply IH]. cbn [drop run_length].
  destruct (N.eqb_spec c x) as [<-|]; [|lia].
  destruct (N.eqb_spec c 10); [congruence|]. cbn [negb andb] in E.
  rewrite starts_with_run in E. apply Nat.leb_gt in E. lia.
Qed.

(** After the collapse no character other than a line feed stands four
    times in a row, wherever one looks in the text. *)
Theorem remove_long_no_run_of_four (s : str) (c : char) (i : nat) :
  c <> 0x0A ->
  (run_length (N.eqb c) (drop i (_remove_long_symbol_sequences s)) <= 3)%nat.
Proof. intros Hc. rewrite remove_long_squeeze. apply squeeze_run_bound, Hc. Qed.

Lemma remove_long_no_run_of_four_witness :
  (run_length (N.eqb 0x21)
     (drop 6 (_remove_long_symbol_sequences (u "Привет!!!!!!! Ура!!!!")))
   <= 3)%nat.
Proof. apply remove_long_no_run_of_four. discriminate. Defined.

(** Collapsing twice is collapsing once. *)
Theorem remove_long_idempotent (s : str) :
  _remove_long_symbol_sequences (_remove_long_symbol_sequences s)
  = _remove_long_symbol_sequences s.
Proof. rewrite !remove_long_squeeze. apply squeeze_idempotent. Qed.

Lemma squeeze_length (s : str) : (length (squeeze s) <= length s)%nat.
Proof.
  induction s as [|c r IH]; [reflexivity|].
  cbn [squeeze]. destruct (_ && _); cbn [length]; lia.
Qed.

Lemma squeeze_sub (s : str) (x : char) : x ∈ squeeze s -> x ∈ s.
Proof.
  induction s as [|c r IH]; intros H; [exact H|].
  cbn [squeeze] in H. destruct (_ && _).
  - right. apply IH, H.
  - apply elem_of_cons in H as [->|H]; [left|right; apply IH, H].
Qed.

(** The collapse only removes repetitions: the text does not grow, its
    first and last characters stay, and it holds the same characters as
    before. *)
Theorem remove_long_keeps (s : str) :
  (length (_remove_long_symbol_sequences s) <= length s)%nat
  /\ head (_remove_long_symbol_sequences s) = head s
  /\ last (_remove_long_symbol_sequences s) = last s
  /\ forall x : char, x ∈ _remove_long_symbol_sequences s <-> x ∈ s.
Proof.
  rewrite remove_long_squeeze.
  split; [apply squeeze_length|]. split; [apply squeeze_head|].
  split; [apply squeeze_last|]. intros x. split; [apply squeeze_sub|apply squeeze_keeps].
Qed.

(** The dot of the pattern does not match a line feed: no line feed is
    ever removed, however many stand in a row. *)
Theorem remove_long_keeps_line_feeds (s : str) :
  length (filter (fun c => c = 0x0A) (_remove_long_symbol_sequences s))
  = length (filter (fun c => c = 0x0A) s).
Proof.
  rewrite remove_long_squeeze. induction s as [|c r IH]; [reflexivity|].
  cbn [squeeze]. destruct (N.eqb_spec c 10) as [->|Hc]; cbn [negb andb].
  - rewrite !filter_cons. rewrite !decide_True by reflexivity. cbn. rewrite IH. reflexivity.
  - destruct (starts_with _ _).
    + rewrite filter_cons, decide_False by exact Hc. exact IH.
    + rewrite !filter_cons, !decide_False by exact Hc. exact IH.
Qed.

(** ** [_is_only_symbols] and the empty canonical text *)

Lemma existsb_remove_char (p : char -> bool) (c : char) (s : str) :
  p c = false -> existsb p (remove_char c s) = existsb p s.
Proof.
  intros Hc. unfold remove_char. induction s as [|x r IH]; [reflexivity|].
  rewrite filter_cons. destruct (decide (x <> c)) as [Hne|He]; cbn [existsb].
  - rewrite IH. reflexivity.
  - assert (x = c) as -> by (destruct (N.eq_dec x c); [assumption|contradiction]).
    rewrite Hc, IH. reflexivity.
Qed.

(** Removing the spaces first changes nothing: a text is only symbols
    exactly when it holds no alphanumeric character. *)
Theorem is_only_symbols_iff (db : unicode_db) (text : str) :
  _is_only_symbols db text = negb (existsb (isalnum db) text).
Proof.
  unfold _is_only_symbols.
  rewrite <- (existsb_remove_char (isalnum db) 0x20 text) by reflexivity.
  destruct (remove_char 32 text); reflexivity.
Qed.

Lemma isalnum_nonspace (db : unicode_db) (c : char) :
  isalnum db c = true -> isspace c = false.
Proof.
  intros Ha. destruct (isspace c) eqn:E; [|reflexivity].
  pose proof (space_forall (fun c => negb (isalnum db c)) ltac:(vm_compute; reflexivity) c E) as H.
  cbn beta in H. rewrite Ha in H. discriminate.
Qed.

Lemma lstrip_keeps (s : str) (c : char) :
  c ∈ s -> isspace c = false -> c ∈ lstrip s.
Proof.
  induction s as [|x r IH]; intros H Hc; [exact H|].
  cbn [lstrip]. destruct (isspace x) eqn:Ex; [|exact H].
  apply elem_of_cons in H as [->|H]; [congruence|apply IH; assumption].
Qed.

Lemma strip_keeps (s : str) (c : char) :
  c ∈ s -> isspace c = false -> c ∈ strip s.
Proof.
  intros H Hc. unfold strip, rstrip.
  apply elem_of_rev, lstrip_keeps; [|exact Hc].
  apply elem_of_rev, lstrip_keeps; assumption.
Qed.

Lemma not_blank (s : str) (c : char) :
  c ∈ s -> isspace c = false -> is_blank s = false.
Proof.
  intros H Hc. unfold is_blank. pose proof (strip_keeps s c H Hc) as Hs.
  destruct (strip s); [inversion Hs|reflexivity].
Qed.

Lemma split_ws_aux_nonempty (s cur : str) :
  cur <> [] \/ (exists c, c ∈ s /\ isspace c = false) -> split_ws_aux cur s <> [].
Proof.
  revert cur. induction s as [|x r IH]; intros cur H; cbn [split_ws_aux].
  - destruct H as [H|(c & Hc & _)]; [|inversion Hc].
    destruct cur; [congruence|discriminate].
  - destruct (isspace x) eqn:Ex.
    + destruct cur as [|y cur]; [|discriminate].
      apply IH. right. destruct H as [H|(c & Hc & Hs)]; [congruence|].
      apply elem_of_cons in Hc as [->|Hc]; [congruence|]. eauto.
    + apply IH. left. discriminate.
Qed.

Lemma join_nonempty (l : list str) : is_word_list l -> l <> [] -> join sp l <> [].
Proof.
  intros Hl Hne. pose proof (join_words_normal l Hl Hne) as H.
  destruct (join sp l); [discriminate|discriminate].
Qed.

Lemma after_sanitize_nonempty (db : unicode_db) (self : MultilingualTTS) (text : str) :
  folded (yo_dictionary self) ->
  enable_accent self = false \/ accentizer self = None ->
  (exists c, c ∈ text /\ isspace c = false) ->
  ws_normal (after_sanitize db self text) = true.
Proof.
  intros Hd Hacc Hc.
  assert (split_ws text <> []) as Hsplit by (apply split_ws_aux_nonempty; right; exact Hc).
  assert (join sp (split_ws text) <> []) as Hj.
  { apply join_nonempty; [apply split_ws_aux_words; reflexivity|exact Hsplit]. }
  destruct (join_split_normal text) as [E|Hn]; [congruence|].
  destruct (after_sanitize_normal db self text Hd Hacc) as [E|E]; [|exact E].
  exfalso. revert E. unfold after_sanitize.
  set (lang := detect_language db text).
  assert (forall t, match lang with
                    | russian => if enable_accent self then add_accents self t else t
                    | english => t
                    end = t) as Hskip.
  { intros t. destruct lang; [|reflexivity].
    destruct Hacc as [->| Hn']; [reflexivity|].
    unfold add_accents. rewrite Hn'. destruct (enable_accent self); reflexivity. }
  rewrite Hskip.
  pose proof (normalize_text_wsok db self _ lang true Hd Hn) as Hw.
  destruct (normalize_text db self (join sp (split_ws text)) lang) as [|c0 t0];
    [discriminate|].
  pose proof (terminate_normal (c0 :: t0) Hw) as Ht.
  intros E. rewrite E in Ht. discriminate.
Qed.

(** With the accent stage skipped and a dictionary the loader built,
    there is nothing to synthesize exactly when the input holds no
    alphanumeric character. *)
Theorem nothing_to_say_iff
    (db : unicode_db) (self : MultilingualTTS) (lines : list str) (text : str) :
  _load_dictionary lines = Some (yo_dictionary self) ->
  enable_accent self = false \/ accentizer self = None ->
  (preprocess_text_for_tts db self text = [] <-> existsb (isalnum db) text = false).
Proof.
  intros Hl Hacc. apply load_dictionary_folded in Hl. split.
  - intros He. destruct (existsb (isalnum db) text) eqn:Ex; [|reflexivity]. exfalso.
    apply existsb_exists in Ex as (c & Hc & Ha). apply list_elem_of_In in Hc.
    pose proof (isalnum_nonspace db c Ha) as Hs.
    pose proof (strip_keeps text c Hc Hs) as Hcs.
    rewrite preprocess_factor in He. unfold sanitize in He.
    destruct (strip text) as [|c0 t0] eqn:Es; [inversion Hcs|].
    rewrite is_only_symbols_iff in He.
    assert (existsb (isalnum db) (c0 :: t0) = true) as Hex
      by (apply existsb_exists; exists c; split; [apply list_elem_of_In, Hcs|exact Ha]).
    rewrite Hex in He. cbn [negb] in He.
    rewrite remove_long_squeeze in He.
    pose proof (squeeze_keeps _ c Hcs) as Hcq.
    rewrite (not_blank _ c Hcq Hs) in He.
    destruct (squeeze (c0 :: t0)) as [|c1 t1] eqn:Eq; [inversion Hcq|].
    pose proof (after_sanitize_nonempty db self (c1 :: t1) Hl Hacc
                  (ex_intro _ c (conj Hcq Hs))) as Hn.
    rewrite He in Hn. discriminate.
  - intros H. apply symbol_only_is_empty.
    rewrite existsb_remove_char by reflexivity. exact H.
Qed.

Lemma nothing_to_say_iff_witness :
  preprocess_text_for_tts basic_db sample_tts (u " ?!.. ") = []
  <-> existsb (isalnum basic_db) (u " ?!.. ") = false.
Proof.
  apply (nothing_to_say_iff basic_db sample_tts []); [reflexivity|right; reflexivity].
Defined.

Lemma lstrip_spaces (w s : str) :
  forallb isspace w = true -> lstrip (w ++ s) = lstrip s.
Proof.
  induction w as [|c w IH]; intros H; [reflexivity|].
  cbn in H |- *. apply andb_prop in H as [-> H]. apply IH, H.
Qed.

Lemma lstrip_app_keep (s w : str) :
  lstrip s <> [] -> lstrip (s ++ w) = lstrip s ++ w.
Proof.
  induction s as [|c s IH]; intros H; [cbn in H; congruence|].
  cbn in H |- *. destruct (isspace c); [apply IH, H|reflexivity].
Qed.

Lemma lstrip_app_blank (s w : str) :
  lstrip s = [] -> lstrip (s ++ w) = lstrip w.
Proof.
  induction s as [|c s IH]; intros H; [reflexivity|].
  cbn in H |- *. destruct (isspace c); [apply IH, H|discriminate].
Qed.

Lemma rstrip_spaces (s w : str) :
  forallb isspace w = true -> rstrip (s ++ w) = rstrip s.
Proof.
  intros H. unfold rstrip. rewrite rev_app_distr, lstrip_spaces; [reflexivity|].
  rewrite forallb_forall in H |- *. intros x Hx. apply H, in_rev, Hx.
Qed.

Lemma lstrip_all_spaces (w : str) : forallb isspace w = true -> lstrip w = [].
Proof.
  intros H. rewrite <- (app_nil_r w). rewrite lstrip_spaces by exact H. reflexivity.
Qed.

Lemma strip_surrounded (w1 text w2 : str) :
  forallb isspace w1 = true -> forallb isspace w2 = true ->
  strip (w1 ++ text ++ w2) = strip text.
Proof.
  intros H1 H2. unfold strip. rewrite lstrip_spaces by exact H1.
  destruct (lstrip text) as [|c t] eqn:E.
  - rewrite lstrip_app_blank by exact E. rewrite lstrip_all_spaces by exact H2. reflexivity.
  - rewrite lstrip_app_keep by (rewrite E; discriminate). rewrite E.
    apply rstrip_spaces, H2.
Qed.

(** White space around the input does not count: the canonical text is
    the same with and without it. *)
Theorem preprocess_ignores_outer_space
    (db : unicode_db) (self : MultilingualTTS) (w1 text w2 : str) :
  forallb isspace w1 = true -> forallb isspace w2 = true ->
  preprocess_text_for_tts db self (w1 ++ text ++ w2)
  = preprocess_text_for_tts db self text.
Proof.
  intros H1 H2. unfold preprocess_text_for_tts.
  rewrite (strip_surrounded w1 text w2 H1 H2). reflexivity.
Qed.

Lemma preprocess_ignores_outer_space_witness :
  preprocess_text_for_tts basic_db sample_tts (u "   " ++ u "Привет" ++ [0x0A; 0x09])
  = preprocess_text_for_tts basic_db sample_tts (u "Привет").
Proof. apply preprocess_ignores_outer_space; reflexivity. Defined.

(** ** [synthesize_speech] *)

Definition output_file (lang : language) (t : N) : str :=
  u "audio_output/russian_" ++ language_name lang ++ u "_" ++ str_of_int t ++ u ".wav".

Lemma synthesize_cases (db : unicode_db) (self : MultilingualTTS) (w : world) (a : synth_args) :
  (synthesize_speech db self w a = (None, [])
   /\ (preprocess_text_for_tts db self (arg_text a) = []
       \/ russian_tts self = None \/ mkdir_ok w = false))
  \/ exists model p,
       preprocess_text_for_tts db self (arg_text a) <> []
       /\ russian_tts self = Some model /\ mkdir_ok w = true
       /\ gen_text p = preprocess_text_for_tts db self (arg_text a)
       /\ ref_file p = arg_ref_audio_path a
       /\ ref_text p = match arg_ref_text a with
                       | [] => DEFAULT_VOICE_TRANSCRIPTION
                       | _ => arg_ref_text a
                       end
       /\ synthesize_speech db self w a
          = (if model p
             then Some (output_file (detect_language db (gen_text p)) (time_ms w))
             else None,
             [Infer p]).
Proof.
  unfold synthesize_speech.
  destruct (preprocess_text_for_tts db self (arg_text a)) as [|c t] eqn:Et; [left; auto|].
  destruct (russian_tts self) as [model|] eqn:Em; [|left; auto].
  destruct (mkdir_ok w) eqn:Ew; [|left; auto]. cbn [negb].
  right.
  match goal with |- context [Infer ?q] => exists model, q end.
  split; [discriminate|]. split; [reflexivity|].
  split; [reflexivity|]. cbn [gen_text ref_file ref_text].
  split; [reflexivity|]. split; [reflexivity|].
  split; [destruct (arg_ref_text a); reflexivity|].
  destruct (model _); reflexivity.
Qed.

(** No call reaches the engine exactly when the canonical text is empty,
    no model is loaded or the output directory cannot be made; the
    result is then [None]. *)
Theorem synthesize_without_call
    (db : unicode_db) (self : MultilingualTTS) (w : world) (a : synth_args) :
  (snd (synthesize_speech db self w a) = []
   <-> preprocess_text_for_tts db self (arg_text a) = []
       \/ russian_tts self = None \/ mkdir_ok w = false)
  /\ (snd (synthesize_speech db self w a) = [] -> fst (synthesize_speech db self w a) = None).
Proof.
  destruct (synthesize_cases db self w a)
    as [[E H]|(model & p & Ht & Hm & Hw & _ & _ & _ & E)]; rewrite E; cbn [fst snd].
  - split; [split; auto|reflexivity].
  - split; [|discriminate]. split; [discriminate|].
    intros [H|[H|H]]; congruence.
Qed.

(** The engine is called at most once, and what it is given to speak is
    the canonical text of the input, which is not empty; the reference
    file is the caller's; the reference transcription it gets is never
    empty: it is the caller's when there is one and the default
    transcription otherwise. *)
Theorem synthesize_engine_call
    (db : unicode_db) (self : MultilingualTTS) (w : world) (a : synth_args)
    (p : infer_params) :
  Infer p ∈ snd (synthesize_speech db self w a) ->
  snd (synthesize_speech db self w a) = [Infer p]
  /\ gen_text p = preprocess_text_for_tts db self (arg_text a)
  /\ gen_text p <> []
  /\ ref_file p = arg_ref_audio_path a
  /\ ref_text p <> []
  /\ (arg_ref_text a <> [] -> ref_text p = arg_ref_text a)
  /\ (arg_ref_text a = [] -> ref_text p = DEFAULT_VOICE_TRANSCRIPTION).
Proof.
  destruct (synthesize_cases db self w a)
    as [[E H]|(model & p' & Ht & Hm & Hw & Hg & Hf & Hr & E)]; rewrite E; cbn [fst snd].
  - intros Hin. inversion Hin.
  - intros Hin. apply list_elem_of_singleton in Hin. injection Hin as ->.
    split; [reflexivity|]. split; [exact Hg|]. split; [rewrite Hg; exact Ht|].
    split; [exact Hf|]. rewrite Hr. split; [|split].
    + destruct (arg_ref_text a); discriminate.
    + destruct (arg_ref_text a); congruence.
    + intros ->. reflexivity.
Qed.

Lemma synthesize_engine_call_witness :
  let a := sample_args (u "Привет! Как дела?") in
  snd (synthesize_speech basic_db sample_tts sample_world a) = [Infer sample_params]
  /\ gen_text sample_params = preprocess_text_for_tts basic_db sample_tts (arg_text a)
  /\ gen_text sample_params <> []
  /\ ref_file sample_params = arg_ref_audio_path a
  /\ ref_text sample_params <> []
  /\ (arg_ref_text a <> [] -> ref_text sample_params = arg_ref_text a)
  /\ (arg_ref_text a = [] -> ref_text sample_params = DEFAULT_VOICE_TRANSCRIPTION).
Proof.
  apply (synthesize_engine_call basic_db sample_tts sample_world
           (sample_args (u "Привет! Как дела?")) sample_params).
  vm_compute. apply list_elem_of_here.
Defined.

Lemma synthesize_path_cases
    (db : unicode_db) (self : MultilingualTTS) (w : world) (a : synth_args) (path : str) :
  fst (synthesize_speech db self w a) = Some path ->
  exists model p,
    russian_tts self = Some model /\ model p = true
    /\ snd (synthesize_speech db self w a) = [Infer p]
    /\ path = output_file
                (detect_language db (preprocess_text_for_tts db self (arg_text a)))
                (time_ms w).
Proof.
  destruct (synthesize_cases db self w a)
    as [[E H]|(model & p & Ht & Hm & Hw & Hg & _ & _ & E)]; rewrite E; cbn [fst snd];
    [discriminate|].
  destruct (model p) eqn:Ep; [|discriminate]. intros [= <-].
  exists model, p. rewrite Hg. auto.
Qed.

(** A path is returned only after one call that the engine completed,
    and it names a file made of the language of the canonical text and
    the clock. *)
Theorem synthesize_path
    (db : unicode_db) (self : MultilingualTTS) (w : world) (a : synth_args) (path : str) :
  fst (synthesize_speech db self w a) = Some path ->
  exists model p,
    russian_tts self = Some model /\ model p = true
    /\ snd (synthesize_speech db self w a) = [Infer p]
    /\ path = output_file
                (detect_language db (preprocess_text_for_tts db self (arg_text a)))
                (time_ms w).
Proof. apply synthesize_path_cases. Qed.

Lemma synthesize_path_witness :
  exists model p,
    russian_tts sample_tts = Some model /\ model p = true
    /\ snd (synthesize_speech basic_db sample_tts sample_world (sample_args (u "Привет")))
       = [Infer p]
    /\ u "audio_output/russian_russian_1700000000000.wav"
       = output_file
           (detect_language basic_db
              (preprocess_text_for_tts basic_db sample_tts (arg_text (sample_args (u "Привет")))))
           (time_ms sample_world).
Proof.
  apply (synthesize_path basic_db sample_tts sample_world (sample_args (u "Привет"))).
  vm_compute. reflexivity.
Defined.

Lemma uint_chars_inj (d e : Decimal.uint) : uint_chars d = uint_chars e -> d = e.
Proof.
  revert e. induction d; intros e H; destruct e; cbn in H;
    try discriminate; try reflexivity;
    injection H as H; f_equal; apply IHd, H.
Qed.

Lemma str_of_int_inj (m n : N) : str_of_int m = str_of_int n -> m = n.
Proof.
  unfold str_of_int. intros H%uint_chars_inj.
  apply DecimalN.Unsigned.to_uint_inj, H.
Qed.

Lemma language_name_inj (l1 l2 : language) (r1 r2 : str) :
  language_name l1 ++ r1 = language_name l2 ++ r2 -> l1 = l2 /\ r1 = r2.
Proof.
  destruct l1, l2; intros H; try (split; [reflexivity|]);
    try (vm_compute in H; congruence).
Qed.

Lemma output_file_inj (l1 l2 : language) (t1 t2 : N) :
  output_file l1 t1 = output_file l2 t2 -> l1 = l2 /\ t1 = t2.
Proof.
  unfold output_file. intros H. apply app_inv_head in H.
  apply language_name_inj in H as [-> H]. split; [reflexivity|].
  apply app_inv_head in H. apply app_inv_tail in H.
  apply str_of_int_inj, H.
Qed.

(** Two calls return the same path exactly when they read the same
    millisecond from the clock and speak the same language: calls at
    different times never write to the same file. *)
Theorem synthesize_paths_differ
    (db : unicode_db) (self1 self2 : MultilingualTTS) (w1 w2 : world)
    (a1 a2 : synth_args) (path1 path2 : str) :
  fst (synthesize_speech db self1 w1 a1) = Some path1 ->
  fst (synthesize_speech db self2 w2 a2) = Some path2 ->
  (path1 = path2
   <-> time_ms w1 = time_ms w2
       /\ detect_language db (preprocess_text_for_tts db self1 (arg_text a1))
          = detect_language db (preprocess_text_for_tts db self2 (arg_text a2))).
Proof.
  intros (m1 & p1 & _ & _ & _ & ->)%synthesize_path_cases
         (m2 & p2 & _ & _ & _ & ->)%synthesize_path_cases.
  split.
  - intros [H1 H2]%output_file_inj. auto.
  - intros [-> ->]. reflexivity.
Qed.

Lemma synthesize_paths_differ_witness :
  u "audio_output/russian_russian_1700000000000.wav"
  = u "audio_output/russian_english_1700000000001.wav"
  <-> time_ms sample_world = time_ms {| time_ms := 1700000000001; mkdir_ok := true |}
      /\ detect_language basic_db
           (preprocess_text_for_tts basic_db sample_tts (arg_text (sample_args (u "Привет"))))
         = detect_language basic_db
             (preprocess_text_for_tts basic_db sample_tts (arg_text (sample_args (u "Hello")))).
Proof.
  apply (synthesize_paths_differ basic_db sample_tts sample_tts
           sample_world {| time_ms := 1700000000001; mkdir_ok := true |}
           (sample_args (u "Привет")) (sample_args (u "Hello")));
    vm_compute; reflexivity.
Defined.

(** ** The yoficator *)

(** Every key of a loaded dictionary is its value with each yo written
    as ye: no key holds a yo, and key and value have the same length. *)
Theorem dictionary_keys_folded (lines : list str) (d : gmap str str) (k v : str) :
  _load_dictionary lines = Some d -> d !! k = Some v ->
  k = yo_fold v /\ (0x451 ∉ k) /\ length k = length v.
Proof.
  intros Hl Hk. apply load_dictionary_folded in Hl. rewrite (Hl k v Hk).
  split; [reflexivity|]. split; [|apply length_map].
  unfold yo_fold. intros ([|p] & E & _)%list_elem_of_fmap.
  - discriminate.
  - destruct (N.eqb_spec (N.pos p) 0x451); [discriminate|congruence].
Qed.

Lemma dictionary_keys_folded_witness :
  u "елка" = yo_fold (u "ёлка") /\ (0x451 ∉ u "елка")
  /\ length (u "елка") = length (u "ёлка").
Proof.
  apply (dictionary_keys_folded sample_lines sample_dictionary); reflexivity.
Defined.

Definition count_char (c : char) (s : str) : nat := count_occ N.eq_dec s c.

Lemma split_on_aux_length (sep : char) (s cur : str) :
  length (split_on_aux sep cur s) = S (count_char sep s).
Proof.
  unfold count_char. revert cur. induction s as [|c r IH]; intros cur; [reflexivity|].
  cbn [split_on_aux count_occ]. destruct (N.eqb_spec c sep) as [->|Hne].
  - destruct (N.eq_dec sep sep); [|congruence]. cbn [length]. rewrite IH. reflexivity.
  - destruct (N.eq_dec c sep); [congruence|]. apply IH.
Qed.

Lemma mem_count (c : char) (s : str) :
  mem c s = true <-> (1 <= count_char c s)%nat.
Proof.
  unfold mem, count_char. induction s as [|x r IH]; cbn [existsb count_occ].
  - split; [discriminate|lia].
  - destruct (N.eqb_spec c x) as [->|Hne].
    + destruct (N.eq_dec x x); [|congruence]. cbn. split; [lia|reflexivity].
    + destruct (N.eq_dec x c); [congruence|]. cbn [orb]. exact IH.
Qed.

Lemma count_lstrip_char (c x : char) (s : str) :
  x <> c -> count_char x (lstrip_char c s) = count_char x s.
Proof.
  intros Hx. unfold count_char. induction s as [|y r IH]; [reflexivity|].
  cbn [lstrip_char]. destruct (N.eqb_spec y c) as [->|Hne]; [|reflexivity].
  rewrite IH. cbn [count_occ]. destruct (N.eq_dec c x); [congruence|reflexivity].
Qed.

Lemma count_rev (x : char) (s : str) :
  count_char x (rev s) = count_char x s.
Proof.
  unfold count_char. induction s as [|y r IH]; [reflexivity|].
  cbn [rev]. rewrite count_occ_app, IH. cbn [count_occ].
  destruct (N.eq_dec y x); lia.
Qed.

Lemma count_rstrip_char (c x : char) (s : str) :
  x <> c -> count_char x (rstrip_char c s) = count_char x s.
Proof.
  intros Hx. unfold rstrip_char.
  rewrite count_rev, count_lstrip_char, count_rev by exact Hx. reflexivity.
Qed.

(** A line that is neither skipped nor well formed: no asterisk, and more
    than one opening parenthesis. *)
Definition bad_line (line : str) : Prop :=
  mem 0x2A line = false /\ (2 <= count_char 0x28 line)%nat.

Lemma load_line_fails (d : gmap str str) (line : str) :
  load_line d line = None <-> bad_line line.
Proof.
  unfold load_line, bad_line. destruct (mem 0x2A line).
  { split; [discriminate|intros [? _]; discriminate]. }
  pose proof (count_rstrip_char 0x0A 0x28 line ltac:(discriminate)) as Hc.
  pose proof (mem_count 0x28 (rstrip_char 0x0A line)) as Hm.
  pose proof (split_on_aux_length 0x28 (rstrip_char 0x0A line) []) as Hs.
  fold (split_on 0x28 (rstrip_char 0x0A line)) in Hs.
  rewrite Hc in Hm, Hs.
  destruct (mem 0x28 (rstrip_char 0x0A line)).
  - assert (1 <= count_char 40 line)%nat as H1 by (apply Hm; reflexivity).
    destruct (split_on 0x28 (rstrip_char 0x0A line)) as [|b [|s [|x l]]];
      cbn [length] in Hs; cbn [mbind option_bind].
    + lia.
    + lia.
    + destruct (mem 0x7C _); (split; [discriminate|intros [_ H]; lia]).
    + split; [intros _; split; [reflexivity|lia]|reflexivity].
  - assert (~ (1 <= count_char 40 line)%nat) as H1
      by (intros H; apply Hm in H; discriminate).
    cbn [mbind option_bind mem existsb]. split; [discriminate|intros [_ H]; lia].
Qed.

Lemma load_lines_fails (lines : list str) :
  forall d, load_lines d lines = None <-> Exists bad_line lines.
Proof.
  induction lines as [|line rest IH]; intros d; cbn [load_lines].
  - split; [discriminate|intros H; inversion H].
  - rewrite Exists_cons. destruct (load_line d line) as [d'|] eqn:E; cbn [mbind option_bind].
    + rewrite IH. split; [auto|]. intros [H|H]; [|exact H].
      apply (load_line_fails d) in H. congruence.
    + split; [|reflexivity]. intros _. left. apply (load_line_fails d), E.
Qed.

(** Loading raises exactly when some line without an asterisk has more
    than one opening parenthesis, the unpacking of the split that the
    loader does not guard. *)
Theorem load_dictionary_raises (lines : list str) :
  _load_dictionary lines = None <-> Exists bad_line lines.
Proof. apply load_lines_fails. Qed.

Section YoChanges.
Variable db : unicode_db.

(** What yofication may do to a character: keep it, lower its case, or
    write yo for a ye. *)
Definition yo_change (c c' : char) : Prop :=
  c' = c \/ c' = tolower db c \/ (c' = 0x451 /\ tolower db c = 0x435).

Lemma yo_change_refl (s : str) : Forall2 yo_change s s.
Proof. induction s; constructor; [left; reflexivity|assumption]. Qed.

Lemma yo_change_fold (v : str) : Forall2 yo_change (yo_fold v) v.
Proof.
  induction v as [|c v IH]; [constructor|].
  cbn [yo_fold map]. constructor; [|exact IH].
  destruct (N.eqb_spec c 0x451) as [->|]; [|left; reflexivity].
  right. right. split; reflexivity.
Qed.

Lemma lower_from_map (s : str) :
  forall before,
    0x307 ∉ lower_from db before s -> 0x3C2 ∉ lower_from db before s ->
    0x3C3 ∉ lower_from db before s ->
    lower_from db before s = map (tolower db) s.
Proof.
  induction s as [|c r IH]; intros before H1 H2 H3; [reflexivity|].
  cbn [lower_from map] in *.
  destruct (c =? 0x130); [exfalso; apply H1; set_solver|].
  destruct (c =? 0x3A3).
  { exfalso. destruct (other_final_sigma db before r); [apply H2|apply H3]; set_solver. }
  cbn [app]. f_equal. apply IH; set_solver.
Qed.

Lemma replace_changes (old new s : str) :
  Forall2 yo_change old new -> Forall2 yo_change s (str_replace old new s).
Proof.
  intros H. apply re_sub_Forall2; [left; reflexivity|].
  intros before t n. rewrite map_id. unfold lit_matcher.
  destruct (starts_with old t) eqn:E; [|discriminate].
  intros [= Hn]. rewrite <- Hn, (starts_with_take old t E). exact H.
Qed.

Lemma ye_yo : yo_change 0x435 0x451.
Proof. right. right. split; reflexivity. Qed.

Lemma last_ye_changes (s : str) :
  Forall2 yo_change s (re_sub id last_ye_matcher (fun mt => 0x451 :: tail mt) s).
Proof.
  apply re_sub_Forall2; [left; reflexivity|].
  intros before t n. rewrite map_id. unfold last_ye_matcher.
  destruct t as [|c r]; [discriminate|].
  destruct (N.eqb_spec c 0x435) as [->|Hne].
  - intros _. cbn [take tail]. constructor; [apply ye_yo|apply yo_change_refl].
  - intros H. exfalso. revert H.
    destruct c as [|p]; [discriminate|].
    repeat (destruct p as [p|p|]; try discriminate; try congruence).
Qed.

Lemma lowered_changes (word l l' : str) :
  lower db word = l -> 0x307 ∉ l -> 0x3C2 ∉ l -> 0x3C3 ∉ l ->
  Forall2 (fun a b => b = a \/ (b = 0x451 /\ a = 0x435)) l l' ->
  Forall2 yo_change word l'.
Proof.
  intros <- H1 H2 H3. unfold lower. rewrite lower_from_map by assumption.
  clear H1 H2 H3. revert l'. induction word as [|c r IH]; intros l' H; inversion H; subst.
  - constructor.
  - constructor; [|apply IH; assumption].
    match goal with Hc : _ \/ _ |- _ => destruct Hc as [->|[-> Hc]] end.
    + right. left. reflexivity.
    + right. right. auto.
Qed.

Lemma additional_rules_change (word : str) :
  Forall2 yo_change word (_apply_additional_rules db word).
Proof.
  unfold _apply_additional_rules.
  destruct (str_isalpha db word); cbn [negb]; [|apply yo_change_refl].
  assert (Forall2 yo_change (u "е") (u "ё")) as Hye
    by (constructor; [apply ye_yo|constructor]).
  assert (Forall2 yo_change (u "ел") (u "ёл")) as Hyel
    by (constructor; [apply ye_yo|apply yo_change_refl]).
  destruct (str_eqb _ (u "телка")); [apply replace_changes, Hye|].
  destruct (str_eqb _ (u "осел")); [apply replace_changes, Hye|].
  destruct (str_eqb _ (u "еще")) eqn:E3.
  { apply bool_decide_eq_true in E3.
    apply (lowered_changes word _ _ E3);
      apply (bool_decide_unpack _); vm_compute; exact I. }
  destruct (str_eqb _ (u "ее")) eqn:E4.
  { apply bool_decide_eq_true in E4.
    apply (lowered_changes word _ _ E4);
      apply (bool_decide_unpack _); vm_compute; exact I. }
  destruct (str_eqb _ (u "произнес")); [apply replace_changes, Hye|].
  destruct (_ && _ && _); [apply replace_changes, Hyel|].
  destruct (_ && _ && _); [apply last_ye_changes|apply yo_change_refl].
Qed.

Lemma yoficate_token_changes (d : gmap str str) (token : str) :
  folded d -> Forall2 yo_change token (yoficate_token db d token).
Proof.
  intros Hd. unfold yoficate_token.
  destruct (d !! token) as [v|] eqn:E.
  - rewrite (Hd _ _ E). apply yo_change_fold.
  - apply additional_rules_change.
Qed.

Lemma Forall2_concat_map (R : char -> char -> Prop) (f : str -> str) (l : list str) :
  (forall t, Forall2 R t (f t)) -> Forall2 R (concat l) (concat (map f l)).
Proof.
  intros H. induction l as [|t l IH]; [constructor|].
  cbn [map concat]. apply Forall2_app; [apply H|exact IH].
Qed.

Lemma yoficate_change (d : gmap str str) (text : str) :
  folded d -> Forall2 yo_change text (yoficate db d text).
Proof.
  intros Hd. unfold yoficate. case_bool_decide; [apply yo_change_refl|].
  rewrite <- (tokens_concat db text) at 1.
  apply Forall2_concat_map. intros t. apply yoficate_token_changes, Hd.
Qed.
End YoChanges.

(** With a loaded dictionary, yofication does nothing to a character but
    keep it, lower its case, or write yo for a ye, position by
    position. *)
Theorem yoficate_only_yo
    (db : unicode_db) (lines : list str) (d : gmap str str) (text : str) :
  _load_dictionary lines = Some d ->
  Forall2 (yo_change db) text (yoficate db d text).
Proof. intros Hl. apply yoficate_change, (load_dictionary_folded lines), Hl. Qed.

Lemma yoficate_only_yo_witness :
  Forall2 (yo_change basic_db) sample_text (yoficate basic_db sample_dictionary sample_text).
Proof. apply (yoficate_only_yo basic_db sample_lines). reflexivity. Defined.

Section WithoutYe.
Variable db : unicode_db.

Lemma tolower_ye (c : char) : tolower db c = 0x435 -> c = 0x435 \/ c = 0x415.
Proof.
  intros H. pose proof (tolower_known db c 0x435 eq_refl H) as Hk.
  pose proof (known_forall
                (fun c => negb (tolower db c =? 0x435) || (c =? 0x435) || (c =? 0x415))
                ltac:(vm_compute; reflexivity) c Hk) as HP.
  cbn beta in HP. rewrite H in HP. cbn in HP.
  apply orb_prop in HP as [HP|HP]; apply N.eqb_eq in HP; auto.
Qed.

Lemma lower_from_no_ye (s : str) :
  0x435 ∉ s -> 0x415 ∉ s -> forall before, 0x435 ∉ lower_from db before s.
Proof.
  induction s as [|c r IH]; intros H1 H2 before; cbn [lower_from]; [set_solver|].
  apply not_elem_of_cons in H1 as [H1 H1r]. apply not_elem_of_cons in H2 as [H2 H2r].
  apply not_elem_of_app. split; [|apply IH; assumption].
  destruct (c =? 0x130); [apply (bool_decide_unpack _); vm_compute; exact I|].
  destruct (c =? 0x3A3).
  { destruct (other_final_sigma db before r);
      apply (bool_decide_unpack _); vm_compute; exact I. }
  intros Hin. apply list_elem_of_singleton in Hin. symmetry in Hin.
  apply tolower_ye in Hin as [->| ->]; congruence.
Qed.

Lemma starts_with_elem (p s : str) (c : char) :
  starts_with p s = true -> c ∈ p -> c ∈ s.
Proof.
  revert s. induction p as [|a p IH]; intros [|b s] H Hc; cbn in H;
    try discriminate; try (inversion Hc; fail).
  apply andb_prop in H as [Hab H]. apply N.eqb_eq in Hab. subst.
  apply elem_of_cons in Hc as [->|Hc]; [left|right; apply (IH s H Hc)].
Qed.

Lemma ends_with_elem (p s : str) (c : char) :
  ends_with p s = true -> c ∈ p -> c ∈ s.
Proof.
  unfold ends_with. intros H Hc. apply elem_of_rev.
  apply (starts_with_elem _ _ c H), elem_of_rev, Hc.
Qed.

Lemma contains_elem (p s : str) (c : char) :
  p <> [] -> contains p s = true -> c ∈ p -> c ∈ s.
Proof.
  intros Hp. induction s as [|b s IH]; intros H Hc; cbn [contains] in H.
  - destruct p; [congruence|discriminate].
  - apply orb_prop in H as [H|H]; [apply (starts_with_elem _ _ c H Hc)|].
    right. apply IH; assumption.
Qed.

Lemma removelast_elem (s : str) (c : char) : c ∈ removelast s -> c ∈ s.
Proof.
  induction s as [|a s IH]; [intros H; exact H|].
  cbn [removelast]. destruct s as [|b s]; [intros H; inversion H|].
  intros H. apply elem_of_cons in H as [->|H]; [left|right; apply IH, H].
Qed.

Lemma yo_fold_without_yo (v : str) : 0x435 ∉ yo_fold v -> yo_fold v = v.
Proof.
  induction v as [|c v IH]; [reflexivity|].
  cbn [yo_fold map]. intros H. apply not_elem_of_cons in H as [H Hr].
  destruct (N.eqb_spec c 0x451); [congruence|]. f_equal. apply IH, Hr.
Qed.

Lemma str_eqb_without (l w : str) (c : char) :
  c ∉ l -> bool_decide (c ∈ w) = true -> str_eqb l w = false.
Proof.
  intros Hl Hw. apply bool_decide_eq_true in Hw.
  apply bool_decide_eq_false. intros ->. contradiction.
Qed.

Lemma additional_rules_without_ye (word : str) :
  0x435 ∉ word -> 0x415 ∉ word -> _apply_additional_rules db word = word.
Proof.
  intros H1 H2. pose proof (lower_from_no_ye word H1 H2 []) as Hl.
  fold (lower db word) in Hl. unfold _apply_additional_rules.
  destruct (str_isalpha db word); cbn [negb]; [|reflexivity].
  rewrite !(str_eqb_without (lower db word) _ 0x435 Hl) by (vm_compute; reflexivity).
  assert (ends_with (u "ел") (lower db word) = false) as ->.
  { destruct (ends_with _ _) eqn:E; [|reflexivity]. exfalso. apply Hl.
    apply (ends_with_elem _ _ _ E). apply (bool_decide_unpack _). vm_compute. exact I. }
  assert (contains (u "е") (removelast (lower db word)) = false) as ->.
  { destruct (contains _ _) eqn:E; [|reflexivity]. exfalso. apply Hl.
    apply removelast_elem. refine (contains_elem (u "е") _ _ _ E _); [discriminate|].
    apply (bool_decide_unpack _). vm_compute. exact I. }
  rewrite andb_false_r. reflexivity.
Qed.

Lemma token_without_ye (d : gmap str str) (token : str) :
  folded d -> 0x435 ∉ token -> 0x415 ∉ token -> yoficate_token db d token = token.
Proof.
  intros Hd H1 H2. unfold yoficate_token.
  destruct (d !! token) as [v|] eqn:E; [|apply additional_rules_without_ye; assumption].
  pose proof (Hd _ _ E) as Hk. rewrite Hk in H1.
  rewrite Hk. symmetry. apply yo_fold_without_yo, H1.
Qed.

Lemma map_fixed (f : str -> str) (l : list str) :
  (forall t, t ∈ l -> f t = t) -> map f l = l.
Proof.
  induction l as [|t l IH]; intros H; [reflexivity|].
  cbn [map]. rewrite H by left. f_equal. apply IH. intros t' Ht. apply H. right. exact Ht.
Qed.

Lemma yoficate_fixed (d : gmap str str) (text : str) :
  folded d -> 0x435 ∉ text -> 0x415 ∉ text -> yoficate db d text = text.
Proof.
  intros Hd H1 H2. unfold yoficate. case_bool_decide; [reflexivity|].
  rewrite map_fixed; [apply tokens_concat|].
  intros t Ht.
  assert (forall c, c ∈ t -> c ∈ text) as Hsub.
  { intros c Hc. rewrite <- (tokens_concat db text).
    apply list_elem_of_In, in_concat. exists t.
    split; apply list_elem_of_In; assumption. }
  apply token_without_ye; [exact Hd| |]; intros Hc; [apply H1|apply H2]; apply Hsub, Hc.
Qed.
End WithoutYe.

(** With a loaded dictionary, a text in which the letter ye occurs
    neither small nor capital comes back unchanged. *)
Theorem yoficate_without_ye
    (db : unicode_db) (lines : list str) (d : gmap str str) (text : str) :
  _load_dictionary lines = Some d ->
  0x435 ∉ text -> 0x415 ∉ text ->
  yoficate db d text = text.
Proof. intros Hl. apply yoficate_fixed, (load_dictionary_folded lines), Hl. Qed.

Lemma yoficate_without_ye_witness :
  yoficate basic_db sample_dictionary (u "Ёжик и КОТ, а? Yes!")
  = u "Ёжик и КОТ, а? Yes!".
Proof.
  apply (yoficate_without_ye basic_db sample_lines); [reflexivity| |];
    apply (bool_decide_unpack _); vm_compute; exact I.
Defined.

(** ** [detect_language] *)

Section DetectMore.
Variable db : unicode_db.

Definition is_letter (c : char) : bool :=
  is_cyrillic_letter db c || is_latin_letter db c.

Lemma count_app (p : char -> bool) (a b : str) :
  count p (a ++ b) = (count p a + count p b)%nat.
Proof. unfold count. rewrite filter_app, length_app. reflexivity. Qed.

Lemma count_perm (p : char -> bool) (a b : str) :
  a ≡ₚ b -> count p a = count p b.
Proof. intros H. unfold count. rewrite H. reflexivity. Qed.

Lemma count_filter (p q : char -> bool) (s : str) :
  (forall c, p c = true -> q c = true) -> count p (filter q s) = count p s.
Proof.
  intros H. unfold count. induction s as [|c r IH]; [reflexivity|].
  rewrite (filter_cons q). destruct (q c) eqn:Eq.
  - rewrite decide_True by exact I. rewrite !filter_cons.
    destruct (p c); [rewrite !decide_True by exact I|rewrite !decide_False by exact id];
      cbn [length]; rewrite IH; reflexivity.
  - rewrite decide_False by exact id. rewrite filter_cons.
    destruct (p c) eqn:Ep; [rewrite (H c Ep) in Eq; discriminate|].
    rewrite decide_False by exact id. exact IH.
Qed.

Lemma detect_language_of_letters (text : str) :
  detect_language db (filter is_letter text) = detect_language db text.
Proof.
  rewrite !detect_language_counts. unfold is_letter.
  rewrite !count_filter; [reflexivity| |]; intros c ->; [apply orb_true_r|reflexivity].
Qed.

Lemma detect_language_perm (a b : str) :
  a ≡ₚ b -> detect_language db a = detect_language db b.
Proof.
  intros H. rewrite !detect_language_counts.
  rewrite (count_perm _ a b H), (count_perm _ a b H). reflexivity.
Qed.

Lemma detect_language_same (a b : str) :
  detect_language db a = detect_language db b ->
  detect_language db (a ++ b) = detect_language db a.
Proof.
  rewrite !detect_language_counts, !count_app. unfold decision_rule.
  repeat case_decide; try reflexivity; try discriminate; lia.
Qed.
End DetectMore.

(** Only the letters count: the language of a text is the language of
    its Cyrillic and Latin letters alone, so digits, spaces, punctuation
    and letters of other scripts never change the answer. *)
Theorem detect_language_letters_only (db : unicode_db) (text : str) :
  detect_language db text = detect_language db (filter (is_letter db) text).
Proof. symmetry. apply detect_language_of_letters. Qed.

(** The order of the characters does not matter. *)
Theorem detect_language_permutation (db : unicode_db) (a b : str) :
  a ≡ₚ b -> detect_language db a = detect_language db b.
Proof. apply detect_language_perm. Qed.

Lemma detect_language_permutation_witness :
  detect_language basic_db [0x7A; 0x44F; 0x21] = detect_language basic_db [0x44F; 0x7A; 0x21].
Proof. apply detect_language_permutation. apply perm_swap. Defined.

(** Two texts of the same language, put one after the other, have that
    language. *)
Theorem detect_language_concat (db : unicode_db) (a b : str) :
  detect_language db a = detect_language db b ->
  detect_language db (a ++ b) = detect_language db a.
Proof. apply detect_language_same. Qed.

Lemma detect_language_concat_witness :
  detect_language basic_db (u "Hello, " ++ u "world мир")
  = detect_language basic_db (u "Hello, ").
Proof. apply detect_language_concat. vm_compute. reflexivity. Defined.

(** ** Numbers: the English table and the Russian numeral step *)

Lemma re_scan_no_start (m : matcher) (p : char -> bool) (s : str) :
  (forall before c r n, m before (c :: r) = Some (S n) -> p c = true) ->
  existsb p s = false ->
  forall before, re_scan id m before 0 s = map inl s.
Proof.
  intros Hm. induction s as [|c r IH]; intros Hs before; [reflexivity|].
  cbn [existsb] in Hs. apply orb_false_elim in Hs as [Hc Hr].
  cbn [re_scan map]. rewrite map_id. change (id c) with c.
  destruct (m before (c :: r)) as [[|n]|] eqn:Em.
  - f_equal. apply IH, Hr.
  - apply Hm in Em. congruence.
  - f_equal. apply IH, Hr.
Qed.

Lemma re_sub_no_start (m : matcher) (repl : str -> str) (p : char -> bool) (s : str) :
  (forall before c r n, m before (c :: r) = Some (S n) -> p c = true) ->
  existsb p s = false ->
  re_sub id m repl s = s.
Proof.
  intros Hm Hs. unfold re_sub. rewrite (re_scan_no_start m p s Hm Hs).
  clear. induction s as [|c r IH]; [reflexivity|]. cbn. f_equal. exact IH.
Qed.

Lemma number_match_start (db : unicode_db) (before : str) (c : char) (r : str) (n : nat) :
  number_matcher db before (c :: r) = Some (S n) -> isdecimal db c = true.
Proof.
  intros H. apply number_match_digits in H as [H _].
  cbn in H. apply andb_prop in H as [H _]. exact H.
Qed.

(** A text without a decimal digit passes the numeral step unchanged. *)
Theorem numerals_leave_digit_free (db : unicode_db) (s : str) :
  digit_free db s = true -> replace_all_numbers db s = s.
Proof.
  intros H. unfold digit_free in H. apply negb_true_iff in H.
  apply (re_sub_no_start _ _ (isdecimal db)); [apply number_match_start|exact H].
Qed.

Lemma numerals_leave_digit_free_witness :
  replace_all_numbers basic_db (u "Привет, мир!") = u "Привет, мир!".
Proof. apply numerals_leave_digit_free. vm_compute. reflexivity. Defined.

Definition ascii_digit_free (s : str) : bool := negb (existsb (in_range 0x30 0x39) s).

(** Every key of the English table begins with an ASCII digit and no
    value holds one; the ten digits are keys. *)
Definition number_map_ok (table : list (str * str)) : bool :=
  forallb (fun kv => match kv.1 with
                     | c :: _ => in_range 0x30 0x39 c
                     | [] => false
                     end && ascii_digit_free kv.2) table
  && forallb (fun d => existsb (fun kv => str_eqb kv.1 [d]) table) (code_points 0x30 10).

Lemma number_map_checked : number_map_ok (sorted_by_length number_map) = true.
Proof. vm_compute. reflexivity. Qed.

Lemma lit_match_start (k : str) (before : str) (c : char) (r : str) (n : nat) :
  lit_matcher k before (c :: r) = Some (S n) -> head k = Some c.
Proof.
  unfold lit_matcher. destruct k as [|a k]; [discriminate|].
  cbn [starts_with]. destruct (N.eqb_spec a c) as [->|]; [reflexivity|discriminate].
Qed.

Lemma str_replace_no_start (k v s : str) (p : char -> bool) :
  match k with c :: _ => p c | [] => false end = true ->
  existsb p s = false -> str_replace k v s = s.
Proof.
  intros Hk Hs. apply (re_sub_no_start _ _ p); [|exact Hs].
  intros before c r n H%lit_match_start.
  destruct k; [discriminate|]. injection H as ->. exact Hk.
Qed.

Lemma english_table_fixed (table : list (str * str)) (s : str) :
  forallb (fun kv => match kv.1 with
                     | c :: _ => in_range 0x30 0x39 c
                     | [] => false
                     end) table = true ->
  ascii_digit_free s = true ->
  fold_left (fun result kv => str_replace kv.1 kv.2 result) table s = s.
Proof.
  intros Ht Hs. unfold ascii_digit_free in Hs. apply negb_true_iff in Hs.
  induction table as [|[k v] t IH]; [reflexivity|].
  cbn [forallb fst] in Ht. apply andb_prop in Ht as [Hk Ht].
  cbn [fold_left fst snd].
  rewrite (str_replace_no_start k v s (in_range 0x30 0x39) Hk Hs). apply IH, Ht.
Qed.

(** An English text without an ASCII digit passes the number table
    unchanged. *)
Theorem english_leaves_digit_free (db : unicode_db) (text : str) :
  ascii_digit_free text = true ->
  _simple_number_conversion db text english = text.
Proof.
  intros H. unfold _simple_number_conversion. apply english_table_fixed; [|exact H].
  vm_compute. reflexivity.
Qed.

Lemma english_leaves_digit_free_witness :
  _simple_number_conversion basic_db (u "Hello, world!") english = u "Hello, world!".
Proof. apply english_leaves_digit_free. vm_compute. reflexivity. Defined.

Lemma re_sub_elem (m : matcher) (v s : str) (x : char) :
  x ∈ re_sub id m (fun _ => v) s -> x ∈ s \/ x ∈ v.
Proof.
  unfold re_sub. intros H. apply list_elem_of_In, in_concat in H as (l & Hl & Hx).
  apply in_map_iff in Hl as (p & <- & Hp).
  destruct p as [c|mt]; cbn [piece_out] in Hx.
  - left. destruct Hx as [<-|[]].
    pose proof (re_scan_concat id m s [] 0) as Hc. rewrite drop_0 in Hc.
    rewrite <- Hc. apply list_elem_of_In, in_concat. exists [c].
    split; [|left; reflexivity].
    apply in_map_iff. exists (inl c). split; [reflexivity|exact Hp].
  - right. apply list_elem_of_In, Hx.
Qed.

Lemma scan_single_removes (d : char) (v s : str) :
  d ∉ v ->
  forall before,
    d ∉ concat (map (piece_out (fun _ => v)) (re_scan id (lit_matcher [d]) before 0 s)).
Proof.
  intros Hv. induction s as [|c r IH]; intros before; [cbn; set_solver|].
  cbn [re_scan]. rewrite map_id. unfold lit_matcher at 1. cbn [starts_with length].
  destruct (N.eqb_spec d c) as [<-|Hne]; cbn [andb map concat piece_out].
  - apply not_elem_of_app. split; [exact Hv|apply IH].
  - apply not_elem_of_app. split; [|apply IH].
    intros H. apply list_elem_of_singleton in H. congruence.
Qed.

Lemma str_replace_removes (d : char) (v s : str) :
  d ∉ v -> d ∉ str_replace [d] v s.
Proof. intros Hv. apply scan_single_removes, Hv. Qed.

Lemma fold_replace_keeps_out (table : list (str * str)) (d : char) (s : str) :
  Forall (fun kv => d ∉ kv.2) table -> d ∉ s ->
  d ∉ fold_left (fun result kv => str_replace kv.1 kv.2 result) table s.
Proof.
  intros Ht. revert s. induction Ht as [|[k v] t Hv _ IH]; intros s Hs; [exact Hs|].
  cbn [fold_left fst snd]. apply IH. intros H.
  apply re_sub_elem in H as [H|H]; [exact (Hs H)|exact (Hv H)].
Qed.

Lemma fold_replace_removes (table : list (str * str)) (d : char) (s : str) :
  Forall (fun kv => d ∉ kv.2) table ->
  Exists (fun kv => kv.1 = [d]) table ->
  d ∉ fold_left (fun result kv => str_replace kv.1 kv.2 result) table s.
Proof.
  intros Ht He. revert s. induction He as [[k v] t Hk|[k v] t _ IH]; intros s;
    apply Forall_cons in Ht as [Hv Ht]; cbn [fold_left fst snd] in *.
  - subst k. apply fold_replace_keeps_out; [exact Ht|]. apply str_replace_removes, Hv.
  - apply IH, Ht.
Qed.

(** Whatever the text, the English branch leaves no ASCII digit in it:
    the ten digits are keys of the table and no value holds a digit. *)
Theorem english_no_digit_left (db : unicode_db) (text : str) :
  ascii_digit_free (_simple_number_conversion db text english) = true.
Proof.
  unfold ascii_digit_free. apply negb_true_iff.
  destruct (existsb _ _) eqn:E; [|reflexivity]. exfalso.
  apply existsb_exists in E as (d & Hd & Hr). apply list_elem_of_In in Hd.
  revert Hd. unfold _simple_number_conversion.
  pose proof number_map_checked as Hok. unfold number_map_ok in Hok.
  apply andb_prop in Hok as [Hkv Hkeys].
  apply fold_replace_removes.
  - rewrite forallb_forall in Hkv. apply Forall_forall. intros kv Hin Hd.
    apply list_elem_of_In, Hkv, andb_prop in Hin as [_ Hv].
    unfold ascii_digit_free in Hv. apply negb_true_iff in Hv.
    assert (existsb (in_range 0x30 0x39) kv.2 = true) as Ht
      by (apply existsb_exists; exists d; split; [apply list_elem_of_In, Hd|exact Hr]).
    congruence.
  - pose proof (code_points_spec
                  (fun d => existsb (fun kv : str * str => str_eqb kv.1 [d])
                              (sorted_by_length number_map)) 10 0x30 Hkeys d) as Hx.
    unfold in_range in Hr. apply andb_prop in Hr as [H1 H2]. apply N.leb_le in H1, H2.
    cbn beta in Hx. specialize (Hx ltac:(lia) ltac:(lia)).
    apply existsb_exists in Hx as (kv & Hin & Hk).
    apply Exists_exists. exists kv. split; [apply list_elem_of_In, Hin|].
    apply bool_decide_eq_true in Hk. exact Hk.
Qed.

Lemma convert_number_small_value (s s' : str) (n : N) :
  n < 1000 -> convert_number 2 n s = convert_number 2 n s'.
Proof.
  intros Hn.
  set (p := fun n => bool_decide (convert_number 2 n s = convert_number 2 n s')).
  enough (p n = true) as Hp by (apply bool_decide_eq_true in Hp; exact Hp).
  apply (code_points_spec p 1000 0); [vm_compute; reflexivity|lia|lia].
Qed.

Lemma convert_number_value (s s' : str) (n : N) :
  n < 1000000 ->
  convert_number recursion_limit n s = convert_number recursion_limit n s'.
Proof.
  intros Hn. change recursion_limit with (S (S (S 997))).
  rewrite (convert_number_depth 997 n s), (convert_number_depth 997 n s').
  destruct (N.ltb_spec n 1000) as [Hlt|Hge].
  { rewrite (convert_number_lt1000 1 n s), (convert_number_lt1000 1 n s') by exact Hlt.
    apply convert_number_small_value, Hlt. }
  change 3%nat with (S 2). remember 2%nat as d2 eqn:E2. cbn [convert_number].
  destruct (N.eqb_spec n 0); [lia|].
  destruct (N.ltb_spec n 20); [lia|].
  destruct (N.ltb_spec n 100); [lia|].
  destruct (N.ltb_spec n 1000); [lia|].
  destruct (N.ltb_spec n 1000000); [|lia].
  destruct (n mod 1000 =? 0), (n / 1000 =? 1), (n / 1000 <? 5); reflexivity.
Qed.

(** Below a million the spoken form depends on the value alone: two
    digit strings of the same value, such as one with leading zeros and
    one without, are read the same. *)
Theorem spoken_form_by_value (db : unicode_db) (d d' : str) (n : N) :
  py_int db d = Some n -> py_int db d' = Some n -> n < 1000000 ->
  convert_russian_number db d = convert_russian_number db d'.
Proof.
  intros H1 H2 Hn. unfold convert_russian_number. rewrite H1, H2.
  apply convert_number_value, Hn.
Qed.

Lemma spoken_form_by_value_witness :
  convert_russian_number basic_db (u "0042") = convert_russian_number basic_db (u "42").
Proof.
  apply (spoken_form_by_value basic_db _ _ 42); [reflexivity|reflexivity|reflexivity].
Defined.

(** ** Abbreviations and numerals inside a word *)

Section WholeWord.
Variable db : unicode_db.

(** A pattern that begins with a word boundary, or is not preceded by a
    word character. *)
Definition at_word_start (m : matcher) : Prop :=
  forall before t n,
    word_after db t = true -> m before t = Some (S n) -> word_before db before = false.

(** A pattern that ends with a word boundary, or is not followed by a
    word character. *)
Definition at_word_end (m : matcher) : Prop :=
  forall before t n,
    forallb (is_word db) t = true -> m before t = Some (S n) ->
    word_after db (drop (S n) t) = false.

Lemma re_scan_past (m : matcher) (s : str) :
  forall before k, (length s <= k)%nat -> re_scan id m before k s = [].
Proof.
  induction s as [|c r IH]; intros before k Hk; [reflexivity|].
  cbn [length] in Hk. destruct k as [|k]; [lia|]. cbn [re_scan]. apply IH. lia.
Qed.

Lemma scan_inside_word (m : matcher) (s : str) :
  at_word_start m -> forallb (is_word db) s = true ->
  forall before, word_before db before = true -> re_scan id m before 0 s = map inl s.
Proof.
  intros Hm. induction s as [|c r IH]; intros Hs before Hb; [reflexivity|].
  cbn [forallb] in Hs. apply andb_prop in Hs as [Hc Hr].
  cbn [re_scan map]. rewrite map_id. change (id c) with c.
  assert (re_scan id m (c :: before) 0 r = map inl r) as Hrest by (apply IH; assumption).
  destruct (m before (c :: r)) as [[|n]|] eqn:Em; [rewrite Hrest; reflexivity| |rewrite Hrest; reflexivity].
  apply Hm in Em; [congruence|exact Hc].
Qed.

Lemma concat_inl (repl : str -> str) (s : str) :
  concat (map (piece_out repl) (map inl s)) = s.
Proof. induction s as [|c r IH]; [reflexivity|]. cbn. f_equal. exact IH. Qed.

Lemma all_word_drop (s : str) (k : nat) :
  forallb (is_word db) s = true -> word_after db (drop k s) = false ->
  (length s <= k)%nat.
Proof.
  revert k. induction s as [|c r IH]; intros k Hs Hd; [cbn; lia|].
  cbn [forallb] in Hs. apply andb_prop in Hs as [Hc Hr].
  destruct k as [|k]; [rewrite drop_0 in Hd; cbn in Hd; congruence|].
  cbn [drop] in Hd. cbn [length]. apply IH in Hd; [lia|exact Hr].
Qed.

(** On a text made of word characters only, such a pattern matches the
    whole text or nothing. *)
Lemma whole_word_scan (m : matcher) (repl : str -> str) (text : str) :
  at_word_start m -> at_word_end m -> forallb (is_word db) text = true ->
  re_sub id m repl text = text
  \/ exists n, m [] text = Some (S n) /\ (length text <= S n)%nat
               /\ re_sub id m repl text = repl text.
Proof.
  intros H1 H2 Hs. unfold re_sub. destruct text as [|c r]; [left; reflexivity|].
  pose proof Hs as Hs'. cbn [forallb] in Hs'. apply andb_prop in Hs' as [Hc Hr].
  cbn [re_scan]. rewrite map_id. change (id c) with c.
  destruct (m [] (c :: r)) as [[|n]|] eqn:Em.
  - left. rewrite (scan_inside_word m r H1 Hr [c] Hc). cbn. f_equal. apply concat_inl.
  - right. exists n. split; [reflexivity|].
    pose proof (H2 _ _ _ Hs Em) as Hd. apply all_word_drop in Hd; [|exact Hs].
    split; [exact Hd|].
    rewrite re_scan_past by (cbn [length] in Hd; lia).
    rewrite take_ge by exact Hd. cbn. apply app_nil_r.
  - left. rewrite (scan_inside_word m r H1 Hr [c] Hc). cbn. f_equal. apply concat_inl.
Qed.

Lemma word_before_taken (t before : str) (n : nat) :
  forallb (is_word db) t = true -> t <> [] ->
  word_before db (rev (take (S n) t) ++ before) = true.
Proof.
  intros Ht Hne. destruct (take (S n) t) as [|y l _] eqn:E using rev_ind.
  { destruct t; [congruence|discriminate]. }
  rewrite rev_app_distr. cbn.
  rewrite forallb_forall in Ht. apply Ht, list_elem_of_In.
  apply (subseteq_take (S n) t). rewrite E. set_solver.
Qed.

Lemma boundary_after_word (t before : str) (n : nat) :
  forallb (is_word db) t = true -> t <> [] ->
  boundary db (rev (take (S n) t) ++ before) (drop (S n) t) = true ->
  word_after db (drop (S n) t) = false.
Proof.
  intros Ht Hne. unfold boundary. rewrite (word_before_taken t before n Ht Hne).
  destruct (word_after db _); [discriminate|reflexivity].
Qed.

Lemma abbr_at_word_start (k : str) : at_word_start (abbr_matcher db k).
Proof.
  intros before t n Ht. unfold abbr_matcher, dotted_matcher, bounded_matcher, boundary.
  destruct (mem 0x2E k); [|rewrite Ht]; destruct (word_before db before);
    cbn; try discriminate; auto.
Qed.

Lemma abbr_at_word_end (k : str) : at_word_end (abbr_matcher db k).
Proof.
  intros before t n Ht. unfold abbr_matcher, dotted_matcher, bounded_matcher.
  destruct (mem 0x2E k).
  - destruct (_ && _ && _) eqn:E; [|discriminate].
    apply andb_prop in E as [_ E]. apply negb_true_iff in E.
    intros [= <-]. exact E.
  - destruct (_ && _ && _) eqn:E; [|discriminate].
    apply andb_prop in E as [[_ Eci]%andb_prop E].
    intros [= Hn]. rewrite Hn in E.
    apply (boundary_after_word t before n Ht); [|exact E].
    intros ->. apply ci_starts_with_length in Eci. cbn in Eci. lia.
Qed.

Lemma backtrack_found (b s : str) (k n : nat) :
  backtrack_boundary db b s k = Some n ->
  boundary db (rev (take n s) ++ b) (drop n s) = true.
Proof.
  induction k as [|k IH]; [discriminate|].
  cbn [backtrack_boundary]. intros H.
  destruct (boundary db (rev (take (S k) s) ++ b) (drop (S k) s)) eqn:E.
  - injection H as <-. exact E.
  - apply IH, H.
Qed.

Lemma number_at_word_start : at_word_start (number_matcher db).
Proof.
  intros before t n Ht. unfold number_matcher, boundary. rewrite Ht.
  destruct (word_before db before); cbn; [discriminate|auto].
Qed.

Lemma number_at_word_end : at_word_end (number_matcher db).
Proof.
  intros before t n Ht H. pose proof H as Hd. apply number_match_digits in Hd as [_ Hne].
  unfold number_matcher in H. destruct (boundary db before t); [|discriminate].
  apply backtrack_found in H.
  apply (boundary_after_word t before n Ht); [|exact H].
  intros ->. apply Hne. reflexivity.
Qed.
End WholeWord.

(** An abbreviation is not expanded inside a longer word: a text made of
    word characters only is left as it is, unless the whole of it is the
    abbreviation, in capital or small letters, and then the result is
    its expansion. *)
Theorem abbreviation_whole_word (db : unicode_db) (k v text : str) :
  forallb (is_word db) text = true ->
  expand_abbreviation db text (k, v) = text
  \/ (expand_abbreviation db text (k, v) = v
      /\ length text = length k /\ ci_starts_with db k text = true).
Proof.
  intros Ht. unfold expand_abbreviation. cbn [fst snd].
  destruct (whole_word_scan db (abbr_matcher db k) (fun _ => v) text
              (abbr_at_word_start db k) (abbr_at_word_end db k) Ht)
    as [H|(n & Hm & Hl & H)]; [left; exact H|right].
  split; [exact H|].
  assert (ci_starts_with db k text = true /\ length k = S n) as [Hci Hk].
  { revert Hm. unfold abbr_matcher, dotted_matcher, bounded_matcher.
    destruct (mem 0x2E k); (destruct (_ && _ && _) eqn:E; [|discriminate]);
      apply andb_prop in E as [[_ E]%andb_prop _]; intros [= Hn]; auto. }
  split; [|exact Hci]. apply ci_starts_with_length in Hci. lia.
Qed.

Lemma abbreviation_whole_word_witness :
  expand_abbreviation basic_db (u "метро") (u "м", u "метр") = u "метро"
  \/ (expand_abbreviation basic_db (u "метро") (u "м", u "метр") = u "метр"
      /\ length (u "метро") = length (u "м")
      /\ ci_starts_with basic_db (u "м") (u "метро") = true).
Proof. apply abbreviation_whole_word. vm_compute. reflexivity. Defined.

(** Digits glued to letters are not read out: a text made of word
    characters only is left as it is by the numeral step, unless the
    whole of it is a run of digits, which is then converted. *)
Theorem glued_digits_untouched (db : unicode_db) (text : str) :
  forallb (is_word db) text = true ->
  replace_all_numbers db text = text
  \/ (forallb (isdecimal db) text = true
      /\ replace_all_numbers db text = convert_russian_number db text).
Proof.
  intros Ht. unfold replace_all_numbers.
  destruct (whole_word_scan db (number_matcher db) (convert_russian_number db) text
              (number_at_word_start db) (number_at_word_end db) Ht)
    as [H|(n & Hm & Hl & H)]; [left; exact H|right].
  split; [|exact H].
  apply number_match_digits in Hm as [Hd _]. rewrite take_ge in Hd by exact Hl. exact Hd.
Qed.

Lemma glued_digits_untouched_witness :
  replace_all_numbers basic_db (u "mp3") = u "mp3"
  \/ (forallb (isdecimal basic_db) (u "mp3") = true
      /\ replace_all_numbers basic_db (u "mp3") = convert_russian_number basic_db (u "mp3")).
Proof. apply glued_digits_untouched. vm_compute. reflexivity. Defined.

(** ** English texts in the pipeline *)

Lemma join_elem (l : list str) (x : char) :
  x ∈ join sp l -> x = 0x20 \/ exists w, w ∈ l /\ x ∈ w.
Proof.
  induction l as [|w l IH]; [intros H; inversion H|].
  destruct l as [|w' l']; cbn [join].
  - intros H. right. exists w. split; [left|exact H].
  - intros H. apply elem_of_app in H as [H|H]; [right; exists w; split; [left|exact H]|].
    apply elem_of_app in H as [H|H].
    + left. apply list_elem_of_singleton in H. exact H.
    + apply IH in H as [H|(w0 & Hw & Hx)]; [left; exact H|].
      right. exists w0. split; [right; exact Hw|exact Hx].
Qed.

Lemma split_ws_aux_elem (s cur w : str) (x : char) :
  w ∈ split_ws_aux cur s -> x ∈ w -> x ∈ cur \/ x ∈ s.
Proof.
  revert cur. induction s as [|c r IH]; intros cur Hw Hx; cbn [split_ws_aux] in Hw.
  - destruct cur as [|y cur]; [inversion Hw|].
    apply list_elem_of_singleton in Hw. subst w. left. apply elem_of_rev, Hx.
  - destruct (isspace c).
    + destruct cur as [|y cur].
      * destruct (IH [] Hw Hx) as [H|H]; [inversion H|right; right; exact H].
      * apply elem_of_cons in Hw as [->|Hw]; [left; apply elem_of_rev, Hx|].
        destruct (IH [] Hw Hx) as [H|H]; [inversion H|right; right; exact H].
    + destruct (IH (c :: cur) Hw Hx) as [H|H]; [|right; right; exact H].
      apply elem_of_cons in H as [->|H]; [right; left|left; exact H].
Qed.

Lemma joined_elem (s : str) (x : char) :
  x ∈ join sp (split_ws s) -> x = 0x20 \/ x ∈ s.
Proof.
  intros H. apply join_elem in H as [H|(w & Hw & Hx)]; [left; exact H|].
  destruct (split_ws_aux_elem s [] w x Hw Hx) as [H|H]; [inversion H|right; exact H].
Qed.

Lemma sanitize_elem (db : unicode_db) (text : str) (x : char) :
  x ∈ sanitize db text -> x ∈ text.
Proof.
  unfold sanitize. destruct (strip text) as [|c0 t0] eqn:Es; [intros H; inversion H|].
  destruct (_is_only_symbols db _); [intros H; inversion H|].
  destruct (is_blank _); [intros H; inversion H|].
  rewrite remove_long_squeeze. intros H%squeeze_sub.
  apply strip_sublist. rewrite Es. exact H.
Qed.

Lemma english_after_sanitize (db : unicode_db) (self : MultilingualTTS) (t : str) :
  detect_language db t = english ->
  after_sanitize db self t
  = match (if is_blank (join sp (split_ws t)) then join sp (split_ws t)
           else _simple_number_conversion db (join sp (split_ws t)) english) with
    | [] => []
    | p => let p := rstrip p in
           if negb (ends_with_any [u "."; u "!"; u "?"] p) then p ++ u "." else p
    end.
Proof.
  intros Hl. unfold after_sanitize, normalize_text, _preprocess_gpt_issues.
  rewrite Hl. destruct (if is_blank _ then _ else _); reflexivity.
Qed.

(** For a text found to be English neither the accentizer nor the yo
    dictionary is consulted: the canonical text is the same whatever
    they are. *)
Theorem english_ignores_russian_tools
    (db : unicode_db) (self self' : MultilingualTTS) (text : str) :
  detect_language db (sanitize db text) = english ->
  preprocess_text_for_tts db self text = preprocess_text_for_tts db self' text.
Proof.
  intros Hl. rewrite !preprocess_factor.
  destruct (sanitize db text) as [|c t]; [reflexivity|].
  rewrite !english_after_sanitize by exact Hl. reflexivity.
Qed.

Lemma english_ignores_russian_tools_witness :
  preprocess_text_for_tts basic_db sample_tts (u "Hello,   world")
  = preprocess_text_for_tts basic_db
      {| enable_accent := true;
         accentizer := Some (ProcessAll (fun t => Some (t ++ t)));
         russian_tts := None;
         yo_dictionary := sample_dictionary |}
      (u "Hello,   world").
Proof. apply english_ignores_russian_tools. vm_compute. reflexivity. Defined.

(** The canonical text of an English text without ASCII digits is the
    words of the sanitized text joined by single spaces, with a full
    stop added unless a terminal mark already ends it. *)
Theorem english_canonical_text
    (db : unicode_db) (self : MultilingualTTS) (text : str) :
  detect_language db (sanitize db text) = english ->
  ascii_digit_free text = true ->
  let words := join sp (split_ws (sanitize db text)) in
  preprocess_text_for_tts db self text
  = if ends_with_any [u "."; u "!"; u "?"] words then words else words ++ u ".".
Proof.
  intros Hl Hd words. rewrite preprocess_factor.
  destruct (sanitize_fixed db text) as [E|(Ht & _ & _ & Hb)].
  { rewrite E in Hl. vm_compute in Hl. discriminate. }
  assert (forall x, x ∈ words -> in_range 0x30 0x39 x = false) as Hw.
  { intros x Hx. unfold ascii_digit_free in Hd. apply negb_true_iff in Hd.
    apply joined_elem in Hx as [->|Hx]; [reflexivity|].
    apply sanitize_elem in Hx.
    destruct (in_range 48 57 x) eqn:Er; [|reflexivity].
    assert (existsb (in_range 48 57) text = true) as Ex
      by (apply existsb_exists; exists x; split; [apply list_elem_of_In, Hx|exact Er]).
    congruence. }
  assert (ascii_digit_free words = true) as Hfree.
  { unfold ascii_digit_free. apply negb_true_iff.
    destruct (existsb _ words) eqn:Ex; [|reflexivity].
    apply existsb_exists in Ex as (x & Hx & Er).
    apply list_elem_of_In, Hw in Hx. congruence. }
  assert (ws_normal words = true) as Hn.
  { destruct (join_split_normal (sanitize db text)) as [E|E]; [|exact E]. exfalso.
    destruct (sanitize db text) as [|c r] eqn:Es; [discriminate|].
    destruct Ht as [Hc _].
    apply (join_nonempty (split_ws (c :: r))); [apply split_ws_aux_words; reflexivity| |exact E].
    apply split_ws_aux_nonempty. right. exists c. split; [left|exact Hc]. }
  destruct (sanitize db text) as [|c r] eqn:Es; [discriminate|].
  rewrite english_after_sanitize by exact Hl. fold words.
  assert ((if is_blank words then words
           else _simple_number_conversion db words english) = words) as ->.
  { destruct (is_blank words); [reflexivity|]. unfold _simple_number_conversion.
    apply english_table_fixed; [vm_compute; reflexivity|exact Hfree]. }
  destruct (ws_normal_spec words Hn) as (Hne & [_ Hlast] & _).
  destruct words as [|c1 r1] eqn:Ew; [congruence|].
  cbv zeta. rewrite (rstrip_fixed _ Hlast).
  destruct (ends_with_any _ _); reflexivity.
Qed.

Lemma english_canonical_text_witness :
  let words := join sp (split_ws (sanitize basic_db (u "  Hello,    world   "))) in
  preprocess_text_for_tts basic_db sample_tts (u "  Hello,    world   ")
  = if ends_with_any [u "."; u "!"; u "?"] words then words else words ++ u ".".
Proof. apply english_canonical_text; vm_compute; reflexivity. Defined.

(** ** The leading preposition *)

Lemma leading_v_rest (s : str) :
  forall before k, before <> [] ->
    re_scan id leading_v_matcher before k s = map inl (drop k s).
Proof.
  induction s as [|c r IH]; intros before k Hb; [destruct k; reflexivity|].
  cbn [re_scan]. destruct k as [|k]; [|cbn [drop]; apply IH; discriminate].
  rewrite leading_v_matcher_eq. destruct before as [|b before]; [congruence|].
  rewrite drop_0. cbn [map]. f_equal.
  rewrite (IH (id c :: b :: before) 0%nat) by discriminate. rewrite drop_0. reflexivity.
Qed.

Lemma joined_space (s : str) (x : char) :
  x ∈ join sp (split_ws s) -> isspace x = true -> x = 0x20.
Proof.
  intros Hx Hs. apply join_elem in Hx as [Hx|(w & Hw & Hx)]; [exact Hx|]. exfalso.
  pose proof (split_ws_aux_words s [] eq_refl) as Hl.
  unfold is_word_list in Hl. rewrite Forall_forall in Hl.
  destruct (Hl w Hw) as [_ Hall]. rewrite forallb_forall in Hall.
  apply list_elem_of_In, Hall in Hx. rewrite Hs in Hx. discriminate.
Qed.

(** On a text whose words are already joined by single spaces, as the
    pipeline passes it, the rule for a leading preposition changes
    nothing. *)
Theorem leading_v_rule_idle (s : str) :
  let t := join sp (split_ws s) in
  re_sub id leading_v_matcher (fun _ => u "В ") t = t.
Proof.
  intros t. pose proof (joined_space s) as Hsp. fold t in Hsp.
  destruct (join_split_normal s) as [E|Hn]; fold t in E || fold t in Hn.
  { rewrite E. reflexivity. }
  unfold re_sub. destruct t as [|c r]; [reflexivity|].
  cbn [re_scan]. rewrite leading_v_matcher_eq, map_id.
  rewrite (leading_v_rest r [id c] 0%nat) by discriminate. rewrite drop_0.
  destruct (N.eqb_spec c 0x412) as [->|Hne]; [|cbn; f_equal; apply concat_inl].
  destruct r as [|x r']; [reflexivity|]. cbn [run_length].
  destruct (isspace x) eqn:Ex; [|cbn; f_equal; f_equal; apply (concat_inl _ r')].
  assert (x = 0x20) as -> by (apply Hsp; [right; left|exact Ex]).
  assert (run_length isspace r' = 0%nat) as ->.
  { unfold ws_normal in Hn. cbn [wsok] in Hn.
    replace (isspace 1042) with false in Hn by reflexivity.
    replace (isspace 32) with true in Hn by reflexivity. cbn [negb andb] in Hn.
    destruct r' as [|y r'']; [discriminate|]. cbn [wsok run_length] in Hn |- *.
    destruct (isspace y); [discriminate|reflexivity]. }
  rewrite (leading_v_rest (32 :: r') [id 1042] 1%nat) by discriminate.
  cbn [drop take map concat piece_out]. rewrite concat_inl. reflexivity.
Qed.

(** ** Prosody and the length of the text *)

Lemma call_prosody
    (db : unicode_db) (self : MultilingualTTS) (w : world) (a : synth_args)
    (p : infer_params) :
  Infer p ∈ snd (synthesize_speech db self w a) ->
  arg_speed a = None -> arg_nfe_step a = None ->
  speed p = speaking_rate (length (remove_char 0x20 (gen_text p)))
  /\ nfe_step p = integration_steps (length (remove_char 0x20 (gen_text p))).
Proof.
  intros H Hs Hn. unfold synthesize_speech in H. rewrite Hs, Hn in H.
  destruct (preprocess_text_for_tts db self (arg_text a)) as [|c0 t0];
    [inversion H|].
  destruct (russian_tts self) as [tts_model|]; [|inversion H].
  destruct (mkdir_ok w); cbn [negb] in H; [|inversion H].
  match type of H with
  | _ ∈ snd (if ?b then _ else _) => destruct b
  end; cbn [snd] in H; apply list_elem_of_singleton in H; injection H as ->;
    cbn [gen_text speed nfe_step];
    set (L := length (remove_char 32 (c0 :: t0))); split.
  all: try (unfold speaking_rate;
            repeat case_decide;
            repeat match goal with
                   | |- context [(?x <=? ?y)%nat] => destruct (Nat.leb_spec x y)
                   end; try reflexivity; lia).
  all: unfold integration_steps;
       case_decide; destruct (Nat.ltb_spec 120 L); try reflexivity; lia.
Qed.

Lemma speaking_rate_mono (L1 L2 : nat) :
  (L1 <= L2)%nat -> (speaking_rate L1 <= speaking_rate L2)%Q.
Proof.
  intros H. unfold speaking_rate.
  repeat case_decide; try lia; apply Qle_bool_iff; reflexivity.
Qed.

Lemma integration_steps_anti (L1 L2 : nat) :
  (L1 <= L2)%nat -> (integration_steps L2 <= integration_steps L1)%Z.
Proof.
  intros H. unfold integration_steps. repeat case_decide; lia.
Qed.

(** When the caller gives neither speed nor step count, a longer
    canonical text never gets a lower speed nor more steps than a
    shorter one, lengths taken without spaces. *)
Theorem prosody_monotone
    (db : unicode_db) (self1 self2 : MultilingualTTS) (w1 w2 : world)
    (a1 a2 : synth_args) (p1 p2 : infer_params) :
  Infer p1 ∈ snd (synthesize_speech db self1 w1 a1) ->
  Infer p2 ∈ snd (synthesize_speech db self2 w2 a2) ->
  arg_speed a1 = None -> arg_nfe_step a1 = None ->
  arg_speed a2 = None -> arg_nfe_step a2 = None ->
  (length (remove_char 0x20 (gen_text p1)) <= length (remove_char 0x20 (gen_text p2)))%nat ->
  (speed p1 <= speed p2)%Q /\ (nfe_step p2 <= nfe_step p1)%Z.
Proof.
  intros H1 H2 Hs1 Hn1 Hs2 Hn2 Hl.
  destruct (call_prosody db self1 w1 a1 p1 H1 Hs1 Hn1) as [-> ->].
  destruct (call_prosody db self2 w2 a2 p2 H2 Hs2 Hn2) as [-> ->].
  split; [apply speaking_rate_mono, Hl|apply integration_steps_anti, Hl].
Qed.

Definition short_params : infer_params :=
  Eval vm_compute in
    match snd (synthesize_speech basic_db sample_tts sample_world (sample_args (u "Да"))) with
    | Infer p :: _ => p
    | [] => Build_infer_params [] [] [] 0 0 0 0 0 0 false None None
    end.

Lemma prosody_monotone_witness :
  (speed short_params <= speed sample_params)%Q
  /\ (nfe_step sample_params <= nfe_step short_params)%Z.
Proof.
  apply (prosody_monotone basic_db sample_tts sample_tts sample_world sample_world
           (sample_args (u "Да")) (sample_args (u "Привет! Как дела?")));
    try reflexivity.
  - vm_compute. apply list_elem_of_here.
  - vm_compute. apply list_elem_of_here.
  - apply Nat.leb_le. vm_compute. reflexivity.
Defined.

(** ** An abbreviation that stands between two boundaries *)

Section Occurrence.
Variable db : unicode_db.

(** The two ways of [conflict]: a match that begins inside the value,
    and a match that begins before it and runs into it. *)
Definition conflict_in (k v : str) : bool :=
  existsb (fun i => start_ok db (take i v) && fits db k (drop i v)) (seq 0 (length v)).

Definition conflict_x (k v : str) : bool :=
  existsb (fun i => last_not_word_pattern db (take i k) && fits db (drop i k) v)
          (seq 1 (length k - 1)).

Lemma conflict_halves (k v : str) :
  conflict db k v = conflict_in k v || conflict_x k v.
Proof. reflexivity. Qed.

Lemma no_match_inside (k v1 v2 before post : str) (n : nat) :
  key_ok db k = true -> conflict_in k (v1 ++ v2) = false ->
  v2 <> [] ->
  (v1 <> [] -> word_before db before = word_before db (rev v1)) ->
  word_after db post = false ->
  abbr_matcher db k before (v2 ++ post) = Some (S n) -> False.
Proof.
  intros Hk Hc Hne Hb Hpost Hm.
  apply abbr_match_facts in Hm as (_ & Hwb & Hci & Hwa); [|exact Hk].
  assert (conflict_in k (v1 ++ v2) = true) as Ht; [|congruence].
  apply existsb_exists. exists (length v1). split.
  - apply in_seq. rewrite length_app. destruct v2; [congruence|cbn; lia].
  - rewrite take_app_length, drop_app_length.
    rewrite (fits_sound db k v2 post Hci Hwa Hpost), andb_true_r.
    unfold start_ok. destruct (last v1) as [c|] eqn:El; [|reflexivity].
    apply last_Some in El as [v1' ->].
    rewrite Hb in Hwb by (destruct v1'; discriminate).
    rewrite rev_app_distr in Hwb. cbn in Hwb. rewrite Hwb. reflexivity.
Qed.

(** A match that begins in the text [q] before a value [v] ends inside
    [q], or the key splits after [length q] characters into a part that
    ends outside a word and a part that fits the value. *)
Lemma match_into_facts (k v q before post : str) (n : nat) :
  key_ok db k = true -> value_ok db v = true ->
  q <> [] -> word_before db (rev q) = false -> word_after db post = false ->
  abbr_matcher db k before (q ++ v ++ post) = Some (S n) ->
  (S n < length q)%nat
  \/ ((length q < length k)%nat
      /\ last_not_word_pattern db (take (length q) k) = true
      /\ fits db (drop (length q) k) v = true).
Proof.
  intros Hk Hv Hq Hlast Hpost Hm.
  apply abbr_match_facts in Hm as (Hn & _ & Hci & Hwa); [|exact Hk].
  rewrite Hn. destruct (Nat.lt_ge_cases (length k) (length q)) as [Hlt|Hge]; [left; exact Hlt|].
  right.
  assert (word_after db (v ++ post) = true) as Hvw.
  { unfold value_ok in Hv. destruct v; [discriminate|exact Hv]. }
  rewrite <- (take_drop (length q) k) in Hci, Hwa.
  assert (length (take (length q) k) = length q) as Hl1 by (rewrite length_take; lia).
  set (k1 := take (length q) k) in *. set (k2 := drop (length q) k) in *.
  rewrite ci_starts_with_app in Hci by exact Hl1.
  apply andb_prop in Hci as [Hci1 Hci2].
  rewrite length_app, Hl1, <- drop_drop, drop_app_length in Hwa.
  assert (length k = length k1 + length k2)%nat as Hlen
    by (rewrite <- (take_drop (length q) k) at 1; apply length_app).
  destruct k2 as [|p2 k2'] eqn:Ek2.
  { cbn [length] in Hwa. rewrite drop_0 in Hwa. congruence. }
  split; [cbn [length] in Hlen; lia|]. split.
  - unfold last_not_word_pattern.
    pose proof (ci_starts_with_take db k1 q Hci1) as HF.
    rewrite Hl1, firstn_all in HF.
    destruct q as [|y q' _] using rev_ind; [congruence|].
    apply Forall2_app_inv_r in HF as (m1 & m2 & _ & HF2 & Em).
    inversion HF2 as [|p ? ? ? Hpc Hnil]; subst. inversion Hnil; subst.
    rewrite Em, last_snoc. rewrite rev_app_distr in Hlast. cbn in Hlast.
    destruct (word_pattern db p) eqn:Ep; [|reflexivity].
    rewrite (word_pattern_sound db p y Ep Hpc) in Hlast. discriminate.
  - apply (fits_sound db _ v post); assumption.
Qed.

Lemma no_match_across (k v q before post : str) (n : nat) :
  key_ok db k = true -> value_ok db v = true -> conflict_x k v = false ->
  q <> [] -> word_before db (rev q) = false -> word_after db post = false ->
  abbr_matcher db k before (q ++ v ++ post) = Some (S n) ->
  (S n < length q)%nat.
Proof.
  intros Hk Hv Hc Hq Hlast Hpost Hm.
  destruct (match_into_facts k v q before post n Hk Hv Hq Hlast Hpost Hm)
    as [H|(Hl & H1 & H2)]; [exact H|].
  assert (conflict_x k v = true) as Ht; [|congruence].
  apply existsb_exists. exists (length q). split.
  - apply in_seq. destruct q; [congruence|cbn [length] in *; lia].
  - rewrite H1, H2. reflexivity.
Qed.

Lemma match_starts_word (k before : str) (c : char) (t : str) (j : nat) :
  key_ok db k = true -> abbr_matcher db k before (c :: t) = Some (S j) ->
  is_word db c = true.
Proof.
  intros Hk Hm. apply abbr_match_facts in Hm as (_ & _ & Hci & _); [|exact Hk].
  apply andb_prop in Hk as [Hp _].
  destruct k as [|p k']; [discriminate|]. cbn in Hci.
  apply andb_prop in Hci as [Hpc _]. apply (word_pattern_sound db p c Hp Hpc).
Qed.

Definition out (v : str) (pieces : list (char + str)) : str :=
  concat (map (piece_out (fun _ => v)) pieces).

Lemma last_app_keep {A : Type} (a b : list A) : b <> [] -> last (a ++ b) = last b.
Proof.
  intros Hb. destruct b as [|y t _] using rev_ind; [congruence|].
  rewrite app_assoc, !last_snoc. reflexivity.
Qed.

Lemma word_before_last (a b before : str) :
  last a = last b -> word_before db (rev a ++ before) = word_before db (rev b ++ before).
Proof.
  intros H. destruct a as [|x a' _] using rev_ind; destruct b as [|y b' _] using rev_ind.
  - reflexivity.
  - rewrite last_snoc in H. discriminate.
  - rewrite last_snoc in H. discriminate.
  - rewrite !last_snoc in H. injection H as ->. rewrite !rev_app_distr. reflexivity.
Qed.

Section Step.
Variable k v Y post : str.
Hypothesis Hk : key_ok db k = true.
Hypothesis Hpost : word_after db post = false.

Abbreviation m := (abbr_matcher db k).

(** The scan of the text before the occurrence: it arrives at the
    occurrence, or a match covers the end of that text and the whole
    occurrence. *)
Lemma scan_pre (n : nat) :
  forall pre before,
    (length pre <= n)%nat ->
    (forall p q b j, pre = p ++ q -> q <> [] ->
       m b (q ++ Y ++ post) = Some (S j) ->
       (S j < length q)%nat \/ S j = (length q + length Y)%nat) ->
    exists pre',
      (last pre' = last pre
       /\ out v (re_scan id m before 0 (pre ++ Y ++ post))
          = pre' ++ out v (re_scan id m (rev pre ++ before) 0 (Y ++ post)))
      \/ (exists p q,
            pre = p ++ q /\ word_after db q = true /\ last pre' = last p
            /\ word_before db (rev p ++ before) = false
            /\ m (rev p ++ before) (q ++ Y ++ post) = Some (length q + length Y)%nat
            /\ out v (re_scan id m before 0 (pre ++ Y ++ post))
               = pre' ++ v
                   ++ out v (re_scan id m (rev (q ++ Y) ++ rev p ++ before) 0 post)).
Proof.
  induction n as [|n IH]; intros pre before Hlen Hinto.
  { destruct pre; [|cbn in Hlen; lia]. exists []. left. split; reflexivity. }
  destruct pre as [|c r].
  { exists []. left. split; reflexivity. }
  cbn [length] in Hlen. cbn [app re_scan]. rewrite map_id. change (id c) with c.
  assert (forall b', exists pre',
            (last pre' = last (c :: r)
             /\ c :: out v (re_scan id m (c :: b') 0 (r ++ Y ++ post))
                = pre' ++ out v (re_scan id m (rev (c :: r) ++ b') 0 (Y ++ post)))
            \/ (exists p q,
                  c :: r = p ++ q /\ word_after db q = true /\ last pre' = last p
                  /\ word_before db (rev p ++ b') = false
                  /\ m (rev p ++ b') (q ++ Y ++ post) = Some (length q + length Y)%nat
                  /\ c :: out v (re_scan id m (c :: b') 0 (r ++ Y ++ post))
                     = pre' ++ v
                         ++ out v (re_scan id m (rev (q ++ Y) ++ rev p ++ b') 0 post)))
    as Hstep.
  { intros b'.
    destruct (IH r (c :: b') ltac:(lia))
      as [pre' [[Hl Ho]|(p & q & Epq & Hq & Hl & Hw & Hmq & Ho)]].
    - intros p q b j E. apply (Hinto (c :: p) q b j). rewrite E. reflexivity.
    - exists (c :: pre'). left. split.
      + rewrite !last_cons, Hl. reflexivity.
      + rewrite Ho. cbn [rev app]. rewrite <- app_assoc. reflexivity.
    - exists (c :: pre'). right. exists (c :: p), q.
      split; [rewrite Epq; reflexivity|]. split; [exact Hq|].
      split; [rewrite !last_cons, Hl; reflexivity|].
      cbn [rev]. rewrite <- !app_assoc. cbn [app].
      split; [exact Hw|]. split; [exact Hmq|]. rewrite Ho. reflexivity. }
  destruct (m before (c :: r ++ Y ++ post)) as [[|j]|] eqn:Em;
    [unfold out; cbn [map concat piece_out app]; apply Hstep| |
     unfold out; cbn [map concat piece_out app]; apply Hstep].
  pose proof (abbr_match_facts db k before _ j Hk Em) as (Hjk & Hwb & _ & Hwa).
  pose proof (match_starts_word k before c _ j Hk Em) as Hc.
  destruct (Hinto [] (c :: r) before j eq_refl ltac:(discriminate) Em) as [Hj|Hj].
  - cbn [length] in Hj.
    assert (re_scan id m (c :: before) j (r ++ Y ++ post)
            = re_scan id m (rev (take j r) ++ c :: before) 0 (drop j r ++ Y ++ post)) as Es.
    { rewrite <- (take_drop j r) at 1. rewrite <- app_assoc.
      assert (length (take j r) = j) as Ht by (rewrite length_take; lia).
      rewrite <- Ht at 1. rewrite re_scan_skip, map_id. reflexivity. }
    assert (drop j r <> []) as Hd.
    { intros E. apply (f_equal length) in E. rewrite length_drop in E. cbn in E. lia. }
    assert (word_after db (drop j r) = false) as Hafter.
    { rewrite <- Hjk in Hwa. cbn [drop] in Hwa.
      rewrite drop_app_le in Hwa by lia.
      rewrite (word_after_app db _ _ Hd) in Hwa. exact Hwa. }
    assert (last (drop j r) = last (c :: r)) as Hld.
    { rewrite <- (take_drop j r) at 2. rewrite app_comm_cons. symmetry.
      apply last_app_keep, Hd. }
    assert (rev (drop j r) ++ rev (take j r) ++ c :: before = rev (c :: r) ++ before) as Eb.
    { rewrite <- (take_drop j r) at 3. cbn [rev]. rewrite rev_app_distr, <- !app_assoc.
      reflexivity. }
    destruct (IH (drop j r) (rev (take j r) ++ c :: before)
                ltac:(rewrite length_drop; lia))
      as [pre' [[Hl Ho]|(p & q & Epq & Hq & Hl & Hw & Hmq & Ho)]].
    + intros p q b i E. apply (Hinto (c :: take j r ++ p) q b i).
      cbn [app]. rewrite <- app_assoc, <- E, take_drop. reflexivity.
    + exists (v ++ pre'). left.
      assert (pre' <> []) as Hp.
      { intros ->. rewrite Hld in Hl. rewrite last_cons in Hl. destruct (last r); discriminate. }
      split; [rewrite (last_app_keep _ _ Hp), Hl; exact Hld|].
      unfold out in *. cbn [map concat piece_out]. rewrite Es, Ho, Eb, <- app_assoc.
      reflexivity.
    + assert (p <> []) as Hpn.
      { intros ->. cbn [app] in Epq. rewrite Epq in Hafter. congruence. }
      assert (pre' <> []) as Hp.
      { intros ->. destruct p as [|y p' _] using rev_ind; [congruence|].
        rewrite last_snoc in Hl. discriminate. }
      exists (v ++ pre'). right. exists (c :: take j r ++ p), q.
      split; [cbn [app]; rewrite <- app_assoc, <- Epq, take_drop; reflexivity|].
      split; [exact Hq|].
      assert (rev (c :: take j r ++ p) ++ before = rev p ++ rev (take j r) ++ c :: before)
        as Ep.
      { cbn [rev]. rewrite rev_app_distr, <- !app_assoc. reflexivity. }
      rewrite Ep. split.
      * rewrite (last_app_keep v pre' Hp), Hl.
        rewrite app_comm_cons. symmetry. apply last_app_keep, Hpn.
      * split; [exact Hw|]. split; [exact Hmq|].
        unfold out in *. cbn [map concat piece_out]. rewrite Es, Ho, <- app_assoc.
        reflexivity.
  - exists []. right. exists [], (c :: r).
    split; [reflexivity|]. split; [exact Hc|]. split; [reflexivity|].
    split; [exact Hwb|]. split; [cbn [rev app]; rewrite Em, Hj; reflexivity|].
    unfold out. cbn [map concat piece_out app rev]. f_equal.
    cbn [length] in Hj. injection Hj as Hj.
    rewrite (app_assoc r Y post).
    assert (j = length (r ++ Y)) as -> by (rewrite length_app; exact Hj).
    rewrite re_scan_skip, map_id. rewrite <- app_assoc. reflexivity.
Qed.
End Step.
End Occurrence.

Section OccurrenceSteps.
Variable db : unicode_db.

Lemma out_app (v : str) (p1 p2 : list (char + str)) :
  out v (p1 ++ p2) = out v p1 ++ out v p2.
Proof. unfold out. rewrite map_app, concat_app. reflexivity. Qed.

Lemma out_inl (v s : str) : out v (map inl s) = s.
Proof. unfold out. apply concat_inl. Qed.

(** The scan walks through an occurrence that the key cannot match
    inside. *)
Lemma scan_through (k Y post : str) :
  key_ok db k = true -> conflict_in db k Y = false -> word_after db post = false ->
  forall v2 v1 before,
    v1 ++ v2 = Y ->
    re_scan id (abbr_matcher db k) (rev v1 ++ before) 0 (v2 ++ post)
    = map inl v2 ++ re_scan id (abbr_matcher db k) (rev Y ++ before) 0 post.
Proof.
  intros Hk Hc Hpost. induction v2 as [|c v2 IH]; intros v1 before E.
  { rewrite app_nil_r in E. subst v1. reflexivity. }
  cbn [app re_scan map]. rewrite map_id. change (id c) with c.
  assert (re_scan id (abbr_matcher db k) (c :: rev v1 ++ before) 0 (v2 ++ post)
          = map inl v2 ++ re_scan id (abbr_matcher db k) (rev Y ++ before) 0 post) as Hr.
  { rewrite <- (IH (v1 ++ [c]) before) by (rewrite <- app_assoc; exact E).
    rewrite rev_app_distr. reflexivity. }
  destruct (abbr_matcher db k (rev v1 ++ before) (c :: v2 ++ post)) as [[|j]|] eqn:Em;
    [rewrite Hr; reflexivity| |rewrite Hr; reflexivity].
  exfalso.
  apply (no_match_inside db k v1 (c :: v2) (rev v1 ++ before) post j Hk);
    [rewrite E; exact Hc|discriminate| |exact Hpost|exact Em].
  intros Hne. destruct v1 as [|y t _] using rev_ind; [congruence|].
  rewrite rev_app_distr. reflexivity.
Qed.

(** What follows the occurrence still begins outside a word. *)
Lemma scan_post (k v post before : str) :
  key_ok db k = true -> word_after db post = false ->
  word_after db (out v (re_scan id (abbr_matcher db k) before 0 post)) = false.
Proof.
  intros Hk Hpost. destruct post as [|c r]; [reflexivity|].
  cbn [re_scan]. rewrite map_id. change (id c) with c.
  destruct (abbr_matcher db k before (c :: r)) as [[|j]|] eqn:Em; try exact Hpost.
  apply match_starts_word in Em; [|exact Hk]. cbn in Hpost. congruence.
Qed.

Lemma scan_match_here (k v Y post before : str) :
  Y <> [] ->
  abbr_matcher db k before (Y ++ post) = Some (length Y) ->
  out v (re_scan id (abbr_matcher db k) before 0 (Y ++ post))
  = v ++ out v (re_scan id (abbr_matcher db k) (rev Y ++ before) 0 post).
Proof.
  intros Hne Hm. destruct Y as [|c Y']; [congruence|].
  cbn [app re_scan]. rewrite map_id. cbn [app] in Hm. rewrite Hm. cbn [length].
  unfold out. cbn [map concat piece_out]. f_equal.
  rewrite re_scan_skip, map_id. cbn [rev]. rewrite <- app_assoc. reflexivity.
Qed.

(** The text holds [Y] between two boundaries. *)
Definition holds (Y t : str) : Prop :=
  exists pre post,
    t = pre ++ Y ++ post
    /\ word_before db (rev pre) = false /\ word_after db post = false.

Lemma suffix_boundary (pre p q : str) :
  pre = p ++ q -> q <> [] -> word_before db (rev pre) = false ->
  word_before db (rev q) = false.
Proof.
  intros -> Hq H. rewrite rev_app_distr in H.
  destruct q as [|y t _] using rev_ind; [congruence|].
  rewrite rev_app_distr in *. exact H.
Qed.

Lemma holds_left (Y pre pre' post' : str) :
  last pre' = last pre -> word_before db (rev pre) = false ->
  word_after db post' = false ->
  holds Y (pre' ++ Y ++ post').
Proof.
  intros Hl Hpre Hpost. exists pre', post'. split; [reflexivity|]. split; [|exact Hpost].
  pose proof (word_before_last db pre' pre [] Hl) as H. rewrite !app_nil_r in H.
  rewrite H. exact Hpre.
Qed.

(** A key that cannot share a character with [Y] leaves it where it is,
    between its boundaries. *)
Lemma step_protected (k v Y t : str) :
  key_ok db k = true -> value_ok db Y = true -> conflict db k Y = false ->
  holds Y t -> holds Y (expand_abbreviation db t (k, v)).
Proof.
  intros Hk HY Hc (pre & post & -> & Hpre & Hpost).
  rewrite conflict_halves in Hc. apply orb_false_elim in Hc as [Hin Hx].
  change (holds Y (out v (re_scan id (abbr_matcher db k) [] 0 (pre ++ Y ++ post)))).
  destruct (scan_pre db k v Y post Hk (length pre) pre [] (Nat.le_refl _))
    as [pre' [[Hl Ho]|(p & q & Epq & Hq & Hl & Hw & Hmq & Ho)]].
  - intros p q b j E Hq Hm. left.
    apply (no_match_across db k Y q b post j Hk HY Hx Hq); [|exact Hpost|exact Hm].
    apply (suffix_boundary pre p q E Hq Hpre).
  - rewrite Ho.
    pose proof (scan_through k Y post Hk Hin Hpost Y [] (rev pre ++ []) eq_refl) as Hs.
    cbn [rev app] in Hs. rewrite Hs, out_app, out_inl.
    apply (holds_left Y pre); [exact Hl|exact Hpre|apply scan_post; assumption].
  - exfalso.
    assert (q <> []) as Hqn by (intros ->; discriminate).
    destruct (length q + length Y)%nat as [|j] eqn:Ej; [destruct q; [congruence|discriminate]|].
    pose proof (no_match_across db k Y q _ post j Hk HY Hx Hqn
                  (suffix_boundary pre p q Epq Hqn Hpre) Hpost Hmq).
    lia.
Qed.

Lemma fold_protected (l : list (str * str)) (Y : str) :
  value_ok db Y = true ->
  forallb (fun e => key_ok db e.1 && negb (conflict db e.1 Y)) l = true ->
  forall t, holds Y t -> holds Y (fold_left (expand_abbreviation db) l t).
Proof.
  intros HY. induction l as [|[k v] l IH]; intros Hl t Ht; [exact Ht|].
  cbn [forallb fst] in Hl. apply andb_prop in Hl as [[Hk Hc]%andb_prop Hl].
  apply negb_true_iff in Hc. cbn [fold_left]. apply IH; [exact Hl|].
  apply step_protected; assumption.
Qed.

(** A dotted key finds itself where it stands between two boundaries. *)
Lemma match_at_key (k before post : str) :
  mem 0x2E k = true -> ci_starts_with db k k = true ->
  word_before db before = false -> word_after db post = false ->
  abbr_matcher db k before (k ++ post) = Some (length k).
Proof.
  intros Hdot Hci Hb Hp. unfold abbr_matcher, dotted_matcher. rewrite Hdot, Hb.
  rewrite drop_app_length, Hp.
  rewrite <- (app_nil_r k) at 1.
  rewrite ci_starts_with_app by reflexivity. rewrite Hci.
  destruct post; reflexivity.
Qed.

(** The key of the occurrence itself replaces it. *)
Lemma step_itself (k v t : str) :
  key_ok db k = true -> value_ok db k = true -> conflict_x db k k = false ->
  mem 0x2E k = true -> ci_starts_with db k k = true ->
  holds k t -> holds v (expand_abbreviation db t (k, v)).
Proof.
  intros Hk HY Hx Hdot Hci (pre & post & -> & Hpre & Hpost).
  change (holds v (out v (re_scan id (abbr_matcher db k) [] 0 (pre ++ k ++ post)))).
  assert (k <> []) as Hne by (intros ->; discriminate).
  destruct (scan_pre db k v k post Hk (length pre) pre [] (Nat.le_refl _))
    as [pre' [[Hl Ho]|(p & q & Epq & Hq & Hl & Hw & Hmq & Ho)]].
  - intros p q b j E Hq Hm. left.
    apply (no_match_across db k k q b post j Hk HY Hx Hq); [|exact Hpost|exact Hm].
    apply (suffix_boundary pre p q E Hq Hpre).
  - rewrite Ho. rewrite scan_match_here; [|exact Hne|].
    + apply (holds_left v pre); [exact Hl|exact Hpre|apply scan_post; assumption].
    + rewrite app_nil_r. apply match_at_key; assumption.
  - exfalso.
    assert (q <> []) as Hqn by (intros ->; discriminate).
    destruct (length q + length k)%nat as [|j] eqn:Ej; [destruct q; [congruence|discriminate]|].
    pose proof (no_match_across db k k q _ post j Hk HY Hx Hqn
                  (suffix_boundary pre p q Epq Hqn Hpre) Hpost Hmq).
    lia.
Qed.

(** A longer key that ends with the occurrence: it leaves the occurrence
    in place, or it replaces it together with what stands before. *)
Lemma step_longer (k v Y t : str) :
  key_ok db k = true -> value_ok db Y = true -> conflict_in db k Y = false ->
  forallb (fun i => negb (last_not_word_pattern db (take i k) && fits db (drop i k) Y)
                    || (i + length Y =? length k)%nat)
          (seq 1 (length k - 1)) = true ->
  holds Y t ->
  holds Y (expand_abbreviation db t (k, v))
  \/ holds v (expand_abbreviation db t (k, v)).
Proof.
  intros Hk HY Hin Hx (pre & post & -> & Hpre & Hpost).
  change (holds Y (out v (re_scan id (abbr_matcher db k) [] 0 (pre ++ Y ++ post)))
          \/ holds v (out v (re_scan id (abbr_matcher db k) [] 0 (pre ++ Y ++ post)))).
  destruct (scan_pre db k v Y post Hk (length pre) pre [] (Nat.le_refl _))
    as [pre' [[Hl Ho]|(p & q & Epq & Hq & Hl & Hw & Hmq & Ho)]].
  - intros p q b j E Hq Hm.
    destruct (match_into_facts db k Y q b post j Hk HY Hq
                (suffix_boundary pre p q E Hq Hpre) Hpost Hm)
      as [H|(Hlen & H1 & H2)]; [left; exact H|right].
    apply abbr_match_facts in Hm as (-> & _); [|exact Hk].
    rewrite forallb_forall in Hx.
    assert (In (length q) (seq 1 (length k - 1))) as Hi
      by (apply in_seq; destruct q; [congruence|cbn [length] in *; lia]).
    specialize (Hx _ Hi). rewrite H1, H2 in Hx. cbn in Hx.
    apply Nat.eqb_eq in Hx. lia.
  - left. rewrite Ho.
    pose proof (scan_through k Y post Hk Hin Hpost Y [] (rev pre ++ []) eq_refl) as Hs.
    cbn [rev app] in Hs. rewrite Hs, out_app, out_inl.
    apply (holds_left Y pre); [exact Hl|exact Hpre|apply scan_post; assumption].
  - right. rewrite Ho. exists pre', (out v (re_scan id (abbr_matcher db k)
                                              (rev (q ++ Y) ++ rev p ++ []) 0 post)).
    split; [reflexivity|]. split; [|apply scan_post; assumption].
    pose proof (word_before_last db pre' p [] Hl) as H. rewrite !app_nil_r in H.
    rewrite H. rewrite app_nil_r in Hw. exact Hw.
Qed.

Lemma starts_with_app_self (p b : str) : starts_with p (p ++ b) = true.
Proof.
  induction p as [|c p IH]; [reflexivity|]. cbn. rewrite N.eqb_refl. exact IH.
Qed.

Lemma contains_here (p a b : str) : contains p (a ++ p ++ b) = true.
Proof.
  induction a as [|c a IH].
  - cbn [app]. destruct (p ++ b) eqn:E; cbn [contains];
      rewrite <- E, starts_with_app_self; reflexivity.
  - cbn [app contains]. rewrite IH. apply orb_true_r.
Qed.

Lemma holds_contains (Y t : str) : holds Y t -> contains Y t = true.
Proof. intros (pre & post & -> & _). apply contains_here. Qed.
End OccurrenceSteps.

Section OccurrenceKept.
Variable db : unicode_db.

Definition td_key : str := u "т.д.".
Definition td_value : str := u "так далее".
Definition i_td_key : str := u "и т.д.".
Definition i_td_value : str := u "и так далее".

(** The table, cut at the two keys that can match the occurrence. *)
Definition keys_before_i_td : list (str * str) := take 4 (sorted_by_length abbreviations).
Definition keys_before_td : list (str * str) :=
  take 10 (drop 5 (sorted_by_length abbreviations)).
Definition keys_after_td : list (str * str) := drop 16 (sorted_by_length abbreviations).

Lemma table_cut :
  sorted_by_length abbreviations
  = keys_before_i_td ++ (i_td_key, i_td_value)
      :: keys_before_td ++ (td_key, td_value) :: keys_after_td.
Proof. vm_compute. reflexivity. Qed.

Definition leaves (Y : str) (l : list (str * str)) : bool :=
  forallb (fun e => key_ok db e.1 && negb (conflict db e.1 Y)) l.

Lemma table_checked :
  leaves td_key keys_before_i_td = true
  /\ leaves td_key keys_before_td = true
  /\ leaves td_value keys_after_td = true
  /\ leaves i_td_value (keys_before_td ++ (td_key, td_value) :: keys_after_td) = true
  /\ key_ok db i_td_key = true /\ conflict_in db i_td_key td_key = false
  /\ forallb (fun i => negb (last_not_word_pattern db (take i i_td_key)
                             && fits db (drop i i_td_key) td_key)
                       || (i + length td_key =? length i_td_key)%nat)
             (seq 1 (length i_td_key - 1)) = true
  /\ key_ok db td_key = true /\ conflict_x db td_key td_key = false
  /\ ci_starts_with db td_key td_key = true.
Proof. vm_compute. repeat split; reflexivity. Qed.

(** The loop over the table, on a text that holds the abbreviation
    between two boundaries: its expansion stands in the result, between
    two boundaries, alone or after the conjunction. *)
Lemma expansion_holds (t : str) :
  holds db td_key t ->
  holds db td_value (fold_left (expand_abbreviation db) (sorted_by_length abbreviations) t)
  \/ holds db i_td_value
       (fold_left (expand_abbreviation db) (sorted_by_length abbreviations) t).
Proof.
  intros Ht.
  destruct table_checked as (C1 & C2 & C3 & C4 & K1 & K2 & K3 & K4 & K5 & K6).
  rewrite table_cut, fold_left_app. cbn [fold_left].
  rewrite fold_left_app. cbn [fold_left].
  apply (fold_protected db keys_before_i_td td_key eq_refl C1) in Ht.
  set (t1 := fold_left (expand_abbreviation db) keys_before_i_td t) in *.
  destruct (step_longer db i_td_key i_td_value td_key t1 K1 eq_refl K2 K3 Ht) as [H|H].
  - left.
    apply (fold_protected db keys_before_td td_key eq_refl C2) in H.
    apply (step_itself db td_key td_value _ K4 eq_refl K5 eq_refl K6) in H.
    apply (fold_protected db keys_after_td td_value eq_refl C3) in H. exact H.
  - right.
    pose proof (fold_protected db _ i_td_value eq_refl C4 _ H) as H'.
    rewrite fold_left_app in H'. exact H'.
Qed.

Lemma holds_value (Y t : str) :
  holds db Y t -> Y = td_value \/ Y = i_td_value ->
  exists a b, t = a ++ td_value ++ b /\ word_after db b = false.
Proof.
  intros (pre & post & -> & _ & Hpost) [->| ->].
  - exists pre, post. split; [reflexivity|exact Hpost].
  - exists (pre ++ u "и "), post. split; [|exact Hpost].
    rewrite <- app_assoc. reflexivity.
Qed.

(** The rule for a leading preposition does not reach the occurrence. *)
Lemma leading_v_holds (t : str) :
  holds db td_key t ->
  holds db td_key (re_sub id leading_v_matcher (fun _ => u "В ") t).
Proof.
  intros (pre & post & -> & Hpre & Hpost). unfold re_sub.
  destruct pre as [|c r].
  { cbn [app]. change (td_key ++ post) with (0x442 :: (u ".д." ++ post)).
    cbn [re_scan]. rewrite leading_v_matcher_eq, map_id. cbn [N.eqb Pos.eqb].
    rewrite (leading_v_rest _ [id 1090] 0%nat) by discriminate. rewrite drop_0.
    cbn [map concat piece_out]. rewrite concat_inl.
    exists [], post. split; [reflexivity|]. split; [reflexivity|exact Hpost]. }
  cbn [app re_scan]. rewrite leading_v_matcher_eq, map_id.
  assert (concat (map (piece_out (fun _ : str => u "В "))
                   (inl c :: re_scan id leading_v_matcher [id c] 0 (r ++ td_key ++ post)))
          = (c :: r) ++ td_key ++ post) as Hsame.
  { rewrite (leading_v_rest _ [id c] 0%nat) by discriminate. rewrite drop_0.
    cbn [map concat piece_out app]. rewrite concat_inl. reflexivity. }
  destruct (c =? 0x412) eqn:Ec;
    [|rewrite Hsame; exists (c :: r), post; auto].
  destruct (run_length isspace (r ++ td_key ++ post)) as [|n] eqn:En;
    [rewrite Hsame; exists (c :: r), post; auto|].
  assert (S n <= length r)%nat as Hn.
  { destruct (Nat.le_gt_cases (S n) (length r)) as [H|H]; [exact H|]. exfalso.
    assert (forall s rest : str,
              (run_length isspace (s ++ td_key ++ rest) <= length s)%nat) as Hrun.
    { clear. induction s as [|x s IH]; intros rest; [vm_compute; lia|].
      cbn [app run_length length]. destruct (isspace x); [specialize (IH rest)|]; lia. }
    specialize (Hrun r post). lia. }
  rewrite (leading_v_rest _ [id c] (S n)) by discriminate.
  cbn [map concat piece_out]. rewrite concat_inl.
  rewrite drop_app_le by exact Hn.
  exists (u "В " ++ drop (S n) r), post. split; [rewrite <- app_assoc; reflexivity|].
  split; [|exact Hpost].
  destruct (drop (S n) r) as [|y d] eqn:Ed; [reflexivity|].
  assert (last (u "В " ++ y :: d) = last (c :: r)) as Hl.
  { rewrite last_app_keep by discriminate. rewrite <- Ed.
    rewrite <- (take_drop (S n) r) at 2. rewrite app_comm_cons. symmetry.
    apply last_app_keep. rewrite Ed. discriminate. }
  pose proof (word_before_last db _ _ [] Hl) as H. rewrite !app_nil_r in H.
  rewrite H. exact Hpre.
Qed.

Lemma re_scan_prefix_free (m : matcher) (p : char -> bool) (Y rest : str) :
  (forall before c r n, m before (c :: r) = Some (S n) -> p c = true) ->
  existsb p Y = false ->
  forall before,
    re_scan id m before 0 (Y ++ rest) = map inl Y ++ re_scan id m (rev Y ++ before) 0 rest.
Proof.
  intros Hm. induction Y as [|c Y IH]; intros HY before; [reflexivity|].
  cbn [existsb] in HY. apply orb_false_elim in HY as [Hc HY].
  cbn [app re_scan map]. rewrite map_id. change (id c) with c.
  assert (re_scan id m (c :: before) 0 (Y ++ rest)
          = map inl Y ++ re_scan id m (rev (c :: Y) ++ before) 0 rest) as Hr.
  { rewrite (IH HY). cbn [rev]. rewrite <- app_assoc. reflexivity. }
  destruct (m before (c :: Y ++ rest)) as [[|n]|] eqn:Em;
    [rewrite Hr; reflexivity| |rewrite Hr; reflexivity].
  apply Hm in Em. congruence.
Qed.

(** The numeral step leaves a text without digits where it is. *)
Lemma numbers_pre (Y b : str) (n : nat) :
  match Y with c :: _ => isdecimal db c = false | [] => False end ->
  forall a before,
    (length a <= n)%nat ->
    exists a',
      concat (map (piece_out (convert_russian_number db))
                (re_scan id (number_matcher db) before 0 (a ++ Y ++ b)))
      = a' ++ concat (map (piece_out (convert_russian_number db))
                        (re_scan id (number_matcher db) (rev a ++ before) 0 (Y ++ b))).
Proof.
  intros HY. induction n as [|n IH]; intros a before Hlen.
  { destruct a; [|cbn in Hlen; lia]. exists []. reflexivity. }
  destruct a as [|c r]; [exists []; reflexivity|].
  cbn [length] in Hlen.
  assert (exists a',
            c :: concat (map (piece_out (convert_russian_number db))
                           (re_scan id (number_matcher db) (c :: before) 0 (r ++ Y ++ b)))
            = a' ++ concat (map (piece_out (convert_russian_number db))
                              (re_scan id (number_matcher db) (rev (c :: r) ++ before) 0
                                 (Y ++ b)))) as Hstep.
  { destruct (IH r (c :: before) ltac:(lia)) as [a' Ha]. exists (c :: a').
    rewrite Ha. cbn [rev]. rewrite <- app_assoc. reflexivity. }
  change ((c :: r) ++ Y ++ b) with (c :: r ++ Y ++ b).
  cbn [re_scan]. rewrite map_id. change (id c) with c.
  destruct (number_matcher db before (c :: r ++ Y ++ b)) as [[|j]|] eqn:Em;
    [exact Hstep| |exact Hstep].
  pose proof (number_match_digits db _ _ _ Em) as [Hd _].
  assert (S j <= length (c :: r))%nat as Hj.
  { destruct (Nat.le_gt_cases (S j) (length (c :: r))) as [H|H]; [exact H|]. exfalso.
    change (c :: r ++ Y ++ b) with ((c :: r) ++ Y ++ b) in Hd.
    rewrite take_app_ge in Hd by lia.
    rewrite forallb_app in Hd. apply andb_prop in Hd as [_ Hd].
    destruct (S j - length (c :: r))%nat as [|i] eqn:Ei; [lia|].
    destruct Y as [|y Y']; [contradiction|].
    cbn [app take forallb] in Hd. apply andb_prop in Hd as [Hd _]. congruence. }
  cbn [length] in Hj.
  assert (re_scan id (number_matcher db) (c :: before) j (r ++ Y ++ b)
          = re_scan id (number_matcher db) (rev (take j r) ++ c :: before) 0
              (drop j r ++ Y ++ b)) as Es.
  { rewrite <- (take_drop j r) at 1. rewrite <- app_assoc.
    assert (length (take j r) = j) as Ht by (rewrite length_take; lia).
    rewrite <- Ht at 1. rewrite re_scan_skip, map_id. reflexivity. }
  destruct (IH (drop j r) (rev (take j r) ++ c :: before)
              ltac:(rewrite length_drop; lia)) as [a' Ha].
  exists (convert_russian_number db (take (S j) (c :: r ++ Y ++ b)) ++ a').
  cbn [map concat piece_out]. rewrite Es, Ha, <- app_assoc.
  assert (rev (drop j r) ++ rev (take j r) ++ c :: before = rev (c :: r) ++ before) as ->.
  { rewrite <- (take_drop j r) at 3. cbn [rev]. rewrite rev_app_distr, <- !app_assoc.
    reflexivity. }
  reflexivity.
Qed.

Lemma numbers_keep (Y a b : str) :
  Y <> [] -> existsb (isdecimal db) Y = false ->
  exists a' b', replace_all_numbers db (a ++ Y ++ b) = a' ++ Y ++ b'.
Proof.
  intros Hne HY. unfold replace_all_numbers, re_sub.
  destruct (numbers_pre Y b (length a)) with (a := a) (before := @nil char) as [a' Ha].
  { destruct Y as [|y Y']; [congruence|]. cbn in HY.
    apply orb_false_elim in HY as [HY _]. exact HY. }
  { reflexivity. }
  rewrite Ha.
  rewrite (re_scan_prefix_free (number_matcher db) (isdecimal db) Y b
             (number_match_start db) HY).
  rewrite map_app, concat_app, concat_inl. eauto.
Qed.

(** A text in which "т.д." stands with no word character right before
    it and none right after it comes out of the Russian conversion with
    "так далее" in it. *)
Lemma td_expanded (pre post : str) :
  word_before db (rev pre) = false -> word_after db post = false ->
  contains (u "так далее")
    (_simple_number_conversion db (pre ++ u "т.д." ++ post) russian) = true.
Proof.
  intros Hpre Hpost. unfold _simple_number_conversion.
  assert (holds db td_key (pre ++ td_key ++ post)) as Ht
    by (exists pre, post; auto).
  apply leading_v_holds in Ht. apply expansion_holds in Ht.
  assert (exists a b,
            fold_left (expand_abbreviation db) (sorted_by_length abbreviations)
              (re_sub id leading_v_matcher (fun _ => u "В ") (pre ++ td_key ++ post))
            = a ++ td_value ++ b /\ word_after db b = false) as (a & b & E & _).
  { destruct Ht as [H|H]; apply (holds_value _ _ H); auto. }
  change (u "т.д.") with td_key. rewrite E.
  destruct (numbers_keep td_value a b ltac:(discriminate) ltac:(vm_compute; reflexivity))
    as (a' & b' & ->).
  apply contains_here.
Qed.
End OccurrenceKept.




Example expand_sample :
  fold_left (expand_abbreviation basic_db) (sorted_by_length abbreviations)
            (u "Проф. Иванов, к.т.н., и т.д.: HTTPS, 5 кВт и 3 см.")
  = u "профессор Иванов, кандидат технических наук, и так далее: хэ тэ тэ пи эс, 5 киловатт и 3 смотри".
Proof. vm_compute. reflexivity. Qed.
